(** * Argument casting and prompting of discord-akairo

    A shallow embedding of [src/struct/commands/arguments/Argument.js]:
    the static type caster [Argument.cast], the type combinators
    ([union], [tuple], [validate], [range], [compose]), the instance methods
    [process], [cast] and [collect], and the recursive prompt loop
    [promptOne] that [collect] drives.

    JavaScript values are a small inductive type, promises are awaited in
    sequence (an [async] function is a function that may throw), and the
    mutable objects the code shares (the [args] object, the accumulation
    array it points to, the handler's prompt registry) live in an explicit
    state that every effectful function threads, together with a log of
    the calls that leave the argument: texts resolved and sent, awaits,
    casts, calls on [message.util]. The one loop of the code that may
    never end, the [exec] loop of a global regular expression, is modelled
    call by call, and a cast that never returns has an outcome of its
    own, [Throw Unending]. [Argument.range] compares through
    [ToNumber], of which the part that reads strings and objects is a
    parameter.

    The second source file, the client utilities, is embedded in the
    module [ClientUtil]. *)

From Stdlib Require Import Ascii String.
From Stdlib Require QArith.
From stdpp Require Import base option list gmap strings.

Local Open Scope string_scope.
Set Warnings "-register-all".

(** ** Strings *)

Module Str.

Definition is_upper (c : ascii) : bool :=
  (65 <=? nat_of_ascii c)%nat && (nat_of_ascii c <=? 90)%nat.

Definition lower_char (c : ascii) : ascii :=
  if is_upper c then ascii_of_nat (nat_of_ascii c + 32) else c.

(** [String.prototype.toLowerCase], on the ASCII range. *)
Fixpoint toLowerCase (s : string) : string :=
  match s with
  | EmptyString => EmptyString
  | String c r => String (lower_char c) (toLowerCase r)
  end.

(** White space as [String.prototype.trim] sees it, on the ASCII range:
    TAB, LF, VT, FF, CR and SPACE. *)
Definition is_white (c : ascii) : bool :=
  let n := nat_of_ascii c in
  ((9 <=? n)%nat && (n <=? 13)%nat) || (n =? 32)%nat.

Fixpoint trimStart (s : string) : string :=
  match s with
  | EmptyString => EmptyString
  | String c r => if is_white c then trimStart r else s
  end.

Fixpoint trimEnd (s : string) : string :=
  match s with
  | EmptyString => EmptyString
  | String c r =>
      match trimEnd r with
      | EmptyString => if is_white c then EmptyString else String c EmptyString
      | r' => String c r'
      end
  end.

Definition trim (s : string) : string := trimEnd (trimStart s).

(** [Array.prototype.join('\n')] on an array of strings. *)
Definition join_lines (ls : list string) : string :=
  String.concat (String (ascii_of_nat 10) EmptyString) ls.

(** [a.toLowerCase() === b.toLowerCase()] *)
Definition ieq (a b : string) : bool :=
  String.eqb (toLowerCase a) (toLowerCase b).

(** Truthiness of a string. *)
Definition nonempty (s : string) : bool :=
  match s with EmptyString => false | _ => true end.

End Str.

(** ** Messages, parsing flags and values *)

(** The fields of a discord.js [Message] that the code reads:
    [m.id], [m.channel.id], [m.author.id] and [m.content]. *)
Record Message := mkMessage {
  msg_id : string;
  msg_channel : string;
  msg_author : string;
  msg_content : string
}.

(** Modelled from the spec: [ParsingFlag] ([../ParsingFlag] is required by
    the source and not part of it). A tagged result distinct from any
    argument value: [Cancel], or [Retry] carrying the captured reply. *)
Inductive ParsingFlag :=
| Cancel
| Retry (input : Message).

(** Heap addresses of the arrays that are shared and mutated. *)
Definition loc := positive.

(** JavaScript values that casters, suppliers and the prompt loop produce.
    [VArr] is an array that nothing mutates after it is built, [VRef] a
    reference to a shared array in the heap, [VMatch] the object
    [{ match, matches }] of a regular-expression type, [VObj] an opaque
    object (a user, a channel, ...). *)
Inductive value :=
| VUndefined
| VNull
| VBool (b : bool)
| VNum (n : Z)
| VStr (s : string)
| VArr (vs : list value)
| VRef (l : loc)
| VMatch (match_ : value) (matches : list value)
| VFlag (f : ParsingFlag)
| VObj (tag : string).

(** [v == null] *)
Definition is_nullish (v : value) : bool :=
  match v with VUndefined | VNull => true | _ => false end.

(** Truthiness, as in [if (v)]. *)
Definition truthy (v : value) : bool :=
  match v with
  | VUndefined | VNull => false
  | VBool b => b
  | VNum n => negb (n =? 0)%Z
  | VStr s => Str.nonempty s
  | _ => true
  end.

(** ** Results of calls that may throw *)

(** How a call ends when it gives no value: with an exception (a
    [TypeError], a failure of the transport, an error of user code), or
    not at all: [Unending] stands for a call that never returns. It is
    carried like an exception: what follows the call does not run, and
    nothing catches it (the one [try] block of the source encloses the
    await of a reply and [message.util.addMessage], never a cast). *)
Inductive error :=
| TypeError (what : string)
| TransportError
| UserError (what : string)
| Unending.

Inductive outcome (A : Type) :=
| Ok (a : A)
| Throw (e : error).
Arguments Ok {A} a.
Arguments Throw {A} e.

Definition obind {A B} (o : outcome A) (k : A -> outcome B) : outcome B :=
  match o with Ok a => k a | Throw e => Throw e end.

Definition is_throw {A} (o : outcome A) : bool :=
  match o with Throw _ => true | Ok _ => false end.

(** ** The store that casters and suppliers can read *)

(** The [args] object of previous arguments, and the arrays it may point
    to. *)
Record store := mkStore {
  s_args : gmap string value;
  s_heap : gmap loc (list value)
}.

(** ** Types *)

(** A built-in caster of the type resolver, [resolver.type(name)]. *)
Definition builtin := value -> Message -> store -> outcome value.

(** [handler.resolver]: [resolver.type(name)] is a caster or undefined. *)
Definition TypeResolver := string -> option builtin.

(** What [this] is inside a caster: undefined, or an argument, of which
    casters read [this.handler.resolver]. *)
Inductive receiver :=
| ThisUndefined
| ThisArgument (resolver : TypeResolver).

(** [this.handler.resolver] *)
Definition this_handler_resolver (this : receiver) : outcome TypeResolver :=
  match this with
  | ThisUndefined => Throw (TypeError "Cannot read property 'handler' of undefined")
  | ThisArgument r => Ok r
  end.

(** A function used as a type. [fn_bound] is the receiver fixed by
    [Function.prototype.bind], if any; [fn_body] is the function body,
    given its receiver. A caster that returns a promise is awaited by its
    caller, so its result is an [outcome]. *)
Record jsfun := mkFun {
  fn_bound : option receiver;
  fn_body : receiver -> value -> Message -> store -> outcome value
}.

(** [f.bind(this)]: binding again does not change the receiver. *)
Definition bind (f : jsfun) (this : receiver) : jsfun :=
  match fn_bound f with
  | Some _ => f
  | None => mkFun (Some this) (fn_body f)
  end.

(** [f(phrase, message, args)], a call with no receiver: [this] is the
    bound receiver, or undefined (class bodies are strict code). *)
Definition call (f : jsfun) (phrase : value) (message : Message) (args : store)
  : outcome value :=
  fn_body f (default ThisUndefined (fn_bound f)) phrase message args.

(** A regular expression, through the three things the code asks of it:
    [type.global], [phrase.match(type)] and [type.exec(phrase)].
    [re_exec r phrase lastIndex] is one call of [exec] on a global
    expression whose [lastIndex] is at most the length of the phrase: the
    match found from [lastIndex] on, with the number of places by which
    the call moves [lastIndex] forward (it leaves [lastIndex] at the end
    of the match, which is never before the place the search started
    from), or [None] when nothing matches. An empty match at [lastIndex]
    itself moves it by 0. *)
Record RegExp := mkRegExp {
  re_global : bool;
  re_match : string -> option value;
  re_exec : string -> nat -> option (value * nat)
}.

(** [type.exec(phrase)] on a global expression, from the value of
    [type.lastIndex]: the match and the [lastIndex] that the call leaves.
    Past the end of the phrase the call fails at once; a failed call gives
    null (and puts [lastIndex] back to 0). *)
Definition exec (r : RegExp) (phrase : string) (lastIndex : nat)
  : option (value * nat) :=
  if (String.length phrase <? lastIndex)%nat then None
  else match re_exec r phrase lastIndex with
       | Some (matched, advance) => Some (matched, (lastIndex + advance)%nat)
       | None => None
       end.

(** [while ((matched = type.exec(phrase)) != null) matches.push(matched);]
    run for at most [fuel] calls of [exec]: the array [matches] when a
    call gives null, [None] when the loop has not ended by then. *)
Fixpoint exec_loop (r : RegExp) (phrase : string) (fuel lastIndex : nat)
    (matches : list value) : option (list value) :=
  match fuel with
  | O => None
  | S fuel' =>
      match exec r phrase lastIndex with
      | None => Some matches
      | Some (matched, next) =>
          exec_loop r phrase fuel' next (matches ++ [matched])
      end
  end.

(** The loop as [cast] runs it: [phrase.match(type)] has left [lastIndex]
    at 0 and [matches] is empty. A loop that ends does so within
    [length + 2] calls, since every call but the last moves [lastIndex]
    forward; a loop that has not ended by then never does
    ([exec_all_none_is_unending]): some call has matched the empty string
    at its own [lastIndex], and the same call is repeated for ever. *)
Definition exec_all (r : RegExp) (phrase : string) : option (list value) :=
  exec_loop r phrase (String.length phrase + 2) 0 [].

(** An entry of an array type: a string, or an array of aliases. *)
Inductive entry :=
| EStr (s : string)
| EAliases (ts : list string).

Inductive type :=
| TArray (entries : list entry)
| TFunction (f : jsfun)
| TRegExp (r : RegExp)
| TName (name : string).

(** [typeof t === 'function' ? t.bind(this) : t] *)
Definition bind_type (t : type) (this : receiver) : type :=
  match t with
  | TFunction f => TFunction (bind f this)
  | _ => t
  end.

(** ** [Argument.cast] *)

(** The error of calling a string method on a phrase that is no string:
    null and undefined have no properties, other values lack the
    method. *)
Definition no_method (phrase : value) (method : string) : error :=
  match phrase with
  | VNull => TypeError ("Cannot read property '" +:+ method +:+ "' of null")
  | VUndefined =>
      TypeError ("Cannot read property '" +:+ method +:+ "' of undefined")
  | _ => TypeError ("phrase." +:+ method +:+ " is not a function")
  end.

(** [phrase.toLowerCase()]: only a string has the method. *)
Definition phrase_toLowerCase (phrase : value) : outcome string :=
  match phrase with
  | VStr s => Ok (Str.toLowerCase s)
  | _ => Throw (no_method phrase "toLowerCase")
  end.

(** [entry.some(t => t.toLowerCase() === phrase.toLowerCase())] *)
Fixpoint some_alias (ts : list string) (phrase : value) : outcome bool :=
  match ts with
  | [] => Ok false
  | t :: ts' =>
      obind (phrase_toLowerCase phrase) (fun p =>
        if String.eqb (Str.toLowerCase t) p then Ok true
        else some_alias ts' phrase)
  end.

(** The [for (const entry of type)] loop of an array type. *)
Fixpoint cast_array (entries : list entry) (phrase : value) : outcome value :=
  match entries with
  | [] => Ok VNull
  | EAliases ts :: rest =>
      obind (some_alias ts phrase) (fun hit =>
        if hit then Ok (match ts with t :: _ => VStr t | [] => VUndefined end)
        else cast_array rest phrase)
  | EStr s :: rest =>
      obind (phrase_toLowerCase phrase) (fun p =>
        if String.eqb (Str.toLowerCase s) p then Ok (VStr s)
        else cast_array rest phrase)
  end.

(** [if (res != null) return res; return null;] *)
Definition non_void (res : value) : value :=
  if is_nullish res then VNull else res.

Definition cast (t : type) (resolver : TypeResolver) (phrase : value)
    (message : Message) (args : store) : outcome value :=
  match t with
  | TArray entries => cast_array entries phrase
  | TFunction f =>
      obind (call f phrase message args) (fun res => Ok (non_void res))
  | TRegExp r =>
      match phrase with
      | VStr s =>
          match re_match r s with
          | None => Ok VNull
          | Some m =>
              if re_global r then
                match exec_all r s with
                | Some matches => Ok (VMatch m matches)
                | None => Throw Unending
                end
              else Ok (VMatch m [])
          end
      | _ => Throw (no_method phrase "match")
      end
  | TName name =>
      match resolver name with
      | Some caster =>
          obind (caster phrase message args) (fun res => Ok (non_void res))
      | None => if truthy phrase then Ok phrase else Ok VNull
      end
  end.

(** ** Combinators *)

(** [Argument.union(...types)]. The loop tests [typeof type], and no
    [type] is in scope there: the test is false and no entry is bound. *)
Fixpoint union_loop (types : list type) (this : receiver) (phrase : value)
    (message : Message) (args : store) : outcome value :=
  match types with
  | [] => Ok VNull
  | entry :: rest =>
      obind (this_handler_resolver this) (fun resolver =>
      obind (cast entry resolver phrase message args) (fun res =>
        if negb (is_nullish res) then Ok res
        else union_loop rest this phrase message args))
  end.

Definition union (types : list type) : jsfun :=
  mkFun None (union_loop types).

(** [Argument.tuple(...types)], with the same test of [typeof type]. *)
Fixpoint tuple_loop (types : list type) (results : list value)
    (this : receiver) (phrase : value) (message : Message) (args : store)
  : outcome value :=
  match types with
  | [] => Ok (VArr results)
  | entry :: rest =>
      obind (this_handler_resolver this) (fun resolver =>
      obind (cast entry resolver phrase message args) (fun res =>
        if is_nullish res then Ok VNull
        else tuple_loop rest (results ++ [res]) this phrase message args))
  end.

Definition tuple (types : list type) : jsfun :=
  mkFun None (tuple_loop types []).

(** [Argument.validate(type, predicate)]. The source assigns the bound
    function to its variable [type]; binding again leaves the receiver of
    the first call, so this only differs from binding at each call when
    one type is shared by arguments of different handlers. *)
Definition validate (t : type)
    (predicate : receiver -> value -> value -> Message -> store -> bool)
  : jsfun :=
  mkFun None (fun this phrase message args =>
    let t := bind_type t this in
    obind (this_handler_resolver this) (fun resolver =>
    obind (cast t resolver phrase message args) (fun res =>
      if is_nullish res then Ok VNull
      else if negb (predicate this res phrase message args) then Ok VNull
      else Ok res))).

(** [Argument.compose(type1, type2, ignoreVoid = true)] *)
Definition compose (type1 type2 : type) (ignoreVoid : bool) : jsfun :=
  mkFun None (fun this phrase message args =>
    let type1 := bind_type type1 this in
    obind (this_handler_resolver this) (fun resolver =>
    obind (cast type1 resolver phrase message args) (fun res =>
      if is_nullish res && negb ignoreVoid then Ok VNull
      else
        let type2 := bind_type type2 this in
        obind (this_handler_resolver this) (fun resolver2 =>
          cast type2 resolver2 res message args)))).

(** ** [Argument.range] *)

(** A JavaScript number as the relational operators see it: NaN, an
    infinity, or a finite value. *)
Inductive jsnum :=
| NaN
| NegInfinity
| Num (q : QArith_base.Q)
| PosInfinity.

(** [a <= b]: false as soon as one side is NaN. *)
Definition num_le (a b : jsnum) : bool :=
  match a, b with
  | NaN, _ | _, NaN => false
  | NegInfinity, _ => true
  | _, PosInfinity => true
  | Num x, Num y => QArith_base.Qle_bool x y
  | _, _ => false
  end.

(** [a < b] *)
Definition num_lt (a b : jsnum) : bool :=
  match a, b with
  | NaN, _ | _, NaN => false
  | _, _ => negb (num_le b a)
  end.

(** [ToNumber], which the relational operators apply to an operand that
    is compared with a number. What it makes of a string or of an object
    ([StringToNumber], [valueOf], [toString]) is left to [coerce]. *)
Definition ToNumber (coerce : value -> jsnum) (v : value) : jsnum :=
  match v with
  | VUndefined => NaN
  | VNull => Num (QArith_base.inject_Z 0)
  | VBool b => Num (QArith_base.inject_Z (if b then 1 else 0))
  | VNum n => Num (QArith_base.inject_Z n)
  | _ => coerce v
  end.

(** [Argument.range(type, min, max, inclusive = false)]:
    [Argument.validate(type, x => x >= min && (inclusive ? x <= max
    : x < max))]. *)
Definition range (coerce : value -> jsnum) (t : type) (min max : jsnum)
    (inclusive : option bool) : jsfun :=
  validate t (fun _ x _ _ _ =>
    num_le min (ToNumber coerce x)
    && (if default false inclusive then num_le (ToNumber coerce x) max
        else num_lt (ToNumber coerce x) max)).

(** ** Prompt options *)

(** A JavaScript number used as a bound: a count, or [Infinity]. *)
Inductive number :=
| Finite (n : nat)
| Infinity.

(** [n <= b] and [n < b], where an undefined [b] compares false. *)
Definition le_number (n : nat) (b : option number) : bool :=
  match b with
  | Some (Finite m) => (n <=? m)%nat
  | Some Infinity => true
  | None => false
  end.

Definition lt_number (n : nat) (b : option number) : bool :=
  match b with
  | Some (Finite m) => (n <? m)%nat
  | Some Infinity => true
  | None => false
  end.

(** [ArgumentPromptData], the last argument of suppliers and modifiers. *)
Record ArgumentPromptData := mkData {
  d_retries : nat;
  d_infinite : bool;
  d_message : Message;
  d_phrase : string
}.

(** What a prompt text can be before it is sent: nothing, a string, or an
    array of lines. *)
Inductive text :=
| TUndefined
| TString (s : string)
| TLines (ls : list string).

(** [if (Array.isArray(text)) text = text.join('\n')] *)
Definition join_text (t : text) : text :=
  match t with
  | TLines ls => TString (Str.join_lines ls)
  | _ => t
  end.

(** A text that is sent, [if (text)]. *)
Definition sendable (t : text) : option string :=
  match t with
  | TString s => if Str.nonempty s then Some s else None
  | TLines ls => Some (Str.join_lines ls)
  | TUndefined => None
  end.

(** [PromptContentSupplier], or the content itself. *)
Inductive content :=
| CText (t : text)
| CSupplier (f : Message -> store -> ArgumentPromptData -> text).

(** [PromptContentModifier] *)
Definition modifier := text -> Message -> store -> ArgumentPromptData -> text.

(** [ArgumentPromptOptions]; a field that the object does not have is
    [None]. *)
Record ArgumentPromptOptions := mkPromptOptions {
  retries : option number;
  time : option N;
  cancelWord : option string;
  stopWord : option string;
  optional : option bool;
  infinite : option bool;
  limit : option number;
  breakout : option bool;
  start : option content;
  retry : option content;
  timeout : option content;
  ended : option content;
  cancel : option content;
  modifyStart : option modifier;
  modifyRetry : option modifier;
  modifyTimeout : option modifier;
  modifyEnded : option modifier;
  modifyCancel : option modifier
}.

Definition no_options : ArgumentPromptOptions :=
  mkPromptOptions None None None None None None None None None None None
                  None None None None None None None.

(** One property of [Object.assign(target, source)]. *)
Definition assign_field {A} (target source : option A) : option A :=
  match source with
  | Some _ => source
  | None => target
  end.

(** [Object.assign(target, source)]: the properties of [source] replace
    those of [target]; an undefined [source] changes nothing. *)
Definition Object_assign (target : ArgumentPromptOptions)
    (source : option ArgumentPromptOptions) : ArgumentPromptOptions :=
  match source with
  | None => target
  | Some s =>
      mkPromptOptions
        (assign_field (retries target) (retries s))
        (assign_field (time target) (time s))
        (assign_field (cancelWord target) (cancelWord s))
        (assign_field (stopWord target) (stopWord s))
        (assign_field (optional target) (optional s))
        (assign_field (infinite target) (infinite s))
        (assign_field (limit target) (limit s))
        (assign_field (breakout target) (breakout s))
        (assign_field (start target) (start s))
        (assign_field (retry target) (retry s))
        (assign_field (timeout target) (timeout s))
        (assign_field (ended target) (ended s))
        (assign_field (cancel target) (cancel s))
        (assign_field (modifyStart target) (modifyStart s))
        (assign_field (modifyRetry target) (modifyRetry s))
        (assign_field (modifyTimeout target) (modifyTimeout s))
        (assign_field (modifyEnded target) (modifyEnded s))
        (assign_field (modifyCancel target) (modifyCancel s))
  end.

(** Truthiness of an optional boolean property. *)
Definition flag (b : option bool) : bool := default false b.

(** ** Arguments, commands and handlers *)

(** [ArgumentMatches] of [util/Constants]. *)
Inductive ArgumentMatch :=
| PHRASE | REST | SEPARATE | FLAG | OPTION | TEXT | CONTENT | NONE.

(** [DefaultValueSupplier], or the default value itself. *)
Inductive DefaultValue :=
| DValue (v : value)
| DSupplier (f : Message -> store -> outcome value).

(** What the code reads of the command handler: [handler.resolver],
    [handler.defaultPrompt], [handler.commandUtil], and whether
    [handler.parseCommand(input)] finds a command
    ([looksLike && looksLike.command]). *)
Record CommandHandler := mkHandler {
  h_resolver : TypeResolver;
  h_defaultPrompt : option ArgumentPromptOptions;
  h_commandUtil : bool;
  h_parseCommand : Message -> bool
}.

(** An argument, with [this.command.defaultPrompt] and [this.handler]. *)
Record Argument := mkArgument {
  arg_id : string;
  arg_match : ArgumentMatch;
  arg_type : type;
  arg_prompt : option ArgumentPromptOptions;
  arg_default : DefaultValue;
  command_defaultPrompt : option ArgumentPromptOptions;
  handler : CommandHandler
}.

(** The constructor, for the fields above: a function type is bound to the
    new argument. *)
Definition Argument_new (h : CommandHandler)
    (command_prompt : option ArgumentPromptOptions) (id : string)
    (match_ : ArgumentMatch) (t : type)
    (prompt : option ArgumentPromptOptions) (defaultValue : DefaultValue)
  : Argument :=
  mkArgument id match_ (bind_type t (ThisArgument (h_resolver h)))
             prompt defaultValue command_prompt h.

(** ** State and interaction log *)

Inductive PromptType := Start | RetryPrompt | Timeout | Ended | CancelPrompt.

(** Which object sends a text: [message.util] or [message.channel]. *)
Inductive Via := ViaUtil | ViaChannel.

(** Calls that leave the argument, in the order they are made. *)
Inductive event :=
| Registered (channel author : string)
| Unregistered (channel author : string)
| Resolved (ptype : PromptType) (retryCount : nat) (result : text)
| Sent (via : Via) (what : string) (sent : Message)
| SendFailed (via : Via) (what : string)
| Awaited (time_ : option N) (reply : option Message)
| UtilSetEditable (b : bool)
| UtilSetLastResponse (m : Message)
| UtilAddMessage (m : Message)
| Parsed (input : Message) (looksLike : bool)
| Casted (phrase : string) (res : outcome value).

(** The mutable objects: the handler's prompt registry as a set of
    (channel id, user id), the [args] object with the arrays it points
    to, and the log. *)
Record state := mkState {
  st_prompts : gset (string * string);
  st_store : store;
  st_log : list event
}.

(** What one await of [channel.awaitMessages(filter, { max: 1, time,
    errors: ['time'] })] meets: the messages that arrive in the channel
    before the time is up, or a failure of the call. *)
Inductive arrival :=
| Window (ms : list Message)
| AwaitFailure.

(** The surroundings of one call: whether [message.util] is set, and what
    sending a text does given the log so far, a sent message or a
    failure. *)
Record Transport := mkTransport {
  message_util : bool;
  deliver : list event -> Via -> string -> option Message
}.

(** ** The monad of effectful code: state and exceptions *)

Definition M (A : Type) : Type := state -> outcome A * state.

Definition ret {A} (a : A) : M A := fun st => (Ok a, st).

Definition throw {A} (e : error) : M A := fun st => (Throw e, st).

Definition bindM {A B} (m : M A) (k : A -> M B) : M B :=
  fun st =>
    match m st with
    | (Ok a, st') => k a st'
    | (Throw e, st') => (Throw e, st')
    end.

Notation "'let*' x ':=' m 'in' k" := (bindM m (fun x => k))
  (at level 10, x pattern, m at level 100, k at level 200).

(** The state after more calls are logged. *)
Definition logged (st : state) (evs : list event) : state :=
  mkState (st_prompts st) (st_store st) (st_log st ++ evs).

Definition emit (e : event) : M unit :=
  fun st => (Ok tt, logged st [e]).

Definition get_store : M store := fun st => (Ok (st_store st), st).

Definition when (b : bool) (m : M unit) : M unit :=
  if b then m else ret tt.

(** The state after [v] is pushed on the array at [l]. *)
Definition pushed (l : loc) (v : value) (st : state) : state :=
  let s := st_store st in
  let vs : list value := default [] (s_heap s !! l) in
  mkState (st_prompts st)
          (mkStore (s_args s) (<[ l := (vs ++ [v])%list ]> (s_heap s)))
          (st_log st).

(** ** External collaborators *)

(** Modelled from the spec: the session registry of the command handler
    ([handler.addPrompt] and [handler.removePrompt] are not part of the
    source): register and unregister a (channel, author) pair. *)
Definition addPrompt (channel author : string) : M unit :=
  fun st =>
    (Ok tt, mkState ({[ (channel, author) ]} ∪ st_prompts st) (st_store st)
                    (st_log st ++ [Registered channel author])).

Definition removePrompt (channel author : string) : M unit :=
  fun st =>
    (Ok tt, mkState (st_prompts st ∖ {[ (channel, author) ]}) (st_store st)
                    (st_log st ++ [Unregistered channel author])).

(** [(message.util || message.channel).send(text)] and
    [message.channel.send(text)]: the sent message, or a failure that
    propagates. *)
Definition send (env : Transport) (via : Via) (what : string) : M Message :=
  fun st =>
    match deliver env (st_log st) via what with
    | Some sent => (Ok sent, logged st [Sent via what sent])
    | None => (Throw TransportError, logged st [SendFailed via what])
    end.

(** What [awaitMessages(filter, { max: 1, ... })] resolves to: the first
    arriving message that passes the filter; [None] when it rejects. *)
Definition awaitMessages (filter : Message -> bool) (a : arrival)
  : option Message :=
  match a with
  | Window ms => List.find filter ms
  | AwaitFailure => None
  end.

(** [a.toLowerCase() === word.toLowerCase()] for a word of the prompt
    options, which may be missing. *)
Definition equals_word (a : string) (word : option string) : M bool :=
  match word with
  | Some w => ret (Str.ieq a w)
  | None => throw (TypeError "Cannot read property 'toLowerCase' of undefined")
  end.

(** ** [Argument#cast] *)

Definition Argument_cast (this : Argument) (phrase : string)
    (message : Message) : M value :=
  fun st =>
    let res := cast (arg_type this) (h_resolver (handler this)) (VStr phrase)
                    message (st_store st) in
    (res, logged st [Casted phrase res]).

(** [typeof this.default === 'function' ? this.default(message, args)
    : this.default], awaited. *)
Definition resolve_default (this : Argument) (message : Message) : M value :=
  fun st =>
    match arg_default this with
    | DValue v => (Ok v, st)
    | DSupplier f => (f message (st_store st), st)
    end.

(** ** [Argument#collect] *)

Section Collect.

Variable this : Argument.
Variable env : Transport.
Variable message : Message.
Variable commandInput : string.

Definition promptOptions : ArgumentPromptOptions :=
  Object_assign
    (Object_assign
       (Object_assign no_options (h_defaultPrompt (handler this)))
       (command_defaultPrompt this))
    (Some (default no_options (arg_prompt this))).

Definition isInfinite : bool :=
  flag (infinite promptOptions)
  && match arg_match this with
     | SEPARATE => negb (Str.nonempty commandInput)
     | _ => true
     end.

(** [Number(Boolean(commandInput))] *)
Definition additionalRetry : nat :=
  if Str.nonempty commandInput then 1 else 0.

(** [values]: the accumulation array, or null. *)
Variable values : option loc.

(** [values.length] *)
Definition values_length : M nat :=
  fun st =>
    match values with
    | Some l => (Ok (length (default [] (s_heap (st_store st) !! l))), st)
    | None => (Throw (TypeError "Cannot read property 'length' of null"), st)
    end.

(** [values.push(v)] *)
Definition values_push (v : value) : M unit :=
  fun st =>
    match values with
    | Some l => (Ok tt, pushed l v st)
    | None => (Throw (TypeError "Cannot read property 'push' of null"), st)
    end.

(** [return values] *)
Definition values_ref : value :=
  match values with
  | Some l => VRef l
  | None => VNull
  end.

Definition modifier_of (promptType : PromptType) : option modifier :=
  match promptType with
  | Start => modifyStart promptOptions
  | RetryPrompt => modifyRetry promptOptions
  | Timeout => modifyTimeout promptOptions
  | Ended => modifyEnded promptOptions
  | CancelPrompt => modifyCancel promptOptions
  end.

(** The text [getText] computes in a given store. *)
Definition text_of (promptType : PromptType) (prompter : option content)
    (retryCount : nat) (inputMessage : Message) (inputPhrase : string)
    (args : store) : text :=
  let data := mkData retryCount isInfinite inputMessage inputPhrase in
  let text0 :=
    match prompter with
    | Some (CSupplier f) => f message args data
    | Some (CText t) => t
    | None => TUndefined
    end in
  let text1 := join_text text0 in
  let text2 :=
    match modifier_of promptType with
    | Some modify => modify text1 message args data
    | None => text1
    end in
  join_text text2.

Definition getText (promptType : PromptType) (prompter : option content)
    (retryCount : nat) (inputMessage : Message) (inputPhrase : string)
  : M text :=
  let* args := get_store in
  let result :=
    text_of promptType prompter retryCount inputMessage inputPhrase args in
  let* _ := emit (Resolved promptType retryCount result) in
  ret result.

(** The filter given to [awaitMessages]. *)
Definition collector_filter (sentStart : option Message) (m : Message)
  : bool :=
  if match sentStart with
     | Some s => String.eqb (msg_id m) (msg_id s)
     | None => false
     end
  then false
  else if negb (String.eqb (msg_author m) (msg_author message)) then false
  else true.

(** [promptOne], first part: decide whether to send a prompt, and send
    it. The result is [sentStart]. *)
Definition sendStart (prevMessage : Message) (retryCount : nat)
  : M (option Message) :=
  let* shouldSend :=
    if (retryCount =? 1)%nat then
      if negb isInfinite then ret true
      else let* n := values_length in ret (isInfinite && (n =? 0)%nat)
    else ret true in
  if shouldSend : bool then
    let prevInput :=
      if (retryCount <=? 1 + additionalRetry)%nat then commandInput
      else msg_content prevMessage in
    let promptType := if (retryCount =? 1)%nat then Start else RetryPrompt in
    let prompter :=
      if (retryCount =? 1)%nat then start promptOptions
      else retry promptOptions in
    let* startText :=
      getText promptType prompter retryCount prevMessage prevInput in
    match sendable startText with
    | Some what =>
        let* sentStart :=
          send env (if message_util env then ViaUtil else ViaChannel) what in
        let* _ :=
          when (message_util env)
            (let* _ := emit (UtilSetEditable false) in
             let* _ := emit (UtilSetLastResponse sentStart) in
             emit (UtilAddMessage sentStart)) in
        ret (Some sentStart)
    | None => ret None
    end
  else ret None.

(** The three closing texts ([timeout], [cancel], [ended]) are sent by
    the same lines:
    [const text = getText(...); if (text) { const sent = await
    message.channel.send(text); if (message.util)
    message.util.addMessage(sent); }] *)
Definition sendClosing (promptType : PromptType) (prompter : option content)
    (retryCount : nat) (inputMessage : Message) (inputPhrase : string)
  : M unit :=
  let* closingText :=
    getText promptType prompter retryCount inputMessage inputPhrase in
  match sendable closingText with
  | Some what =>
      let* sent := send env ViaChannel what in
      when (message_util env) (emit (UtilAddMessage sent))
  | None => ret tt
  end.

(** [promptOne], the [catch] branch of the await. *)
Definition timedOut (prevMessage : Message) (retryCount : nat) : M value :=
  let* _ :=
    sendClosing Timeout (timeout promptOptions) retryCount prevMessage "" in
  ret (VFlag Cancel).

(** [promptOne], the cast of the reply and what follows it (from
    [const parsedValue = await this.cast(...)] to the end). [again] is
    [promptOne] itself, for the turns that follow. *)
Definition castReply (again : Message -> nat -> M value) (input : Message)
    (retryCount : nat) : M value :=
  let* parsedValue := Argument_cast this (msg_content input) input in
  if is_nullish parsedValue then
    if le_number retryCount (retries promptOptions) then
      again input (retryCount + 1)
    else
      let* _ :=
        sendClosing Ended (ended promptOptions) retryCount input
                    (msg_content input) in
      ret (VFlag Cancel)
  else if isInfinite then
    let* _ := values_push parsedValue in
    let* n := values_length in
    if lt_number n (limit promptOptions) then again message 1
    else ret values_ref
  else ret parsedValue.

(** [promptOne], the stop word:
    [if (isInfinite && input.content.toLowerCase()
    === promptOptions.stopWord.toLowerCase())]. *)
Definition stopCheck (again : Message -> nat -> M value) (input : Message)
    (retryCount : nat) : M value :=
  let* isStop :=
    if isInfinite then
      equals_word (msg_content input) (stopWord promptOptions)
    else ret false in
  if isStop : bool then
    let* n := values_length in
    if (n =? 0)%nat then again input (retryCount + 1)
    else ret values_ref
  else castReply again input retryCount.

(** [promptOne], the cancel word. *)
Definition cancelCheck (again : Message -> nat -> M value) (input : Message)
    (retryCount : nat) : M value :=
  let* isCancel :=
    equals_word (msg_content input) (cancelWord promptOptions) in
  if isCancel : bool then
    let* _ :=
      sendClosing CancelPrompt (cancel promptOptions) retryCount input "" in
    ret (VFlag Cancel)
  else stopCheck again input retryCount.

(** [promptOne], after the await gave [input]: the breakout check, then
    the checks above in the order of the source. *)
Definition afterReply (again : Message -> nat -> M value) (input : Message)
    (retryCount : nat) : M value :=
  let* looksLike :=
    if flag (breakout promptOptions) then
      let looksLike := h_parseCommand (handler this) input in
      let* _ := emit (Parsed input looksLike) in
      ret looksLike
    else ret false in
  if looksLike : bool then ret (VFlag (Retry input))
  else cancelCheck again input retryCount.

(** [promptOne(prevMessage, retryCount)]. Every call awaits once, so
    the calls follow the list of what the awaits meet; when nothing is
    left to arrive the await times out. *)
Fixpoint promptOne (inbox : list arrival) (prevMessage : Message)
    (retryCount : nat) {struct inbox} : M value :=
  let* sentStart := sendStart prevMessage retryCount in
  match inbox with
  | a :: rest =>
      match awaitMessages (collector_filter sentStart) a with
      | Some input =>
          let* _ := emit (Awaited (time promptOptions) (Some input)) in
          let* _ := when (message_util env) (emit (UtilAddMessage input)) in
          afterReply (promptOne rest) input retryCount
      | None =>
          let* _ := emit (Awaited (time promptOptions) None) in
          timedOut prevMessage retryCount
      end
  | [] =>
      let* _ := emit (Awaited (time promptOptions) None) in
      timedOut prevMessage retryCount
  end.

End Collect.

(** The address of a new array. *)
Definition new_loc (s : store) : loc := fresh (dom (s_heap s)).

(** [const values = isInfinite ? [] : null;
    if (isInfinite) args[this.id] = values;] *)
Definition init_values (this : Argument) (commandInput : string)
  : M (option loc) :=
  fun st =>
    if isInfinite this commandInput then
      let s := st_store st in
      let l := new_loc s in
      (Ok (Some l),
       mkState (st_prompts st)
               (mkStore (<[ arg_id this := VRef l ]> (s_args s))
                        (<[ l := [] ]> (s_heap s)))
               (st_log st))
    else (Ok None, st).

(** [if (this.handler.commandUtil) message.util.setEditable(false);] *)
Definition finish_util (this : Argument) (env : Transport) : M unit :=
  if h_commandUtil (handler this) then
    if message_util env then emit (UtilSetEditable false)
    else throw (TypeError "Cannot read property 'setEditable' of undefined")
  else ret tt.

Definition collect (this : Argument) (env : Transport) (inbox : list arrival)
    (message : Message) (commandInput : string) : M value :=
  let* values := init_values this commandInput in
  let* _ := addPrompt (msg_channel message) (msg_author message) in
  let* returnValue :=
    promptOne this env message commandInput values inbox message
              (1 + additionalRetry commandInput) in
  let* _ := finish_util this env in
  let* _ := removePrompt (msg_channel message) (msg_author message) in
  ret returnValue.

(** ** [Argument#process] *)

(** [(this.prompt && this.prompt.optional)
    || (this.command.defaultPrompt && this.command.defaultPrompt.optional)
    || (this.handler.defaultPrompt && this.handler.defaultPrompt.optional)] *)
Definition isOptional (this : Argument) : bool :=
  match arg_prompt this with Some p => flag (optional p) | None => false end
  || match command_defaultPrompt this with
     | Some p => flag (optional p)
     | None => false
     end
  || match h_defaultPrompt (handler this) with
     | Some p => flag (optional p)
     | None => false
     end.

Definition process (this : Argument) (env : Transport) (inbox : list arrival)
    (phrase : string) (message : Message) : M value :=
  let phrase := Str.trim phrase in
  if negb (Str.nonempty phrase) && isOptional this then
    resolve_default this message
  else
    let* res := Argument_cast this phrase message in
    if is_nullish res then
      match arg_prompt this with
      | Some _ => collect this env inbox message phrase
      | None => resolve_default this message
      end
    else ret res.

(** * [ClientUtil]

    The client utilities of the second source file: the resolvers of
    users, members, channels, roles and emojis, [displayColor] and
    [resolvePermissionNumber]. [createInvite] is not embedded. *)

Module ClientUtil.

(** ** 32-bit integer operators *)

(** [ToInt32] of an integer: its value modulo 2^32, read as a signed
    32-bit integer. *)
Definition ToInt32 (n : Z) : Z :=
  let m := (n mod 2 ^ 32)%Z in
  if (m <? 2 ^ 31)%Z then m else (m - 2 ^ 32)%Z.

(** [a << k] *)
Definition shl (a k : Z) : Z :=
  ToInt32 (Z.shiftl (ToInt32 a) (k mod 32)).

(** [a & b] *)
Definition band (a b : Z) : Z := Z.land (ToInt32 a) (ToInt32 b).

(** ** Permissions *)

(** [PERMISSIONS], in the order of its keys. *)
Definition PERMISSIONS : list (string * Z) :=
  [ ("CREATE_INSTANT_INVITE", shl 1 0);
    ("KICK_MEMBERS", shl 1 1);
    ("BAN_MEMBERS", shl 1 2);
    ("ADMINISTRATOR", shl 1 3);
    ("MANAGE_CHANNELS", shl 1 4);
    ("MANAGE_GUILD", shl 1 5);
    ("ADD_REACTIONS", shl 1 6);
    ("READ_MESSAGES", shl 1 10);
    ("SEND_MESSAGES", shl 1 11);
    ("SEND_TTS_MESSAGES", shl 1 12);
    ("MANAGE_MESSAGES", shl 1 13);
    ("EMBED_LINKS", shl 1 14);
    ("ATTACH_FILES", shl 1 15);
    ("READ_MESSAGE_HISTORY", shl 1 16);
    ("MENTION_EVERYONE", shl 1 17);
    ("EXTERNAL_EMOJIS", shl 1 18);
    ("CONNECT", shl 1 20);
    ("SPEAK", shl 1 21);
    ("MUTE_MEMBERS", shl 1 22);
    ("DEAFEN_MEMBERS", shl 1 23);
    ("MOVE_MEMBERS", shl 1 24);
    ("USE_VAD", shl 1 25);
    ("CHANGE_NICKNAME", shl 1 26);
    ("MANAGE_NICKNAMES", shl 1 27);
    ("MANAGE_ROLES_OR_PERMISSIONS", shl 1 28);
    ("MANAGE_WEBHOOKS", shl 1 29);
    ("MANAGE_EMOJIS", shl 1 30) ].

(** [Object.keys(PERMISSIONS)] *)
Definition PERMISSIONS_keys : list string := map fst PERMISSIONS.

(** [PERMISSIONS[key]], undefined for a key that is not there. *)
Definition PERMISSIONS_at (key : string) : option Z :=
  snd <$> List.find (fun kv => String.eqb (fst kv) key) PERMISSIONS.

(** [resolvePermissionNumber(number)], for a number that is an integer.
    [number & undefined] is 0. *)
Definition resolvePermissionNumber (number : Z) : list string :=
  fold_left
    (fun (resolved : list string) key =>
       if negb (band number (default 0%Z (PERMISSIONS_at key)) =? 0)%Z
       then (resolved ++ [key])%list
       else resolved)
    PERMISSIONS_keys [].

(** The number that has the bits of the listed permissions, and no
    other. *)
Definition permissionNumber (names : list string) : Z :=
  fold_left (fun n name => Z.lor n (default 0%Z (PERMISSIONS_at name)))
            names 0%Z.

(** ** Exceptions and results *)

(** What the code can throw: a ReferenceError, the [Error] of a missing
    guild, and the TypeError of reading a property of null. *)
Inductive exception :=
| ReferenceError (variable : string)
| Error (message : string)
| NoProperty (property : string).

Inductive result (A : Type) :=
| Return (a : A)
| Raise (e : exception).
Arguments Return {A} a.
Arguments Raise {A} e.

Definition rbind {A B} (r : result A) (k : A -> result B) : result B :=
  match r with Return a => k a | Raise e => Raise e end.

Definition rmap {A B} (f : A -> B) (r : result A) : result B :=
  rbind r (fun a => Return (f a)).

(** ** Collections *)

(** A discord.js [Collection]: a map from ids to values that keeps the
    order of insertion. *)
Definition Collection (A : Type) : Type := list (string * A).

(** [collection.get(key)] *)
Definition Collection_get {A} (c : Collection A) (key : string) : option A :=
  snd <$> List.find (fun kv => String.eqb (fst kv) key) c.

(** [collection.find(fn)]: the first value for which [fn] is true; an
    exception of [fn] ends the search. *)
Fixpoint Collection_find {A} (fn : A -> result bool) (c : Collection A)
  : result (option A) :=
  match c with
  | [] => Return None
  | (_, val) :: rest =>
      rbind (fn val) (fun found =>
        if found : bool then Return (Some val) else Collection_find fn rest)
  end.

(** [collection.filter(fn)], [collection.map(fn)] and
    [collection.size]. *)
Definition Collection_filter {A} (fn : A -> bool) (c : Collection A)
  : Collection A :=
  List.filter (fun kv => fn (snd kv)) c.

Definition Collection_map {A B} (fn : A -> B) (c : Collection A) : list B :=
  map (fun kv => fn (snd kv)) c.

Definition Collection_size {A} (c : Collection A) : nat := length c.

(** ** Users, members and guilds *)

Record User := mkUser {
  user_id : string;
  username : string;
  discriminator : string
}.

Record Role := mkRole {
  role_id : string;
  role_name : string;
  role_color : Z;
  role_position : Z
}.

Record GuildMember := mkMember {
  member_user : User;
  displayName : string;
  member_roles : Collection Role
}.

Record GuildChannel := mkChannel {
  channel_id : string;
  channel_name : string
}.

Record Emoji := mkEmoji {
  emoji_id : string;
  emoji_name : string
}.

Record Guild := mkGuild {
  guild_members : Collection GuildMember;
  guild_channels : Collection GuildChannel;
  guild_roles : Collection Role;
  guild_emojis : Collection Emoji
}.

(** ** The regular expressions of the resolvers *)

(** What these expressions are made of: a character, an optional
    character, one or more characters of a class, and the group
    [(\d+)]. *)
Inductive atom :=
| Chr (c : ascii)
| Opt (c : ascii)
| Plus (class : ascii -> bool)
| Digits.

(** [\d] *)
Definition is_digit (c : ascii) : bool :=
  (48 <=? nat_of_ascii c)%nat && (nat_of_ascii c <=? 57)%nat.

(** [[a-zA-Z0-9_]] *)
Definition is_word (c : ascii) : bool :=
  let n := nat_of_ascii c in
  ((97 <=? n)%nat && (n <=? 122)%nat)
  || ((65 <=? n)%nat && (n <=? 90)%nat)
  || is_digit c
  || (n =? 95)%nat.

(** One or more characters of a class and then the rest of the
    expression, [next]: as many characters as possible are taken first,
    and one less each time the rest does not match. *)
Fixpoint plus_then (class : ascii -> bool) (next : string -> option string)
    (s : string) : option string :=
  match s with
  | String c s' =>
      if class c then
        match plus_then class next s' with
        | Some found => Some found
        | None => next s'
        end
      else None
  | EmptyString => None
  end.

(** The same for the group [(\d+)]: [got] is what the group has taken,
    and the rest of the expression is given what it captured. *)
Fixpoint digits_then (next : string -> string -> option string)
    (s got : string) : option string :=
  match s with
  | String c s' =>
      if is_digit c then
        match digits_then next s' (got ++ String c EmptyString) with
        | Some found => Some found
        | None => next s' (got ++ String c EmptyString)
        end
      else None
  | EmptyString => None
  end.

(** A match of the expression at the start of [s], by backtracking with
    greedy quantifiers: the result is what the group captured. *)
Fixpoint match_here (re : list atom) (s : string) (group : string)
  : option string :=
  match re with
  | [] => Some group
  | Chr c :: re' =>
      match s with
      | String c' s' =>
          if Ascii.eqb c c' then match_here re' s' group else None
      | EmptyString => None
      end
  | Opt c :: re' =>
      match
        match s with
        | String c' s' =>
            if Ascii.eqb c c' then match_here re' s' group else None
        | EmptyString => None
        end
      with
      | Some found => Some found
      | None => match_here re' s group
      end
  | Plus class :: re' =>
      plus_then class (fun s' => match_here re' s' group) s
  | Digits :: re' =>
      digits_then (fun s' got => match_here re' s' got) s EmptyString
  end.

(** [text.match(reg)[1]] when [reg.test(text)], for an expression without
    the global flag: the group of the leftmost match. *)
Fixpoint exec (re : list atom) (s : string) : option string :=
  match match_here re s EmptyString with
  | Some found => Some found
  | None =>
      match s with
      | String _ s' => exec re s'
      | EmptyString => None
      end
  end.

(** [/<@!?(\d+)>/], [/<#(\d+)>/], [/<@&(\d+)>/] and
    [/<:[a-zA-Z0-9_]+:(\d+)>/] *)
Definition user_mention : list atom :=
  [Chr "<"; Chr "@"; Opt "!"; Digits; Chr ">"].

Definition channel_mention : list atom :=
  [Chr "<"; Chr "#"; Digits; Chr ">"].

Definition role_mention : list atom :=
  [Chr "<"; Chr "@"; Chr "&"; Digits; Chr ">"].

Definition emoji_mention : list atom :=
  [Chr "<"; Chr ":"; Plus is_word; Chr ":"; Digits; Chr ">"].

(** A string of digits, and a string in which a character does not
    occur. *)
Fixpoint all_digits (s : string) : bool :=
  match s with
  | EmptyString => true
  | String c r => is_digit c && all_digits r
  end.

Fixpoint free_of (c : ascii) (s : string) : bool :=
  match s with
  | EmptyString => true
  | String c' r => negb (Ascii.eqb c c') && free_of c r
  end.

(** ** String methods of the checks *)

(** [text.split('#')]: the first piece, and the pieces after it. *)
Fixpoint split_hash (s : string) : string * list string :=
  match s with
  | EmptyString => (EmptyString, [])
  | String c r =>
      let '(first, others) := split_hash r in
      if Ascii.eqb c "#" then (EmptyString, first :: others)
      else (String c first, others)
  end.

(** [text.replace(/^#/, '')] and [text.replace(/^@/, '')] *)
Definition drop_leading (c : ascii) (s : string) : string :=
  match s with
  | String c' r => if Ascii.eqb c c' then r else s
  | EmptyString => s
  end.

(** [text.replace(/:/g, '')] *)
Fixpoint drop_colons (s : string) : string :=
  match s with
  | EmptyString => EmptyString
  | String c r => if Ascii.eqb c ":" then drop_colons r
                  else String c (drop_colons r)
  end.

(** ** The resolvers *)

(** Reading a [let] variable: one that is declared and not yet
    initialised cannot be read. *)
Definition read (variable : string) (binding : option string)
  : result string :=
  match binding with
  | Some v => Return v
  | None => Raise (ReferenceError variable)
  end.

(** [let text = caseSensitive ? text : text.toLowerCase();] inside a
    check. The statement declares a [text] of its own in the body of the
    arrow function, so the [text] that its initialiser reads is that
    variable, before it is initialised, and not the parameter of the
    resolver. *)
Definition declare_text (caseSensitive : bool) : result string :=
  let text : option string := None in
  if caseSensitive then read "text" text
  else rmap Str.toLowerCase (read "text" text).

(** [resolveUser(text, caseSensitive = false)], given [client.users]. *)
Definition resolveUser (users : Collection User) (text : string)
    (caseSensitive : option bool) : result (option User) :=
  let caseSensitive := default false caseSensitive in
  match exec user_mention text with
  | Some id => Return (Collection_get users id)
  | None =>
      let check (u : User) : result bool :=
        let username :=
          if caseSensitive then username u
          else Str.toLowerCase (username u) in
        rbind (declare_text caseSensitive) (fun text =>
          Return (String.eqb username text
                  || (String.eqb username (fst (split_hash text))
                      && match snd (split_hash text) with
                         | second :: _ => String.eqb (discriminator u) second
                         | [] => false
                         end))) in
      match Collection_get users text with
      | Some u => Return (Some u)
      | None => Collection_find check users
      end
  end.

(** [resolveMember(text, guild, caseSensitive = false)] *)
Definition resolveMember (users : Collection User) (text : string)
    (guild : option Guild) (caseSensitive : option bool)
  : result (option (User + GuildMember)) :=
  match guild with
  | None => rmap (fmap inl) (resolveUser users text None)
  | Some guild =>
      let caseSensitive := default false caseSensitive in
      let members := guild_members guild in
      match exec user_mention text with
      | Some id => Return (inr <$> Collection_get members id)
      | None =>
          let check (m : GuildMember) : result bool :=
            let username :=
              if caseSensitive then username (member_user m)
              else Str.toLowerCase (username (member_user m)) in
            let displayName :=
              if caseSensitive then displayName m
              else Str.toLowerCase (displayName m) in
            rbind (declare_text caseSensitive) (fun text =>
              Return (String.eqb displayName text
                      || String.eqb username text
                      || (String.eqb username (fst (split_hash text))
                          && match snd (split_hash text) with
                             | second :: _ =>
                                 String.eqb (discriminator (member_user m))
                                            second
                             | [] => false
                             end))) in
          match Collection_get members text with
          | Some m => Return (Some (inr m))
          | None => rmap (fmap inr) (Collection_find check members)
          end
      end
  end.

(** [resolveChannel(text, guild, caseSensitive = false)] *)
Definition resolveChannel (text : string) (guild : option Guild)
    (caseSensitive : option bool) : result (option GuildChannel) :=
  match guild with
  | None => Raise (Error "Guild must be specified.")
  | Some guild =>
      let caseSensitive := default false caseSensitive in
      let channels := guild_channels guild in
      match exec channel_mention text with
      | Some id => Return (Collection_get channels id)
      | None =>
          let check (c : GuildChannel) : result bool :=
            let name :=
              if caseSensitive then channel_name c
              else Str.toLowerCase (channel_name c) in
            rbind (declare_text caseSensitive) (fun text =>
              Return (String.eqb name text
                      || String.eqb name (drop_leading "#" text))) in
          match Collection_get channels text with
          | Some c => Return (Some c)
          | None => Collection_find check channels
          end
      end
  end.

(** [resolveRole(text, guild, caseSensitive = false)] *)
Definition resolveRole (text : string) (guild : option Guild)
    (caseSensitive : option bool) : result (option Role) :=
  match guild with
  | None => Raise (Error "Guild must be specified.")
  | Some guild =>
      let caseSensitive := default false caseSensitive in
      let roles := guild_roles guild in
      match exec role_mention text with
      | Some id => Return (Collection_get roles id)
      | None =>
          let check (r : Role) : result bool :=
            let name :=
              if caseSensitive then role_name r
              else Str.toLowerCase (role_name r) in
            rbind (declare_text caseSensitive) (fun text =>
              Return (String.eqb name text
                      || String.eqb name (drop_leading "@" text))) in
          match Collection_get roles text with
          | Some r => Return (Some r)
          | None => Collection_find check roles
          end
      end
  end.

(** [resolveEmoji(text, guild, caseSensitive = false)] *)
Definition resolveEmoji (text : string) (guild : option Guild)
    (caseSensitive : option bool) : result (option Emoji) :=
  match guild with
  | None => Raise (Error "Guild must be specified.")
  | Some guild =>
      let caseSensitive := default false caseSensitive in
      let emojis := guild_emojis guild in
      match exec emoji_mention text with
      | Some id => Return (Collection_get emojis id)
      | None =>
          let check (e : Emoji) : result bool :=
            let name :=
              if caseSensitive then emoji_name e
              else Str.toLowerCase (emoji_name e) in
            rbind (declare_text caseSensitive) (fun text =>
              Return (String.eqb name text
                      || String.eqb name (drop_colons text))) in
          match Collection_get emojis text with
          | Some e => Return (Some e)
          | None => Collection_find check emojis
          end
      end
  end.

(** ** [displayColor] *)

(** [Math.max(...xs)]; [None] is the [-Infinity] of no argument. *)
Definition Math_max (xs : list Z) : option Z :=
  fold_left (fun highest x =>
               match highest with
               | Some h => Some (Z.max h x)
               | None => Some x
               end) xs None.

(** [displayColor(member)], given [member.roles]. *)
Definition displayColor (member_roles : Collection Role) : result Z :=
  let roles :=
    Collection_filter (fun r => negb (role_color r =? 0)%Z) member_roles in
  if (Collection_size roles =? 0)%nat then Return 0%Z
  else
    let highest := Math_max (Collection_map role_position roles) in
    match
      Collection_find
        (fun r => Return match highest with
                         | Some h => (role_position r =? h)%Z
                         | None => false
                         end) roles
    with
    | Return (Some r) => Return (role_color r)
    | Return None => Raise (NoProperty "color")
    | Raise e => Raise e
    end.

End ClientUtil.

(** ** Observations on the log *)

Definition is_cast (e : event) : bool :=
  match e with Casted _ _ => true | _ => false end.

(** The number of calls of [Argument#cast] in a log. *)
Definition cast_attempts (evs : list event) : nat :=
  length (List.filter is_cast evs).

(** The values that the casts of a log produced, misses left out. *)
Fixpoint accepted (evs : list event) : list value :=
  match evs with
  | [] => []
  | Casted _ (Ok v) :: rest =>
      if is_nullish v then accepted rest else v :: accepted rest
  | _ :: rest => accepted rest
  end.

(** The values of [retryCount] at which the prompt texts of a log were
    resolved, turn after turn. *)
Definition prompt_count (e : event) : option nat :=
  match e with
  | Resolved Start rc _ | Resolved RetryPrompt rc _ => Some rc
  | _ => None
  end.

Definition prompt_counts (evs : list event) : list nat :=
  omap prompt_count evs.

Definition is_start (e : event) : bool :=
  match e with Resolved Start _ _ => true | _ => false end.

(** Log entries that are neither a cast nor the resolution of the start
    text. *)
Definition no_cast (evs : list event) : Prop :=
  Forall (fun e => is_cast e = false) evs.

Definition no_start (evs : list event) : Prop :=
  Forall (fun e => is_start e = false) evs.

Definition is_flag (v : value) : bool :=
  match v with VFlag _ => true | _ => false end.

(** The reply is taken for a command: [breakout] is set and
    [parseCommand] finds one. *)
Definition looks_like_command (this : Argument) (input : Message) : bool :=
  flag (breakout (promptOptions this)) && h_parseCommand (handler this) input.

(** The log entry of the breakout check, made only when [breakout] is
    set. *)
Definition breakout_events (this : Argument) (input : Message) : list event :=
  if flag (breakout (promptOptions this))
  then [Parsed input (h_parseCommand (handler this) input)]
  else [].

(** How one turn of [promptOne] ends, given the entries [evs] it adds to
    the log: with an exception, a flag, the accumulated array (stop word,
    or limit reached after a push), the value of a prompt that is not
    infinite, or with the next turn. *)
Inductive turn (this : Argument) (env : Transport) (message : Message)
    (commandInput : string) (values : option loc) (inbox : list arrival)
    (retryCount : nat) (st : state) (evs : list event)
  : outcome value -> state -> Prop :=
| turn_throw e :
    accepted evs = [] ->
    turn this env message commandInput values inbox retryCount st evs
         (Throw e) (logged st evs)
| turn_flag f :
    accepted evs = [] ->
    turn this env message commandInput values inbox retryCount st evs
         (Ok (VFlag f)) (logged st evs)
| turn_stop l :
    isInfinite this commandInput = true -> values = Some l ->
    default [] (s_heap (st_store st) !! l) <> [] ->
    accepted evs = [] ->
    turn this env message commandInput values inbox retryCount st evs
         (Ok (VRef l)) (logged st evs)
| turn_value v :
    isInfinite this commandInput = false -> is_nullish v = false ->
    accepted evs = [v] ->
    turn this env message commandInput values inbox retryCount st evs
         (Ok v) (logged st evs)
| turn_no_array e :
    isInfinite this commandInput = true -> values = None ->
    turn this env message commandInput values inbox retryCount st evs
         (Throw e) (logged st evs)
| turn_limit l v :
    isInfinite this commandInput = true -> values = Some l ->
    accepted evs = [v] ->
    turn this env message commandInput values inbox retryCount st evs
         (Ok (VRef l)) (pushed l v (logged st evs))
| turn_again a rest input o st' :
    inbox = a :: rest -> accepted evs = [] ->
    promptOne this env message commandInput values rest input
              (retryCount + 1) (logged st evs) = (o, st') ->
    turn this env message commandInput values inbox retryCount st evs o st'
| turn_more a rest l v o st' :
    isInfinite this commandInput = true -> inbox = a :: rest ->
    values = Some l -> accepted evs = [v] ->
    promptOne this env message commandInput values rest message 1
              (pushed l v (logged st evs)) = (o, st') ->
    turn this env message commandInput values inbox retryCount st evs o st'.

(** [values] of a call of [collect] that starts in [st]. *)
Definition session_values (this : Argument) (commandInput : string)
    (st : state) : option loc :=
  if isInfinite this commandInput then Some (new_loc (st_store st)) else None.

(** The state in which [collect] makes the first call of [promptOne]: the
    array is allocated and stored in [args] (infinite mode only), and the
    prompt is registered. *)
Definition entered (this : Argument) (message : Message)
    (commandInput : string) (st : state) : state :=
  let s := st_store st in
  mkState ({[ (msg_channel message, msg_author message) ]} ∪ st_prompts st)
          (if isInfinite this commandInput
           then mkStore (<[ arg_id this := VRef (new_loc s) ]> (s_args s))
                        (<[ new_loc s := [] ]> (s_heap s))
           else s)
          (st_log st ++ [Registered (msg_channel message) (msg_author message)]).

(** The state in which [collect] returns, given the one in which
    [promptOne] returned. *)
Definition released (this : Argument) (message : Message) (st : state)
  : state :=
  mkState (st_prompts st ∖ {[ (msg_channel message, msg_author message) ]})
          (st_store st)
          (st_log st
           ++ (if h_commandUtil (handler this) then [UtilSetEditable false]
               else [])
           ++ [Unregistered (msg_channel message) (msg_author message)]).

(** What [collect] returns, given what its call of [promptOne] gave: the
    lines of [collect] after [await promptOne(...)]. *)
Definition returns (this : Argument) (env : Transport) (message : Message)
    (r : outcome value * state) : outcome value * state :=
  match r with
  | (Ok returnValue, st1) =>
      if h_commandUtil (handler this) && negb (message_util env)
      then (Throw (TypeError "Cannot read property 'setEditable' of undefined"),
            st1)
      else (Ok returnValue, released this message st1)
  | (Throw e, st1) => (Throw e, st1)
  end.

(** The session that [collect] starts in [st0] with [inbox0] to arrive
    comes to the call [promptOne(prev, rc)] in state [st] with [inbox]
    left to arrive: the first call of [promptOne] is such a call, and a
    call that returns what its recursive call returns passes on to it. *)
Definition comes_to (this : Argument) (env : Transport) (message : Message)
    (commandInput : string) (inbox0 : list arrival) (st0 : state)
    (inbox : list arrival) (prev : Message) (rc : nat) (st : state) : Prop :=
  promptOne this env message commandInput
            (session_values this commandInput st0) inbox0 message
            (1 + additionalRetry commandInput)
            (entered this message commandInput st0)
  = promptOne this env message commandInput
              (session_values this commandInput st0) inbox prev rc st.

(** A reply that is no command, is not the cancel word [cw] and misses
    the cast, given the arguments so far. *)
Definition misses_cast (this : Argument) (cw : string) (s : store)
    (m : Message) : Prop :=
  looks_like_command this m = false
  /\ Str.ieq (msg_content m) cw = false
  /\ cast (arg_type this) (h_resolver (handler this)) (VStr (msg_content m))
          m s = Ok VNull.

(** The log entries of [message.util], made only when it is set. *)
Definition util_events (env : Transport) (evs : list event) : list event :=
  if message_util env then evs else [].

(** The await of a turn resolves with [reply] whatever prompt the
    transport delivered just before it, and also when none was sent. *)
Definition replies_with (env : Transport) (message : Message) (a : arrival)
    (reply : Message) : Prop :=
  awaitMessages (collector_filter message None) a = Some reply
  /\ forall log via what sent,
       deliver env log via what = Some sent ->
       awaitMessages (collector_filter message (Some sent)) a = Some reply.

(** An entry of an array type matches a phrase: the entry, or one of its
    aliases, is the phrase up to case. *)
Definition entry_matches (phrase : string) (e : entry) : bool :=
  match e with
  | EStr t => Str.ieq t phrase
  | EAliases ts => existsb (fun t => Str.ieq t phrase) ts
  end.

(** A type made by one of the combinators that read [this.handler] as
    soon as they are called. *)
Inductive reads_this : jsfun -> Prop :=
| reads_union t types : reads_this (union (t :: types))
| reads_tuple t types : reads_this (tuple (t :: types))
| reads_validate t predicate : reads_this (validate t predicate)
| reads_compose type1 type2 ignoreVoid :
    reads_this (compose type1 type2 ignoreVoid)
| reads_range coerce t min max inclusive :
    reads_this (range coerce t min max inclusive).

(** The cast of an entry gives a value / misses. *)
Definition entry_hits (r : TypeResolver) (phrase : value) (message : Message)
    (args : store) (t : type) (v : value) : Prop :=
  cast t r phrase message args = Ok v /\ is_nullish v = false.

Definition entry_misses (r : TypeResolver) (phrase : value) (message : Message)
    (args : store) (t : type) : Prop :=
  cast t r phrase message args = Ok VNull.

(** The value of one prompt option after the three layers are merged:
    the argument's own prompt first, then the command's default prompt,
    then the handler's. *)
Definition layered {A} (field : ArgumentPromptOptions -> option A)
    (this : Argument) : option A :=
  match arg_prompt this ≫= field with
  | Some x => Some x
  | None =>
      match command_defaultPrompt this ≫= field with
      | Some x => Some x
      | None => h_defaultPrompt (handler this) ≫= field
      end
  end.

(** A message that the collector's filter lets through. *)
Definition passes_filter (message : Message) (sentStart : option Message)
    (m : Message) : Prop :=
  msg_author m = msg_author message
  /\ forall s, sentStart = Some s -> msg_id m <> msg_id s.

(** What the table of permissions is checked for: every key is found at
    its own entry, and every value is a single bit below bit 31, the bit
    of no other key. *)
Definition entry_ok (kv : string * Z) : bool :=
  let k := Z.log2 (snd kv) in
  match ClientUtil.PERMISSIONS_at (fst kv) with
  | Some bit => (bit =? snd kv)%Z
  | None => false
  end
  && (snd kv =? 2 ^ k)%Z && (ClientUtil.ToInt32 (snd kv) =? snd kv)%Z
  && (0 <=? k)%Z && (k <? 31)%Z
  && forallb (fun kv' => Bool.eqb (Z.testbit (snd kv') k)
                                  (String.eqb (fst kv) (fst kv')))
             ClientUtil.PERMISSIONS.

(** What a resolver gives when only ids resolve: the value at the id of
    the mention that the text holds; without a mention, the value at the
    text taken as an id; and when there is none, nothing for an empty
    collection and otherwise the ReferenceError of the check. *)
Definition resolved_by_id {A} (mention : list ClientUtil.atom)
    (collection : ClientUtil.Collection A) (text : string)
  : ClientUtil.result (option A) :=
  match ClientUtil.exec mention text with
  | Some id => ClientUtil.Return (ClientUtil.Collection_get collection id)
  | None =>
      match ClientUtil.Collection_get collection text, collection with
      | Some x, _ => ClientUtil.Return (Some x)
      | None, [] => ClientUtil.Return None
      | None, _ :: _ => ClientUtil.Raise (ClientUtil.ReferenceError "text")
      end
  end.

(** A reply that is no command, is not the cancel word [cw] and casts to
    the value [v], given the arguments so far. *)
Definition hits_cast (this : Argument) (cw : string) (s : store)
    (m : Message) (v : value) : Prop :=
  looks_like_command this m = false
  /\ Str.ieq (msg_content m) cw = false
  /\ cast (arg_type this) (h_resolver (handler this)) (VStr (msg_content m))
          m s = Ok v
  /\ is_nullish v = false.

(** ** A handler, an argument and a channel to run the code on *)

Module Fixture.

Fixpoint digits (s : string) (acc : Z) : option Z :=
  match s with
  | EmptyString => Some acc
  | String c r =>
      let n := nat_of_ascii c in
      if (48 <=? n)%nat && (n <=? 57)%nat
      then digits r (10 * acc + Z.of_nat (n - 48))%Z
      else None
  end.

(** A caster like the resolver's [integer]: digits to a number. *)
Definition integer : builtin :=
  fun phrase _ _ =>
    match phrase with
    | VStr (String _ _ as s) =>
        match digits s 0 with
        | Some z => Ok (VNum z)
        | None => Ok VNull
        end
    | _ => Ok VNull
    end.

Definition resolver : TypeResolver :=
  fun name => if String.eqb name "integer" then Some integer else None.

(** The default prompt options of a handler. *)
Definition defaults : ArgumentPromptOptions :=
  mkPromptOptions
    (Some (Finite 1)) (Some 30000%N) (Some "cancel") (Some "stop")
    (Some false) (Some false) (Some Infinity) (Some true)
    (Some (CText (TString "start?"))) (Some (CText (TString "retry?")))
    (Some (CText (TString "timeout!"))) (Some (CText (TString "ended!")))
    (Some (CText (TString "cancelled!")))
    None None None None None.

(** A text is a command when it starts with the prefix [!]. *)
Definition h : CommandHandler :=
  mkHandler resolver (Some defaults) false
            (fun m => String.prefix "!" (msg_content m)).

Definition with_retries (r : nat) : ArgumentPromptOptions :=
  mkPromptOptions (Some (Finite r)) None None None None None None None None
                  None None None None None None None None None.

Definition infinite_up_to (n : nat) : ArgumentPromptOptions :=
  mkPromptOptions None None None None None (Some true) (Some (Finite n))
                  None None None None None None None None None None None.

Definition optional_prompt : ArgumentPromptOptions :=
  mkPromptOptions None None None None (Some true) None None None None
                  None None None None None None None None None.

Definition number_arg (prompt : ArgumentPromptOptions) : Argument :=
  Argument_new h None "n" PHRASE (TName "integer") (Some prompt)
               (DValue (VNum 0)).

(** A transport that delivers every text. *)
Definition channel : Transport :=
  mkTransport false
    (fun _ _ what => Some (mkMessage ("bot-" +:+ what) "c" "bot" what)).

(** A transport that fails on every text. *)
Definition broken : Transport := mkTransport false (fun _ _ _ => None).

Definition message : Message := mkMessage "m0" "c" "u" "!pick".

Definition reply (id what : string) : arrival :=
  Window [mkMessage id "c" "u" what].

Definition st0 : state := mkState ∅ (mkStore ∅ ∅) [].

(** [Argument.validate('integer', n => n > 0)] *)
Definition positive_integer : jsfun :=
  validate (TName "integer")
    (fun _ res _ _ _ =>
       match res with VNum n => (0 <? n)%Z | _ => false end).

(** An argument of type
    [Argument.union(Argument.validate('integer', n => n > 0), 'string')]. *)
Definition union_arg : Argument :=
  Argument_new h None "n" PHRASE
    (TFunction (union [TFunction positive_integer; TName "string"]))
    None (DValue VNull).


(** A phrase that is not a number, then the reply [7] to the prompt. *)
Definition seeded_run : outcome value * state :=
  process (number_arg (with_retries 1)) channel [reply "r1" "7"] "abc" message
          st0.

(** The replies [1], [2], [stop] to an infinite prompt of limit 3. *)
Definition stopped_run : outcome value * state :=
  collect (number_arg (infinite_up_to 3)) channel
          [reply "r1" "1"; reply "r2" "2"; reply "r3" "stop"] message "" st0.

(** The replies [1], [2], [3] to an infinite prompt of limit 3. *)
Definition limit_run : outcome value * state :=
  collect (number_arg (infinite_up_to 3)) channel
          [reply "r1" "1"; reply "r2" "2"; reply "r3" "3"; reply "r4" "4"]
          message "" st0.

(** A prompt whose cancel word looks like a command. *)
Definition quit_prompt : ArgumentPromptOptions :=
  mkPromptOptions None None (Some "!quit") None None None None None None
                  None None None None None None None None None.




(** An argument of type [integer] without prompt. *)
Definition plain_arg : Argument :=
  Argument_new h None "n" PHRASE (TName "integer") None (DValue (VNum 0)).

(** An argument of type [Argument.union('integer', ['yes', 'no'])]. *)
Definition plain_union_arg : Argument :=
  Argument_new h None "n" PHRASE
    (TFunction (union [TName "integer"; TArray [EStr "yes"; EStr "no"]]))
    None (DValue VNull).

(** A handler with no default prompt: the options of a prompt are those
    of the argument alone. *)
Definition bare : CommandHandler :=
  mkHandler resolver None false (fun m => String.prefix "!" (msg_content m)).

Definition bare_arg (prompt : ArgumentPromptOptions) : Argument :=
  Argument_new bare None "n" PHRASE (TName "integer") (Some prompt)
               (DValue (VNum 0)).

(** An infinite prompt with its two words and no limit. *)
Definition unlimited : ArgumentPromptOptions :=
  mkPromptOptions None None (Some "cancel") (Some "stop") None (Some true)
                  None None None None None None None None None None None None.

(** The first place of an [a] in a string. *)
Fixpoint index_of_a (s : string) : option nat :=
  match s with
  | EmptyString => None
  | String c rest =>
      if Ascii.eqb c "a" then Some 0%nat else option_map S (index_of_a rest)
  end.

(** The number of [a]s that a string starts with. *)
Fixpoint run_of_a (s : string) : nat :=
  match s with
  | EmptyString => 0
  | String c rest => if Ascii.eqb c "a" then S (run_of_a rest) else 0
  end.

(** [phrase.slice(lastIndex)] *)
Definition slice (s : string) (lastIndex : nat) : string :=
  String.substring lastIndex (String.length s - lastIndex) s.

(** [/a/g]: every match is one [a], and [exec] leaves [lastIndex] after
    it. *)
Definition a_global : RegExp :=
  mkRegExp true
    (fun s => match index_of_a s with
              | Some _ => Some (VObj "all matches")
              | None => None
              end)
    (fun s lastIndex =>
       match index_of_a (slice s lastIndex) with
       | Some i => Some (VStr "a", S i)
       | None => None
       end).

(** [/a*/g]: a match at every place, the empty string where no [a]
    stands. *)
Definition a_star_global : RegExp :=
  mkRegExp true
    (fun s => Some (VObj "all matches"))
    (fun s lastIndex =>
       let n := run_of_a (slice s lastIndex) in
       Some (VStr (String.substring lastIndex n s), n)).

End Fixture.

(** * Properties of [Argument.cast] and the combinators *)

Section CastFacts.

Variable resolver : TypeResolver.
Variable message : Message.
Variable args : store.



Lemma non_void_defined res : non_void res <> VUndefined.
Proof. destruct res; discriminate. Qed.

(** A value that [cast] returns is never undefined: a miss is null. *)
Lemma cast_not_undefined t phrase v :
  cast t resolver phrase message args = Ok v -> v <> VUndefined.
Proof.
  destruct t as [entries | f | r | name]; simpl.
  - revert v. induction entries as [|e entries IH]; simpl; intros v H.
    + injection H as <-. discriminate.
    + destruct e as [t | ts]; simpl in H.
      * destruct (phrase_toLowerCase phrase) as [p|]; simpl in H; [|discriminate].
        destruct (String.eqb (Str.toLowerCase t) p); [|now apply IH].
        injection H as <-. discriminate.
      * destruct (some_alias ts phrase) as [b|] eqn:Hs; simpl in H; [|discriminate].
        destruct b; [|now apply IH].
        destruct ts as [|t ts]; [discriminate Hs|].
        injection H as <-. discriminate.
  - destruct (call f phrase message args); simpl; [|discriminate].
    intros [= <-]. apply non_void_defined.
  - destruct phrase; try discriminate.
    destruct (re_match r s); [| intros [= <-]; discriminate].
    destruct (re_global r); [| intros [= <-]; discriminate].
    destruct (exec_all r s); [| discriminate].
    intros [= <-]. discriminate.
  - destruct (resolver name) as [c|].
    + destruct (c phrase message args); simpl; [|discriminate].
      intros [= <-]. apply non_void_defined.
    + destruct (truthy phrase) eqn:Ht; intros [= <-]; [|discriminate].
      intros ->. discriminate Ht.
Qed.

Lemma nullish_cast_is_null t phrase v :
  cast t resolver phrase message args = Ok v -> is_nullish v = true -> v = VNull.
Proof.
  intros H Hn. apply cast_not_undefined in H.
  destruct v; try discriminate; congruence.
Qed.

(** More calls of [exec] than the loop needs change nothing. *)
Lemma exec_loop_more_fuel r s fuel fuel' lastIndex matches result :
  exec_loop r s fuel lastIndex matches = Some result ->
  (fuel <= fuel')%nat ->
  exec_loop r s fuel' lastIndex matches = Some result.
Proof.
  revert fuel' lastIndex matches.
  induction fuel as [| fuel IH]; intros fuel' lastIndex matches;
    [discriminate |].
  intros Hrun Hle. destruct fuel' as [| fuel']; [lia |].
  simpl in *. destruct (exec r s lastIndex) as [[matched next] |];
    [| exact Hrun].
  apply IH; [exact Hrun | lia].
Qed.

(** A call of [exec] that leaves [lastIndex] where it was is repeated for
    ever. *)
Lemma exec_loop_stuck r s lastIndex matched :
  exec r s lastIndex = Some (matched, lastIndex) ->
  forall fuel matches, exec_loop r s fuel lastIndex matches = None.
Proof.
  intros Hexec fuel. induction fuel as [| fuel IH]; intros matches;
    [reflexivity |].
  simpl. rewrite Hexec. apply IH.
Qed.


(** [exec_all] decides whether the loop ends: its array is the one the
    loop gives with enough calls, and where it has none the loop never
    ends. *)
Lemma exec_all_some_is_result r s matches :
  exec_all r s = Some matches ->
  forall fuel, (String.length s + 2 <= fuel)%nat ->
    exec_loop r s fuel 0 [] = Some matches.
Proof.
  intros Hall fuel Hfuel. now apply (exec_loop_more_fuel r s _ fuel 0 []) in Hall.
Qed.




(** The loop of [union] under a receiver that has a resolver: the first
    entry that does not miss decides, whatever follows it. *)
Lemma union_first_hit r before t after phrase v :
  Forall (fun t' => cast t' r phrase message args = Ok VNull) before ->
  cast t r phrase message args = Ok v ->
  is_nullish v = false ->
  union_loop (before ++ t :: after) (ThisArgument r) phrase message args
  = Ok v.
Proof.
  intros Hb Ht Hv. induction Hb as [| t' before Ht' _ IH]; simpl.
  - rewrite Ht. simpl. now rewrite Hv.
  - rewrite Ht'. simpl. exact IH.
Qed.

Lemma union_all_miss r types phrase :
  Forall (fun t' => cast t' r phrase message args = Ok VNull) types ->
  union_loop types (ThisArgument r) phrase message args = Ok VNull.
Proof.
  induction 1 as [| t' types Ht' _ IH]; simpl; [reflexivity |].
  rewrite Ht'. simpl. exact IH.
Qed.

End CastFacts.


(** The [exec] loop on [/a/g] and on [/a*/g]: the first ends with the three
    matches of the phrase [banana]; the second finds the empty string at
    index 0, where no [a] stands, and finds it again for ever: the cast
    never returns. *)
Example exec_loop_of_two_global_regexps :
  cast (TRegExp Fixture.a_global) Fixture.resolver (VStr "banana")
       Fixture.message (mkStore ∅ ∅)
  = Ok (VMatch (VObj "all matches") [VStr "a"; VStr "a"; VStr "a"])
  /\ exec Fixture.a_star_global "banana" 0 = Some (VStr "", 0%nat)
  /\ (forall fuel, exec_loop Fixture.a_star_global "banana" fuel 0 [] = None)
  /\ cast (TRegExp Fixture.a_star_global) Fixture.resolver (VStr "banana")
          Fixture.message (mkStore ∅ ∅)
     = Throw Unending.
Proof.
  repeat split; try reflexivity.
  intros fuel. now apply (exec_loop_stuck _ _ 0 (VStr "")).
Qed.



(** A union of types that are not functions works as the claim says: the
    first entry that does not miss decides. *)
Example union_of_plain_types :
  cast (arg_type Fixture.plain_union_arg) Fixture.resolver (VStr "42")
       Fixture.message (mkStore ∅ ∅) = Ok (VNum 42)
  /\ cast (arg_type Fixture.plain_union_arg) Fixture.resolver (VStr "No")
          Fixture.message (mkStore ∅ ∅) = Ok (VStr "no")
  /\ cast (arg_type Fixture.plain_union_arg) Fixture.resolver (VStr "maybe")
          Fixture.message (mkStore ∅ ∅) = Ok VNull.
Proof. repeat split; reflexivity. Qed.

(** C9 fails on the code: in
    [Argument.union(Argument.validate('integer', n => n > 0), 'string')]
    the nested caster is called with no receiver, because [union] never
    binds its entries, and reading [this.handler] throws; the claim gives
    the result of the first sub-type, which on its own casts [5] to 5. *)
Theorem union_unbound_entry_throws :
  cast (arg_type Fixture.union_arg) Fixture.resolver (VStr "5")
       Fixture.message (mkStore ∅ ∅)
  = Throw (TypeError "Cannot read property 'handler' of undefined")
  /\ cast (bind_type (TFunction Fixture.positive_integer)
                     (ThisArgument Fixture.resolver))
          Fixture.resolver (VStr "5") Fixture.message (mkStore ∅ ∅)
     = Ok (VNum 5).
Proof. split; reflexivity. Qed.

(** * Properties of the prompt loop *)

Lemma logged_nil st : logged st [] = st.
Proof. destruct st. unfold logged. simpl. now rewrite app_nil_r. Qed.

Lemma logged_logged st evs evs' :
  logged (logged st evs) evs' = logged st (evs ++ evs').
Proof. unfold logged. simpl. now rewrite app_assoc. Qed.

Lemma accepted_app evs evs' :
  accepted (evs ++ evs') = (accepted evs ++ accepted evs')%list.
Proof.
  induction evs as [|e evs IH]; [reflexivity |].
  destruct e; simpl; try exact IH.
  destruct res as [v|]; [| exact IH].
  destruct (is_nullish v); [exact IH | simpl; now rewrite IH].
Qed.

Lemma accepted_no_cast evs : no_cast evs -> accepted evs = [].
Proof.
  induction 1 as [| e evs He _ IH]; [reflexivity |].
  destruct e; simpl; try exact IH. discriminate He.
Qed.

Lemma cast_attempts_app evs evs' :
  cast_attempts (evs ++ evs') = cast_attempts evs + cast_attempts evs'.
Proof. unfold cast_attempts. now rewrite List.filter_app, length_app. Qed.

Lemma cast_attempts_no_cast evs : no_cast evs -> cast_attempts evs = 0.
Proof.
  unfold cast_attempts.
  induction 1 as [| e evs He _ IH]; [reflexivity |].
  simpl. now rewrite He.
Qed.

Lemma no_cast_util env evs : no_cast evs -> no_cast (util_events env evs).
Proof. unfold util_events. destruct (message_util env); [auto | constructor]. Qed.

Lemma no_start_util env evs : no_start evs -> no_start (util_events env evs).
Proof. unfold util_events. destruct (message_util env); [auto | constructor]. Qed.

Section LoopFacts.

Variable this : Argument.
Variable env : Transport.
Variable message : Message.
Variable commandInput : string.
Variable values : option loc.

Local Abbreviation opts := (promptOptions this).
Local Abbreviation infinite_mode := (isInfinite this commandInput).
Local Abbreviation sendStart' := (sendStart this env message commandInput values).
Local Abbreviation sendClosing' := (sendClosing this env message commandInput).
Local Abbreviation timedOut' := (timedOut this env message commandInput).
Local Abbreviation afterReply' := (afterReply this env message commandInput values).
Local Abbreviation promptOne' := (promptOne this env message commandInput values).
Local Abbreviation castReply' := (castReply this env message commandInput values).
Local Abbreviation stopCheck' := (stopCheck this env message commandInput values).
Local Abbreviation cancelCheck' := (cancelCheck this env message commandInput values).
Local Abbreviation getText' := (getText this message commandInput).
Local Abbreviation text_of' := (text_of this message commandInput).

Lemma emit_run e st : emit e st = (Ok tt, logged st [e]).
Proof. reflexivity. Qed.

Lemma when_util_run evs_e st :
  when (message_util env) (emit evs_e) st
  = (Ok tt, logged st (util_events env [evs_e])).
Proof.
  unfold when, util_events. destruct (message_util env); [reflexivity |].
  unfold ret. now rewrite logged_nil.
Qed.

Lemma getText_run pt prompter rc im ip st :
  getText' pt prompter rc im ip st
  = (Ok (text_of' pt prompter rc im ip (st_store st)),
     logged st [Resolved pt rc (text_of' pt prompter rc im ip (st_store st))]).
Proof. reflexivity. Qed.

(** What sending a closing text does, path by path. *)
Lemma sendClosing_run pt prompter rc im ip st :
  let txt := text_of' pt prompter rc im ip (st_store st) in
  let st1 := logged st [Resolved pt rc txt] in
  sendClosing' pt prompter rc im ip st =
  match sendable txt with
  | None => (Ok tt, st1)
  | Some what =>
      match deliver env (st_log st1) ViaChannel what with
      | Some sent =>
          (Ok tt, logged st1 (Sent ViaChannel what sent
                                :: util_events env [UtilAddMessage sent]))
      | None => (Throw TransportError, logged st1 [SendFailed ViaChannel what])
      end
  end.
Proof.
  intros txt st1. unfold sendClosing.
  unfold bindM at 1. rewrite getText_run. fold txt. fold st1.
  destruct (sendable txt) as [what|]; [| reflexivity].
  unfold bindM, send.
  destruct (deliver env (st_log st1) ViaChannel what) as [sent|]; [| reflexivity].
  rewrite when_util_run, logged_logged. reflexivity.
Qed.

(** What the first part of a turn does when it prompts. *)
Lemma sendStart_prompting prev rc st :
  (rc <> 1 \/ infinite_mode = false
   \/ exists l, values = Some l /\ default [] (s_heap (st_store st) !! l) = []) ->
  let pt := if (rc =? 1)%nat then Start else RetryPrompt in
  let prompter := if (rc =? 1)%nat then start opts else retry opts in
  let prevInput :=
    if (rc <=? 1 + additionalRetry commandInput)%nat then commandInput
    else msg_content prev in
  let txt := text_of' pt prompter rc prev prevInput (st_store st) in
  let st1 := logged st [Resolved pt rc txt] in
  let via := if message_util env then ViaUtil else ViaChannel in
  sendStart' prev rc st =
  match sendable txt with
  | None => (Ok None, st1)
  | Some what =>
      match deliver env (st_log st1) via what with
      | Some sent =>
          (Ok (Some sent),
           logged st1 (Sent via what sent
                         :: util_events env [UtilSetEditable false;
                                             UtilSetLastResponse sent;
                                             UtilAddMessage sent]))
      | None => (Throw TransportError, logged st1 [SendFailed via what])
      end
  end.
Proof.
  intros Hcond pt prompter prevInput txt st1 via.
  assert (Hshould :
    (if (rc =? 1)%nat
     then if negb infinite_mode then ret true
          else bindM (values_length values)
                     (fun n => ret (infinite_mode && (n =? 0)%nat))
     else ret true) st = (Ok true, st)).
  { destruct (rc =? 1)%nat eqn:Hrc; [| reflexivity].
    apply Nat.eqb_eq in Hrc.
    destruct infinite_mode eqn:Hinf; [| reflexivity]. simpl.
    destruct Hcond as [Hne | [Hf | (l & Hl & Hvs)]]; [congruence | discriminate |].
    unfold bindM, values_length. rewrite Hl, Hvs. reflexivity. }
  unfold sendStart. unfold bindM at 1. rewrite Hshould.
  unfold bindM at 1. rewrite getText_run.
  fold pt prompter prevInput txt st1.
  destruct (sendable txt) as [what|]; [| reflexivity].
  unfold bindM at 1. unfold send. fold via.
  destruct (deliver env (st_log st1) via what) as [sent|]; [| reflexivity].
  unfold bindM, when, util_events, emit, ret.
  destruct (message_util env); rewrite ?logged_logged; reflexivity.
Qed.

(** A turn that starts at [retryCount = 1] in infinite mode with values
    already accumulated sends nothing. *)
Lemma sendStart_silent prev st l :
  infinite_mode = true -> values = Some l ->
  default [] (s_heap (st_store st) !! l) <> [] ->
  sendStart' prev 1 st = (Ok None, st).
Proof.
  intros Hinf Hl Hvs. unfold sendStart. simpl. rewrite Hinf. simpl.
  unfold bindM, values_length. rewrite Hl.
  destruct (default [] (s_heap (st_store st) !! l)); [congruence | reflexivity].
Qed.

(** When the first part of a turn prompts, the resolution of the text is
    its first log entry; nothing after it is a cast or another
    resolution. *)
Lemma sendStart_prompting_shape prev rc st o st' :
  (rc <> 1 \/ infinite_mode = false
   \/ exists l, values = Some l /\ default [] (s_heap (st_store st) !! l) = []) ->
  sendStart' prev rc st = (o, st') ->
  exists evs,
    st' = logged st
            (Resolved (if (rc =? 1)%nat then Start else RetryPrompt) rc
               (text_of' (if (rc =? 1)%nat then Start else RetryPrompt)
                  (if (rc =? 1)%nat then start opts else retry opts) rc prev
                  (if (rc <=? 1 + additionalRetry commandInput)%nat
                   then commandInput else msg_content prev)
                  (st_store st)) :: evs)
    /\ no_cast evs /\ no_start evs
    /\ (forall sent, o = Ok (Some sent) ->
          exists log via what, deliver env log via what = Some sent).
Proof.
  intros Hcond H.
  pose proof (sendStart_prompting prev rc st Hcond) as E. cbv zeta in E.
  rewrite E in H. clear E.
  destruct (sendable _) as [what|].
  - destruct (deliver env _ _ what) as [sent|] eqn:Hd;
      injection H as <- <-; rewrite logged_logged;
      eexists; (split; [reflexivity |]).
    + split; [constructor; [reflexivity | apply no_cast_util; repeat constructor] |].
      split; [constructor; [reflexivity | apply no_start_util; repeat constructor] |].
      intros sent' [= <-]. eauto.
    + split; [repeat constructor |]. split; [repeat constructor | discriminate].
  - injection H as <- <-. exists []. split; [reflexivity |].
    split; [constructor |]. split; [constructor | discriminate].
Qed.

(** Whatever the first part of a turn does, it only adds to the log, it
    casts nothing, and a message it returns was delivered by the
    transport. *)
Lemma sendStart_summary prev rc st o st' :
  sendStart' prev rc st = (o, st') ->
  exists evs,
    st' = logged st evs /\ no_cast evs
    /\ ((rc <> 1 \/ (infinite_mode = true /\ exists l, values = Some l
                      /\ default [] (s_heap (st_store st) !! l) <> []))
        -> no_start evs)
    /\ (forall sent, o = Ok (Some sent) ->
          exists log via what, deliver env log via what = Some sent).
Proof.
  intros H.
  assert (Hshape : (rc <> 1 \/ infinite_mode = false
     \/ exists l, values = Some l /\ default [] (s_heap (st_store st) !! l) = []) ->
     exists evs, st' = logged st evs /\ no_cast evs
       /\ (rc <> 1 -> no_start evs)
       /\ (forall sent, o = Ok (Some sent) ->
          exists log via what, deliver env log via what = Some sent)).
  { intros Hcond.
    destruct (sendStart_prompting_shape prev rc st o st' Hcond H)
      as (evs & -> & Hc & Hs & Hd).
    eexists. split; [reflexivity |].
    split; [constructor; [reflexivity | exact Hc] |].
    split; [| exact Hd].
    intros Hrc. apply Nat.eqb_neq in Hrc. rewrite Hrc.
    constructor; [reflexivity | exact Hs]. }
  destruct (Nat.eq_dec rc 1) as [-> | Hrc].
  - destruct infinite_mode eqn:Hinf.
    + assert (Hv : values = None \/ exists l, values = Some l)
        by (destruct values; eauto).
      destruct Hv as [Hl | (l & Hl)].
      2: destruct (default [] (s_heap (st_store st) !! l)) as [|v vs] eqn:Hvs.
      * unfold sendStart in H. simpl in H. rewrite Hinf in H. simpl in H.
        unfold bindM, values_length in H. rewrite Hl in H.
        injection H as <- <-.
        exists []. rewrite logged_nil.
        repeat split; try constructor. discriminate.
      * destruct Hshape as (evs & ? & ? & ? & ?); [right; right; eauto |].
        exists evs. repeat split; auto.
        intros [? | (_ & l' & Hl' & Hne)]; [congruence |].
        rewrite Hl in Hl'. injection Hl' as <-. congruence.
      * rewrite (sendStart_silent prev st l) in H by (auto; congruence).
        injection H as <- <-. exists []. rewrite logged_nil.
        repeat split; try constructor. discriminate.
    + destruct Hshape as (evs & ? & ? & ? & ?); [auto |].
      exists evs. repeat split; auto.
      intros [? | (? & _)]; congruence.
  - destruct Hshape as (evs & ? & ? & ? & ?); [auto |].
    exists evs. repeat split; auto.
Qed.

(** *** The stages of a turn, as equations *)

Lemma promptOne_sent inbox prev rc st :
  promptOne' inbox prev rc st
  = match sendStart' prev rc st with
    | (Ok sentStart, st1) =>
        match inbox with
        | a :: rest =>
            match awaitMessages (collector_filter message sentStart) a with
            | Some input =>
                afterReply' (promptOne' rest) input rc
                  (logged st1 (Awaited (time opts) (Some input)
                                 :: util_events env [UtilAddMessage input]))
            | None => timedOut' prev rc (logged st1 [Awaited (time opts) None])
            end
        | [] => timedOut' prev rc (logged st1 [Awaited (time opts) None])
        end
    | (Throw e, st1) => (Throw e, st1)
    end.
Proof.
  destruct inbox as [| a rest]; simpl; unfold bindM at 1;
    destruct (sendStart' prev rc st) as [[sentStart | e] st1]; try reflexivity.
  destruct (awaitMessages _ a) as [input |]; [| reflexivity].
  unfold bindM at 1. rewrite emit_run.
  unfold bindM at 1. rewrite when_util_run, logged_logged. reflexivity.
Qed.

Lemma timedOut_run prev rc st :
  timedOut' prev rc st
  = match sendClosing' Timeout (timeout opts) rc prev "" st with
    | (Ok _, st') => (Ok (VFlag Cancel), st')
    | (Throw e, st') => (Throw e, st')
    end.
Proof. reflexivity. Qed.

Lemma afterReply_run again input rc st :
  afterReply' again input rc st
  = if looks_like_command this input
    then (Ok (VFlag (Retry input)), logged st (breakout_events this input))
    else cancelCheck' again input rc (logged st (breakout_events this input)).
Proof.
  unfold afterReply, looks_like_command, breakout_events.
  destruct (flag (breakout opts)); simpl.
  - unfold bindM, emit, ret.
    destruct (h_parseCommand (handler this) input); reflexivity.
  - unfold bindM, ret. now rewrite logged_nil.
Qed.

Lemma cancelCheck_run again input rc st :
  cancelCheck' again input rc st
  = match cancelWord opts with
    | None =>
        (Throw (TypeError "Cannot read property 'toLowerCase' of undefined"), st)
    | Some cw =>
        if Str.ieq (msg_content input) cw then
          match sendClosing' CancelPrompt (cancel opts) rc input "" st with
          | (Ok _, st') => (Ok (VFlag Cancel), st')
          | (Throw e, st') => (Throw e, st')
          end
        else stopCheck' again input rc st
    end.
Proof.
  unfold cancelCheck, equals_word.
  destruct (cancelWord opts) as [cw|]; [| reflexivity].
  unfold bindM at 1, ret.
  destruct (Str.ieq (msg_content input) cw); reflexivity.
Qed.

Lemma stopCheck_run again input rc st :
  stopCheck' again input rc st
  = if infinite_mode then
      match stopWord opts with
      | None =>
          (Throw (TypeError "Cannot read property 'toLowerCase' of undefined"),
           st)
      | Some sw =>
          if Str.ieq (msg_content input) sw then
            match values with
            | Some l =>
                match default [] (s_heap (st_store st) !! l) with
                | [] => again input (rc + 1) st
                | _ :: _ => (Ok (VRef l), st)
                end
            | None =>
                (Throw (TypeError "Cannot read property 'length' of null"), st)
            end
          else castReply' again input rc st
      end
    else castReply' again input rc st.
Proof.
  unfold stopCheck, equals_word.
  destruct infinite_mode; [| reflexivity].
  destruct (stopWord opts) as [sw|]; [| reflexivity].
  unfold bindM at 1, ret.
  destruct (Str.ieq (msg_content input) sw); [| reflexivity].
  unfold bindM, values_length, values_ref, ret.
  destruct values as [l|]; [| reflexivity].
  destruct (default [] (s_heap (st_store st) !! l)); reflexivity.
Qed.

Lemma castReply_run again input rc st :
  let res := cast (arg_type this) (h_resolver (handler this))
                  (VStr (msg_content input)) input (st_store st) in
  let st1 := logged st [Casted (msg_content input) res] in
  castReply' again input rc st
  = match res with
    | Throw e => (Throw e, st1)
    | Ok v =>
        if is_nullish v then
          if le_number rc (retries opts) then again input (rc + 1) st1
          else
            match sendClosing' Ended (ended opts) rc input (msg_content input)
                               st1 with
            | (Ok _, st') => (Ok (VFlag Cancel), st')
            | (Throw e, st') => (Throw e, st')
            end
        else if infinite_mode then
          match values with
          | Some l =>
              if lt_number
                   (length (default [] (s_heap (st_store (pushed l v st1)) !! l)))
                   (limit opts)
              then again message 1 (pushed l v st1)
              else (Ok (VRef l), pushed l v st1)
          | None =>
              (Throw (TypeError "Cannot read property 'push' of null"), st1)
          end
        else (Ok v, st1)
    end.
Proof.
  intros res st1. unfold castReply. unfold bindM at 1.
  unfold Argument_cast. fold res. fold st1.
  destruct res as [v | e]; [| reflexivity].
  destruct (is_nullish v).
  - destruct (le_number rc (retries opts)); reflexivity.
  - destruct infinite_mode; [| reflexivity].
    unfold bindM, values_push, values_length, values_ref, ret.
    destruct values as [l|]; [| reflexivity].
    destruct (lt_number _ (limit opts)); reflexivity.
Qed.


(** Sending a closing text only adds to the log, and neither casts nor
    resolves the start text. *)
Lemma sendClosing_summary pt prompter rc im ip st o st' :
  pt <> Start ->
  sendClosing' pt prompter rc im ip st = (o, st') ->
  exists evs,
    st' = logged st (Resolved pt rc (text_of' pt prompter rc im ip (st_store st))
                       :: evs)
    /\ no_cast evs /\ no_start evs
    /\ (o = Ok tt \/ o = Throw TransportError).
Proof.
  intros Hpt H.
  pose proof (sendClosing_run pt prompter rc im ip st) as E. cbv zeta in E.
  rewrite E in H. clear E.
  destruct (sendable _) as [what|].
  - destruct (deliver env _ _ what) as [sent|]; injection H as <- <-;
      rewrite logged_logged; eexists; (split; [reflexivity |]).
    + split; [constructor; [reflexivity | apply no_cast_util; repeat constructor] |].
      split; [constructor; [reflexivity | apply no_start_util; repeat constructor] |].
      now left.
    + split; [repeat constructor |]. split; [repeat constructor | now right].
  - injection H as <- <-. exists []. split; [reflexivity |].
    split; [constructor |]. split; [constructor | now left].
Qed.

Lemma no_cast_breakout input : no_cast (breakout_events this input).
Proof. unfold breakout_events. destruct (flag _); repeat constructor. Qed.

Lemma no_start_breakout input : no_start (breakout_events this input).
Proof. unfold breakout_events. destruct (flag _); repeat constructor. Qed.

Lemma accepted_cast_hit evs c v :
  no_cast evs -> is_nullish v = false ->
  accepted (evs ++ [Casted c (Ok v)]) = [v].
Proof.
  intros Hc Hv. rewrite accepted_app, (accepted_no_cast _ Hc). simpl.
  now rewrite Hv.
Qed.

Lemma accepted_cast_miss evs c v :
  no_cast evs -> is_nullish v = true ->
  accepted (evs ++ [Casted c (Ok v)]) = [].
Proof.
  intros Hc Hv. rewrite accepted_app, (accepted_no_cast _ Hc). simpl.
  now rewrite Hv.
Qed.

Lemma accepted_cast_throw evs c e :
  no_cast evs -> accepted (evs ++ [Casted c (Throw e)]) = [].
Proof. intros Hc. now rewrite accepted_app, (accepted_no_cast _ Hc). Qed.

Lemma accepted_more evs evs' :
  no_cast evs' -> accepted (evs ++ evs') = accepted evs.
Proof.
  intros Hc. now rewrite accepted_app, (accepted_no_cast _ Hc), app_nil_r.
Qed.

Lemma no_start_cast evs c res : no_start evs -> no_start (evs ++ [Casted c res]).
Proof. intros H. apply Forall_app. split; [exact H | repeat constructor]. Qed.

Lemma no_cast_closing pt rc txt evs :
  no_cast evs -> no_cast (Resolved pt rc txt :: evs).
Proof. intros H. constructor; [reflexivity | exact H]. Qed.

Lemma no_start_closing pt rc txt evs :
  pt <> Start -> no_start evs -> no_start (Resolved pt rc txt :: evs).
Proof. intros Hpt H. constructor; [destruct pt; simpl; congruence | exact H]. Qed.

Lemma no_cast_await reply evs :
  no_cast evs -> no_cast (Awaited (time opts) reply :: evs).
Proof. intros H. constructor; [reflexivity | exact H]. Qed.

Lemma no_start_await reply evs :
  no_start evs -> no_start (Awaited (time opts) reply :: evs).
Proof. intros H. constructor; [reflexivity | exact H]. Qed.

(** The part of a turn that follows the prompt: what it adds to the log
    and how it ends. *)
Lemma turn_after_send inbox prev rc st sent o st' :
  match inbox with
  | a :: rest =>
      match awaitMessages (collector_filter message sent) a with
      | Some input =>
          afterReply' (promptOne' rest) input rc
            (logged st (Awaited (time opts) (Some input)
                          :: util_events env [UtilAddMessage input]))
      | None => timedOut' prev rc (logged st [Awaited (time opts) None])
      end
  | [] => timedOut' prev rc (logged st [Awaited (time opts) None])
  end = (o, st') ->
  exists evs,
    no_start evs
    /\ turn this env message commandInput values inbox rc st evs o st'.
Proof.
  intros H.
  assert (Hclosing : forall pt prompter im ip evs,
    pt <> Start -> accepted evs = [] -> no_start evs ->
    match sendClosing' pt prompter rc im ip (logged st evs) with
    | (Ok _, st2) => (Ok (VFlag Cancel), st2)
    | (Throw e, st2) => (Throw e, st2)
    end = (o, st') ->
    exists evs', no_start evs'
      /\ turn this env message commandInput values inbox rc st evs' o st').
  { intros pt prompter im ip evs Hpt Hacc Hns Hrun.
    destruct (sendClosing' pt prompter rc im ip (logged st evs))
      as [o2 st2] eqn:Hcl.
    destruct (sendClosing_summary pt prompter rc im ip _ _ _ Hpt Hcl)
      as (evs1 & -> & Hc1 & Hs1 & Ho).
    rewrite logged_logged in Hrun. eexists. split; cycle 1.
    - destruct Ho as [-> | ->]; injection Hrun as <- <-.
      + apply turn_flag. rewrite accepted_more; [exact Hacc |].
        now apply no_cast_closing.
      + apply turn_throw. rewrite accepted_more; [exact Hacc |].
        now apply no_cast_closing.
    - apply Forall_app. split; [exact Hns |]. now apply no_start_closing. }
  assert (Htimeout :
    timedOut' prev rc (logged st [Awaited (time opts) None]) = (o, st') ->
    exists evs', no_start evs'
      /\ turn this env message commandInput values inbox rc st evs' o st').
  { rewrite timedOut_run. apply Hclosing;
      [discriminate | reflexivity | repeat constructor]. }
  destruct inbox as [| a rest]; [now apply Htimeout |].
  destruct (awaitMessages (collector_filter message sent) a) as [input |];
    [| now apply Htimeout].
  clear Htimeout.
  set (evs1 := Awaited (time opts) (Some input)
                 :: util_events env [UtilAddMessage input]) in H.
  assert (Hc1 : no_cast evs1).
  { apply no_cast_await, no_cast_util. repeat constructor. }
  assert (Hs1 : no_start evs1).
  { apply no_start_await, no_start_util. repeat constructor. }
  rewrite afterReply_run, logged_logged in H.
  set (evs2 := (evs1 ++ breakout_events this input)%list) in H.
  assert (Hc2 : no_cast evs2).
  { apply Forall_app. split; [exact Hc1 | apply no_cast_breakout]. }
  assert (Hs2 : no_start evs2).
  { apply Forall_app. split; [exact Hs1 | apply no_start_breakout]. }
  clearbody evs2. clear evs1 Hc1 Hs1.
  destruct (looks_like_command this input).
  { injection H as <- <-. exists evs2. split; [exact Hs2 |].
    apply turn_flag. now apply accepted_no_cast. }
  rewrite cancelCheck_run in H.
  destruct (cancelWord opts) as [cw |].
  2: { injection H as <- <-. exists evs2. split; [exact Hs2 |].
       apply turn_throw. now apply accepted_no_cast. }
  destruct (Str.ieq (msg_content input) cw).
  { apply Hclosing in H;
      [exact H | discriminate | now apply accepted_no_cast | exact Hs2]. }
  assert (Hcast :
    castReply' (promptOne' rest) input rc (logged st evs2) = (o, st') ->
    exists evs', no_start evs'
      /\ turn this env message commandInput values (a :: rest) rc st evs' o st').
  { clear H. intros H.
    pose proof (castReply_run (promptOne' rest) input rc (logged st evs2)) as E.
    cbv zeta in E. rewrite E in H. clear E.
    destruct (cast _ _ _ _ _) as [v | e].
    2: { injection H as <- <-. rewrite logged_logged. eexists. split; cycle 1.
         - apply turn_throw. now apply accepted_cast_throw.
         - now apply no_start_cast. }
    destruct (is_nullish v) eqn:Hv.
    - destruct (le_number rc (retries opts)).
      + rewrite logged_logged in H. eexists. split; cycle 1.
        * eapply turn_again; [reflexivity | | exact H].
          now apply accepted_cast_miss.
        * now apply no_start_cast.
      + rewrite logged_logged in H.
        apply Hclosing in H; [exact H | discriminate | |].
        * now apply accepted_cast_miss.
        * now apply no_start_cast.
    - destruct infinite_mode eqn:Hinf.
      + assert (Hvals : values = None \/ exists l, values = Some l)
          by (destruct values; eauto).
        destruct Hvals as [Hl | (l & Hl)]; rewrite Hl in H;
          cbv beta iota in H; try rewrite <- Hl in H.
        * injection H as <- <-. rewrite logged_logged. eexists. split; cycle 1.
          -- now apply turn_no_array.
          -- now apply no_start_cast.
        * rewrite !logged_logged in H.
          destruct (lt_number _ (limit opts)).
          -- eexists. split; cycle 1.
             ++ eapply turn_more;
                  [exact Hinf | reflexivity | exact Hl | | exact H].
                now apply accepted_cast_hit.
             ++ now apply no_start_cast.
          -- injection H as <- <-. eexists. split; cycle 1.
             ++ apply turn_limit; auto. now apply accepted_cast_hit.
             ++ now apply no_start_cast.
      + injection H as <- <-. rewrite logged_logged. eexists. split; cycle 1.
        * apply turn_value; auto. now apply accepted_cast_hit.
        * now apply no_start_cast. }
  rewrite stopCheck_run in H.
  destruct infinite_mode eqn:Hinf; [| now apply Hcast].
  destruct (stopWord opts) as [sw |].
  2: { injection H as <- <-. exists evs2. split; [exact Hs2 |].
       apply turn_throw. now apply accepted_no_cast. }
  destruct (Str.ieq (msg_content input) sw); [| now apply Hcast].
  assert (Hvals : values = None \/ exists l, values = Some l)
    by (destruct values; eauto).
  destruct Hvals as [Hl | (l & Hl)]; rewrite Hl in H;
    cbv beta iota in H; try rewrite <- Hl in H.
  { injection H as <- <-. exists evs2. split; [exact Hs2 |].
    apply turn_throw. now apply accepted_no_cast. }
  change (s_heap (st_store (logged st evs2))) with (s_heap (st_store st)) in H.
  destruct (default [] (s_heap (st_store st) !! l)) as [| v0 vs0] eqn:Hvs.
  - exists evs2. split; [exact Hs2 |].
    eapply turn_again; [reflexivity | | exact H]. now apply accepted_no_cast.
  - injection H as <- <-. exists evs2. split; [exact Hs2 |].
    apply turn_stop; auto; [now rewrite Hvs | now apply accepted_no_cast].
Qed.

(** A turn seen from a state whose log is shorter. *)
Lemma turn_prefix inbox rc st evs0 evs o st' :
  no_cast evs0 ->
  turn this env message commandInput values inbox rc (logged st evs0) evs o st' ->
  turn this env message commandInput values inbox rc st (evs0 ++ evs) o st'.
Proof.
  intros Hc0 Ht.
  assert (Hacc : accepted (evs0 ++ evs) = accepted evs)
    by (now rewrite accepted_app, (accepted_no_cast _ Hc0)).
  destruct Ht; rewrite ?logged_logged in *.
  - apply turn_throw. congruence.
  - apply turn_flag. congruence.
  - apply turn_stop; auto. congruence.
  - apply turn_value; auto. congruence.
  - now apply turn_no_array.
  - apply turn_limit; auto. congruence.
  - eapply turn_again; eauto. congruence.
  - eapply turn_more; eauto. congruence.
Qed.

(** One turn of [promptOne]: the prompt, then the rest. *)
Lemma promptOne_turn inbox prev rc st o st' :
  promptOne' inbox prev rc st = (o, st') ->
  exists evs0 evs1 o0,
    sendStart' prev rc st = (o0, logged st evs0)
    /\ no_cast evs0 /\ no_start evs1
    /\ turn this env message commandInput values inbox rc st (evs0 ++ evs1)
            o st'.
Proof.
  intros H. rewrite promptOne_sent in H.
  destruct (sendStart' prev rc st) as [[sent | e] st1] eqn:Hsend;
    destruct (sendStart_summary prev rc st _ _ Hsend)
      as (evs0 & -> & Hc0 & _ & _).
  - destruct (turn_after_send _ _ _ _ _ _ _ H) as (evs1 & Hs1 & Ht).
    exists evs0, evs1, (Ok sent). repeat split; auto.
    now apply turn_prefix.
  - injection H as <- <-. exists evs0, [], (Throw e).
    rewrite app_nil_r. repeat split; auto; [constructor |].
    apply turn_throw. now apply accepted_no_cast.
Qed.

(** The whole loop, from any turn on: it only adds to the log, leaves the
    registry and the [args] object alone, resolves the start text only in
    a turn that starts at [retryCount = 1] with nothing accumulated, and
    in infinite mode appends to the array exactly the values its casts
    accepted. *)
Lemma promptOne_session inbox :
  forall prev rc st o st',
    promptOne' inbox prev rc st = (o, st') ->
    exists evs,
      st_log st' = (st_log st ++ evs)%list
      /\ st_prompts st' = st_prompts st
      /\ s_args (st_store st') = s_args (st_store st)
      /\ ((1 < rc \/ (infinite_mode = true /\ exists l, values = Some l
                        /\ default [] (s_heap (st_store st) !! l) <> []))
          -> no_start evs)
      /\ (infinite_mode = false ->
            s_heap (st_store st') = s_heap (st_store st))
      /\ (forall l vs,
            infinite_mode = true -> values = Some l ->
            s_heap (st_store st) !! l = Some vs ->
            s_heap (st_store st') !! l = Some (vs ++ accepted evs)%list
            /\ (forall v, o = Ok v -> v = VRef l \/ is_flag v = true)).
Proof.
  assert (Hpushed : forall l v st vs,
            s_heap (st_store st) !! l = Some vs ->
            s_heap (st_store (pushed l v st)) !! l = Some (vs ++ [v])%list).
  { intros l v st vs Hvs. unfold pushed. simpl.
    now rewrite lookup_insert_eq, Hvs. }
  induction inbox as [| a rest IH]; intros prev rc st o st' H;
    destruct (promptOne_turn _ _ _ _ _ _ H)
      as (evs0 & evs1 & o0 & Hsend & Hc0 & Hs1 & Ht);
    destruct (sendStart_summary _ _ _ _ _ Hsend)
      as (evs0' & Heq & _ & Hs0 & _);
    assert (evs0' = evs0) as ->
      by (apply (f_equal st_log) in Heq; simpl in Heq;
          now apply app_inv_head in Heq);
    clear Heq Hsend;
    assert (Hns : rc <> 1 \/ (infinite_mode = true /\ exists l, values = Some l
                    /\ default [] (s_heap (st_store st) !! l) <> [])
                  -> no_start (evs0 ++ evs1))
      by (intros Hcond; apply Forall_app; split; [now apply Hs0 | exact Hs1]);
    clear Hs0 Hs1 Hc0;
    remember (evs0 ++ evs1)%list as evs eqn:Hevs; clear Hevs evs0 evs1;
    destruct Ht as [e Hacc | f Hacc | l Hinf Hl Hne Hacc | v Hinf Hv Hacc
                   | e Hinf Hl | l v Hinf Hl Hacc
                   | a' rest' input o st' Hin Hacc Hrun
                   | a' rest' l v o st' Hinf Hin Hl Hacc Hrun];
    try discriminate Hin;
    try (injection Hin as <- <-).
  all: assert (Hns' : 1 < rc \/ (infinite_mode = true /\ exists l, values = Some l
                        /\ default [] (s_heap (st_store st) !! l) <> [])
                     -> no_start evs)
         by (intros [Hrc | Hne']; apply Hns; [left; lia | now right]).
  all: try (exists evs; split; [reflexivity |]; split; [reflexivity |];
            split; [reflexivity |]; split; [exact Hns' |];
            split; [first [reflexivity | congruence] |];
            intros l' vs' Hinf' Hl' Hvs').
  (* turns that end the loop *)
  all: try (rewrite Hacc, app_nil_r; split; [exact Hvs' |];
            intros v' [= <-]; auto; fail).
  all: try (rewrite Hacc, app_nil_r; split; [exact Hvs' |];
            intros v' [= <-]; left; congruence).
  all: try congruence.
  all: try (assert (l' = l) as -> by congruence;
            rewrite Hacc; split; [now apply Hpushed |];
            intros v' [= <-]; now left).
  (* turns that go on *)
  - destruct (IH _ _ _ _ _ Hrun) as (evs2 & Hlog & Hpr & Hargs & Hns2 & Hfin & Hinfm).
    exists (evs ++ evs2)%list.
    split; [rewrite Hlog; simpl; now rewrite app_assoc |].
    split; [exact Hpr |]. split; [exact Hargs |].
    split; [intros Hcond; apply Forall_app; split;
            [now apply Hns' | apply Hns2; destruct Hcond as [Hrc | Hne'];
                              [left; lia | now right]] |].
    split; [exact Hfin |].
    intros l' vs' Hinf' Hl' Hvs'.
    rewrite accepted_app, Hacc. simpl.
    now apply Hinfm.
  - destruct (IH _ _ _ _ _ Hrun) as (evs2 & Hlog & Hpr & Hargs & Hns2 & Hfin & Hinfm).
    exists (evs ++ evs2)%list.
    split; [rewrite Hlog; simpl; now rewrite app_assoc |].
    split; [exact Hpr |]. split; [exact Hargs |].
    split.
    { intros Hcond. apply Forall_app. split; [now apply Hns' |].
      apply Hns2. right. split; [exact Hinf |]. exists l. split; [exact Hl |].
      unfold pushed. simpl. rewrite lookup_insert_eq. simpl.
      now destruct (default [] (s_heap (st_store st) !! l)). }
    split; [congruence |].
    intros l' vs' Hinf' Hl' Hvs'.
    assert (l' = l) as -> by congruence.
    rewrite accepted_app, Hacc. simpl.
    replace (vs' ++ v :: accepted evs2)%list
      with ((vs' ++ [v]) ++ accepted evs2)%list
      by (now rewrite <- app_assoc).
    apply Hinfm; auto.
Qed.

End LoopFacts.

(** ** [collect] as a whole *)

Lemma collect_run this env inbox message commandInput st :
  collect this env inbox message commandInput st
  = match promptOne this env message commandInput
            (session_values this commandInput st) inbox message
            (1 + additionalRetry commandInput)
            (entered this message commandInput st) with
    | (Ok returnValue, st1) =>
        if h_commandUtil (handler this) && negb (message_util env)
        then (Throw (TypeError "Cannot read property 'setEditable' of undefined"),
              st1)
        else (Ok returnValue, released this message st1)
    | (Throw e, st1) => (Throw e, st1)
    end.
Proof.
  unfold collect, bindM, init_values, addPrompt, session_values, entered,
    finish_util, removePrompt, released, emit, throw, ret, logged.
  destruct (isInfinite this commandInput) eqn:Hinf; simpl;
    match goal with
    | |- context [promptOne ?a ?b ?c ?d ?e ?f ?g ?h ?i] =>
        destruct (promptOne a b c d e f g h i) as [[r | e0] st1]
    end; try reflexivity;
    destruct (h_commandUtil (handler this)); simpl;
    try destruct (message_util env); simpl; rewrite <- ?app_assoc;
    reflexivity.
Qed.

Lemma collect_returns this env message commandInput inbox0 st0 inbox prev rc
    st r :
  comes_to this env message commandInput inbox0 st0 inbox prev rc st ->
  promptOne this env message commandInput
            (session_values this commandInput st0) inbox prev rc st = r ->
  collect this env inbox0 message commandInput st0 = returns this env message r.
Proof.
  intros Hcomes <-. rewrite collect_run. unfold comes_to in Hcomes.
  rewrite Hcomes. reflexivity.
Qed.

Lemma comes_to_first this env message commandInput inbox0 st0 :
  comes_to this env message commandInput inbox0 st0 inbox0 message
           (1 + additionalRetry commandInput)
           (entered this message commandInput st0).
Proof. reflexivity. Qed.

Lemma comes_to_next this env message commandInput inbox0 st0 inbox prev rc st
    inbox' prev' rc' st' :
  comes_to this env message commandInput inbox0 st0 inbox prev rc st ->
  promptOne this env message commandInput
            (session_values this commandInput st0) inbox prev rc st
  = promptOne this env message commandInput
              (session_values this commandInput st0) inbox' prev' rc' st' ->
  comes_to this env message commandInput inbox0 st0 inbox' prev' rc' st'.
Proof. unfold comes_to. congruence. Qed.

Lemma entered_prompts this message commandInput st :
  (msg_channel message, msg_author message)
  ∈ st_prompts (entered this message commandInput st).
Proof. unfold entered. simpl. set_solver. Qed.

Lemma new_loc_fresh s : s_heap s !! new_loc s = None.
Proof.
  unfold new_loc. apply not_elem_of_dom. apply is_fresh.
Qed.

Lemma entered_array this message commandInput st :
  isInfinite this commandInput = true ->
  s_args (st_store (entered this message commandInput st)) !! arg_id this
  = Some (VRef (new_loc (st_store st)))
  /\ s_heap (st_store (entered this message commandInput st))
     !! new_loc (st_store st) = Some [].
Proof.
  intros Hinf. unfold entered. rewrite Hinf. simpl.
  now rewrite !lookup_insert_eq.
Qed.

(** C1, as stated, fails: when the transport fails on the start text,
    [collect] throws and the (channel, author) pair is still registered. *)
Lemma collect_keeps_prompt_when_send_throws :
  fst (collect (Fixture.number_arg (Fixture.with_retries 1)) Fixture.broken []
               Fixture.message "" Fixture.st0)
  = Throw TransportError
  /\ ("c", "u")
     ∈ st_prompts
         (snd (collect (Fixture.number_arg (Fixture.with_retries 1))
                       Fixture.broken [] Fixture.message "" Fixture.st0)).
Proof.
  split; [reflexivity |].
  apply (bool_decide_unpack _). vm_compute. reflexivity.
Qed.

(** C1, amended: the registration that [collect] makes at entry is removed
    on every exit on which [collect] returns (a value, [Cancel] or
    [Retry]; a failed or timed-out await is caught and ends in [Cancel]),
    and it is still there on every exit on which [collect] throws. *)
Theorem collect_releases_prompt_when_it_returns
    (this : Argument) (env : Transport) (inbox : list arrival)
    (message : Message) (commandInput : string) (st : state) :
  match collect this env inbox message commandInput st with
  | (Ok _, st') =>
      (msg_channel message, msg_author message) ∉ st_prompts st'
  | (Throw _, st') =>
      (msg_channel message, msg_author message) ∈ st_prompts st'
  end.
Proof.
  rewrite collect_run.
  destruct (promptOne _ _ _ _ _ _ _ _ _) as [[r | e] st1] eqn:Hrun;
    destruct (promptOne_session _ _ _ _ _ _ _ _ _ _ _ Hrun)
      as (evs & _ & Hprompts & _).
  - destruct (h_commandUtil (handler this) && negb (message_util env)).
    + rewrite Hprompts. apply entered_prompts.
    + unfold released. simpl. rewrite elem_of_difference.
      intros [_ Hn]. apply Hn. now apply elem_of_singleton.
  - rewrite Hprompts. apply entered_prompts.
Qed.

(** C10: in infinite mode the array that [collect] allocates at entry is
    stored in [args] under the argument's id, it is the array the loop
    pushes to and returns, and whatever way [collect] ends (the array, a
    flag, an exception) [args] still points to it and it holds exactly
    the values that the casts of the session accepted, in order. *)
Theorem infinite_values_stay_visible_in_args
    (this : Argument) (env : Transport) (inbox : list arrival)
    (message : Message) (commandInput : string) (st : state)
    (o : outcome value) (st' : state) :
  isInfinite this commandInput = true ->
  collect this env inbox message commandInput st = (o, st') ->
  let l := new_loc (st_store st) in
  s_heap (st_store st) !! l = None
  /\ s_args (st_store (entered this message commandInput st)) !! arg_id this
     = Some (VRef l)
  /\ s_heap (st_store (entered this message commandInput st)) !! l = Some []
  /\ exists evs,
       st_log st' = (st_log st ++ evs)%list
       /\ s_args (st_store st') !! arg_id this = Some (VRef l)
       /\ s_heap (st_store st') !! l = Some (accepted evs)
       /\ (forall v, o = Ok v -> v = VRef l \/ is_flag v = true).
Proof.
  intros Hinf Hrun l.
  destruct (entered_array this message commandInput st Hinf) as [Hargs Hheap].
  split; [apply new_loc_fresh |]. split; [exact Hargs |]. split; [exact Hheap |].
  assert (Hvalues : session_values this commandInput st = Some l)
    by (unfold session_values; now rewrite Hinf).
  rewrite collect_run in Hrun.
  destruct (promptOne _ _ _ _ _ _ _ _ _) as [[r | e] st1] eqn:Hloop;
    destruct (promptOne_session _ _ _ _ _ _ _ _ _ _ _ Hloop)
      as (evs & Hlog & _ & Hsame & _ & _ & Harr);
    destruct (Harr l [] Hinf Hvalues Hheap) as [Hfinal Hshape].
  - destruct (h_commandUtil (handler this) && negb (message_util env));
      injection Hrun as <- <-.
    + exists (Registered (msg_channel message) (msg_author message) :: evs).
      split; [rewrite Hlog; simpl; now rewrite <- app_assoc |].
      split; [now rewrite Hsame |]. split; [exact Hfinal | discriminate].
    + eexists. split.
      { unfold released. simpl. rewrite Hlog. simpl.
        rewrite <- !app_assoc. reflexivity. }
      split; [simpl; now rewrite Hsame |].
      split; [| intros v [= <-]; now apply Hshape].
      simpl. rewrite Hfinal. f_equal.
      rewrite !accepted_app. simpl.
      destruct (h_commandUtil (handler this)); simpl; now rewrite app_nil_r.
  - injection Hrun as <- <-.
    exists (Registered (msg_channel message) (msg_author message) :: evs).
    split; [rewrite Hlog; simpl; now rewrite <- app_assoc |].
    split; [now rewrite Hsame |]. split; [exact Hfinal | discriminate].
Qed.

Lemma logged_inv st evs evs' : logged st evs = logged st evs' -> evs = evs'.
Proof.
  intros H. apply (f_equal st_log) in H. simpl in H.
  now apply app_inv_head in H.
Qed.

(** A loop whose first turn prompts: the resolution of that text is the
    first thing it logs, and the start text is never resolved after it. *)
Lemma promptOne_after_first_prompt this env message commandInput values
    inbox prev rc st o st' :
  1 <= rc ->
  (rc <> 1 \/ isInfinite this commandInput = false
   \/ exists l, values = Some l /\ default [] (s_heap (st_store st) !! l) = []) ->
  promptOne this env message commandInput values inbox prev rc st = (o, st') ->
  exists evs,
    st_log st'
    = (st_log st
       ++ Resolved (if (rc =? 1)%nat then Start else RetryPrompt) rc
            (text_of this message commandInput
               (if (rc =? 1)%nat then Start else RetryPrompt)
               (if (rc =? 1)%nat then start (promptOptions this)
                else retry (promptOptions this)) rc prev
               (if (rc <=? 1 + additionalRetry commandInput)%nat
                then commandInput else msg_content prev)
               (st_store st)) :: evs)%list
    /\ no_start evs.
Proof.
  intros Hrc Hcond Hrun.
  destruct (promptOne_turn _ _ _ _ _ _ _ _ _ _ _ Hrun)
    as (evs0 & evs1 & o0 & Hsend & _ & Hs1 & Ht).
  destruct (sendStart_prompting_shape _ _ _ _ _ _ _ _ _ _ Hcond Hsend)
    as (evs0' & Heq & _ & Hs0 & _).
  apply logged_inv in Heq. subst evs0.
  match type of Hs0 with _ =>
    match goal with |- context [Resolved ?pt rc ?txt] =>
      set (first := Resolved pt rc txt) in *
    end
  end.
  assert (Hdone : st_log st' = (st_log st ++ (first :: evs0') ++ evs1)%list ->
          exists evs, st_log st' = (st_log st ++ first :: evs)%list
                      /\ no_start evs).
  { intros ->. exists (evs0' ++ evs1)%list. split; [reflexivity |].
    apply Forall_app. split; [exact Hs0 | exact Hs1]. }
  assert (Hnext : forall st1 inbox' prev' rc',
    st_log st1 = (st_log st ++ (first :: evs0') ++ evs1)%list ->
    (1 < rc' \/ (isInfinite this commandInput = true /\ exists l, values = Some l
                  /\ default [] (s_heap (st_store st1) !! l) <> [])) ->
    promptOne this env message commandInput values inbox' prev' rc' st1
    = (o, st') ->
    exists evs, st_log st' = (st_log st ++ first :: evs)%list /\ no_start evs).
  { intros st1 inbox' prev' rc' Hlog1 Hcond' Hrun'.
    destruct (promptOne_session _ _ _ _ _ _ _ _ _ _ _ Hrun')
      as (evs2 & Hlog & _ & _ & Hns & _).
    exists ((evs0' ++ evs1) ++ evs2)%list. split.
    - rewrite Hlog, Hlog1. rewrite <- !app_assoc. simpl.
      rewrite <- ?app_assoc. reflexivity.
    - apply Forall_app. split; [| now apply Hns].
      apply Forall_app. split; [exact Hs0 | exact Hs1]. }
  clear Hrun Hsend.
  destruct Ht; try (apply Hdone; reflexivity).
  - match goal with
    | Hr : promptOne _ _ _ _ _ _ _ _ _ = _ |- _ =>
        eapply Hnext; [| | exact Hr]; [reflexivity | left; lia]
    end.
  - match goal with
    | Hr : promptOne _ _ _ _ _ _ _ _ _ = _ |- _ =>
        eapply Hnext; [| | exact Hr]; [reflexivity |]
    end.
    right. split; [assumption |]. eexists. split; [eassumption |].
    unfold pushed. simpl. rewrite lookup_insert_eq. simpl.
    match goal with |- (?x ++ _)%list <> [] => now destruct x end.
Qed.

(** C8, as stated, fails: in a session seeded by the phrase [abc] the
    text of the very first turn is resolved from the [retry] supplier, at
    [retryCount = 2], and the [start] supplier is never used. *)
Lemma seeded_session_first_prompts_with_retry :
  st_log (snd Fixture.seeded_run)
  = [ Casted "abc" (Ok VNull);
      Registered "c" "u";
      Resolved RetryPrompt 2 (TString "retry?");
      Sent ViaChannel "retry?" (mkMessage "bot-retry?" "c" "bot" "retry?");
      Awaited (Some 30000%N) (Some (mkMessage "r1" "c" "u" "7"));
      Parsed (mkMessage "r1" "c" "u" "7") false;
      Casted "7" (Ok (VNum 7));
      Unregistered "c" "u" ]
  /\ start (promptOptions (Fixture.number_arg (Fixture.with_retries 1)))
     = Some (CText (TString "start?")).
Proof. split; reflexivity. Qed.

(** C8, amended: the first turn of a session resolves its prompt text at
    [retryCount = 1 + additionalRetry], from the [start] supplier (and
    modifier) when there is no seed phrase and from the [retry] supplier
    when there is one ([retryCount = 2]); after that first resolution the
    start text is never resolved again. *)
Theorem start_text_only_on_first_turn_without_seed
    (this : Argument) (env : Transport) (inbox : list arrival)
    (message : Message) (commandInput : string) (st : state)
    (o : outcome value) (st' : state) :
  collect this env inbox message commandInput st = (o, st') ->
  let seeded := Str.nonempty commandInput in
  let promptType := if seeded then RetryPrompt else Start in
  let prompter :=
    if seeded then retry (promptOptions this)
    else start (promptOptions this) in
  let retryCount := if seeded then 2 else 1 in
  exists evs,
    st_log st'
    = (st_log st
       ++ Registered (msg_channel message) (msg_author message)
       :: Resolved promptType retryCount
            (text_of this message commandInput promptType prompter retryCount
                     message commandInput
                     (st_store (entered this message commandInput st)))
       :: evs)%list
    /\ no_start evs.
Proof.
  intros Hrun seeded promptType prompter retryCount.
  rewrite collect_run in Hrun.
  destruct (promptOne _ _ _ _ _ _ _ _ _) as [o1 st1] eqn:Hloop.
  apply promptOne_after_first_prompt in Hloop.
  - destruct Hloop as (evs & Hlog & Hns).
    assert (Hfirst : st_log st1
      = (st_log st
         ++ Registered (msg_channel message) (msg_author message)
         :: Resolved promptType retryCount
              (text_of this message commandInput promptType prompter
                       retryCount message commandInput
                       (st_store (entered this message commandInput st)))
         :: evs)%list).
    { rewrite Hlog. unfold entered at 1. simpl. rewrite <- app_assoc. simpl.
      unfold promptType, prompter, retryCount, seeded, additionalRetry.
      destruct (Str.nonempty commandInput); reflexivity. }
    destruct o1 as [r | e].
    + destruct (h_commandUtil (handler this) && negb (message_util env));
        injection Hrun as <- <-.
      * exists evs. now split.
      * eexists. split.
        { unfold released. simpl. rewrite Hfirst.
          rewrite <- app_assoc. simpl. reflexivity. }
        apply Forall_app. split; [exact Hns |].
        destruct (h_commandUtil (handler this)); repeat constructor.
    + injection Hrun as <- <-. exists evs. now split.
  - lia.
  - unfold additionalRetry.
    destruct (Str.nonempty commandInput); [left; discriminate |].
    destruct (isInfinite this commandInput) eqn:Hinf; [| now right; left].
    right. right. exists (new_loc (st_store st)).
    split; [unfold session_values; now rewrite Hinf |].
    destruct (entered_array this message commandInput st Hinf) as [_ ->].
    reflexivity.
Qed.

(** * The turn-by-turn claims *)

Section Turns.

Variable this : Argument.
Variable env : Transport.
Variable message : Message.
Variable commandInput : string.

(** The session: what is to arrive, and the state [collect] starts in. *)
Variable inbox0 : list arrival.
Variable st0 : state.

Local Abbreviation opts := (promptOptions this).
Local Abbreviation values := (session_values this commandInput st0).
Local Abbreviation loop := (promptOne this env message commandInput values).
Local Abbreviation session_comes_to :=
  (comes_to this env message commandInput inbox0 st0).

(** C5: with [breakout] set, a reply that [parseCommand] takes for a
    command ends the loop with [Retry] of that reply right after the
    breakout check: nothing is logged after the check, so no cancel text
    is resolved or sent, the stop word is not looked at and the reply is
    not cast, whatever the reply says; and [collect] returns that
    [Retry]. *)
Theorem breakout_precedes_cancel_stop_and_cast
    (a : arrival) (rest : list arrival) (prev : Message) (rc : nat)
    (st st1 : state) (sent : option Message) (input : Message) :
  session_comes_to (a :: rest) prev rc st ->
  sendStart this env message commandInput values prev rc st = (Ok sent, st1) ->
  awaitMessages (collector_filter message sent) a = Some input ->
  flag (breakout opts) = true ->
  h_parseCommand (handler this) input = true ->
  let st2 := logged st1 (Awaited (time opts) (Some input)
                           :: util_events env [UtilAddMessage input]
                           ++ [Parsed input true]) in
  loop (a :: rest) prev rc st = (Ok (VFlag (Retry input)), st2)
  /\ collect this env inbox0 message commandInput st0
     = returns this env message (Ok (VFlag (Retry input)), st2).
Proof.
  intros Hcomes Hsend Hawait Hbreakout Hparse st2.
  assert (Hloop : loop (a :: rest) prev rc st = (Ok (VFlag (Retry input)), st2)).
  { rewrite promptOne_sent, Hsend, Hawait, afterReply_run.
    unfold looks_like_command, breakout_events.
    rewrite Hbreakout, Hparse. simpl. now rewrite logged_logged. }
  split; [exact Hloop |]. now apply (collect_returns _ _ _ _ _ _ _ _ _ _ _ Hcomes).
Qed.



End Turns.

(** C7: when the phrase trims to the empty string and one of the three
    prompt option layers sets [optional], [process] returns the default
    (the value itself, or what the supplier gives for the message and the
    arguments so far) and leaves the state as it was: nothing is cast,
    nothing is registered, sent or awaited. *)
Theorem optional_empty_phrase_returns_default
    (this : Argument) (env : Transport) (inbox : list arrival)
    (phrase : string) (message : Message) (st : state) :
  Str.trim phrase = "" ->
  ((exists p, arg_prompt this = Some p /\ optional p = Some true)
   \/ (exists p, command_defaultPrompt this = Some p /\ optional p = Some true)
   \/ (exists p, h_defaultPrompt (handler this) = Some p
                 /\ optional p = Some true)) ->
  process this env inbox phrase message st
  = (match arg_default this with
     | DValue v => Ok v
     | DSupplier f => f message (st_store st)
     end, st).
Proof.
  intros Hempty Hopt. unfold process. rewrite Hempty.
  assert (Hoptional : isOptional this = true).
  { unfold isOptional.
    destruct Hopt as [(p & -> & ->) | [(p & -> & ->) | (p & -> & ->)]];
      simpl; now rewrite ?orb_true_r. }
  rewrite Hoptional. simpl. unfold resolve_default.
  destruct (arg_default this); reflexivity.
Qed.

(** * Exhausting the retries *)

Section Exhaustion.

Variable this : Argument.
Variable env : Transport.
Variable message : Message.
Variable commandInput : string.
Variable values : option loc.
Variable r : nat.
Variable cw : string.

Local Abbreviation opts := (promptOptions this).
Local Abbreviation loop := (promptOne this env message commandInput values).

Hypothesis not_infinite : isInfinite this commandInput = false.
Hypothesis retries_r : retries opts = Some (Finite r).
Hypothesis cancel_word : cancelWord opts = Some cw.
Hypothesis delivers : forall log via what, deliver env log via what <> None.

Local Abbreviation misses := (misses_cast this cw).

Lemma sendStart_delivers prev rc st :
  exists sent evs0,
    sendStart this env message commandInput values prev rc st
    = (Ok sent, logged st evs0)
    /\ no_cast evs0
    /\ prompt_counts evs0 = [rc]
    /\ (sent = None \/ exists log via what, deliver env log via what = sent).
Proof.
  pose proof (sendStart_prompting this env message commandInput values
                prev rc st) as E.
  cbv zeta in E. rewrite E by (right; left; exact not_infinite). clear E.
  assert (Hcount : forall txt evs,
            prompt_counts evs = [] ->
            prompt_counts
              (Resolved (if (rc =? 1)%nat then Start else RetryPrompt) rc txt
                 :: evs) = [rc]).
  { intros txt evs Hevs. unfold prompt_counts in *.
    destruct (rc =? 1)%nat; cbn [omap list_omap prompt_count];
      now rewrite Hevs. }
  destruct (sendable _) as [what |].
  - destruct (deliver env _ _ what) as [sent |] eqn:Hd;
      [| now apply delivers in Hd].
    rewrite logged_logged. eexists _, _. split; [reflexivity |].
    split; [| split; [| right; eauto]].
    + constructor; [reflexivity |]. constructor; [reflexivity |].
      apply no_cast_util. repeat constructor.
    + apply Hcount. unfold prompt_counts, util_events.
      destruct (message_util env); reflexivity.
  - eexists _, _. split; [reflexivity |]. split; [repeat constructor |].
    split; [now apply Hcount | now left].
Qed.


(** One turn whose reply misses: what it logs up to the cast. *)
Lemma missed_turn a rest prev rc st m :
  replies_with env message a m ->
  misses (st_store st) m ->
  exists evs,
    cast_attempts evs = 1
    /\ prompt_counts evs = [rc]
    /\ loop (a :: rest) prev rc st
       = if le_number rc (retries opts)
         then loop rest m (rc + 1) (logged st evs)
         else
           match sendClosing this env message commandInput Ended (ended opts)
                             rc m (msg_content m) (logged st evs) with
           | (Ok _, st') => (Ok (VFlag Cancel), st')
           | (Throw e, st') => (Throw e, st')
           end.
Proof.
  intros [Hnone Hsome] (Hcmd & Hcancel & Hmiss).
  destruct (sendStart_delivers prev rc st)
    as (sent & evs0 & Hsend & Hc0 & Hp0 & Hsent).
  assert (Hawait : awaitMessages (collector_filter message sent) a = Some m).
  { destruct Hsent as [-> | (log & via & what & Hd)]; [exact Hnone |].
    destruct sent as [s |]; [now apply (Hsome log via what) | exact Hnone]. }
  rewrite promptOne_sent, Hsend, Hawait, afterReply_run, Hcmd.
  rewrite cancelCheck_run, cancel_word, Hcancel.
  rewrite stopCheck_run, not_infinite.
  pose proof (castReply_run this env message commandInput values (loop rest)
                m rc) as E.
  cbv zeta in E. rewrite E. clear E.
  rewrite !logged_logged.
  change (st_store (logged st _)) with (st_store st).
  rewrite Hmiss. simpl is_nullish. cbv iota.
  eexists. split; [| split; [| reflexivity]].
  - rewrite !cast_attempts_app.
    rewrite (cast_attempts_no_cast _ Hc0).
    rewrite (cast_attempts_no_cast (breakout_events this m))
      by apply no_cast_breakout.
    rewrite (cast_attempts_no_cast (Awaited _ _ :: _))
      by (apply no_cast_await, no_cast_util; repeat constructor).
    reflexivity.
  - unfold prompt_counts in *. rewrite !omap_app, Hp0.
    unfold util_events, breakout_events.
    destruct (message_util env), (flag (breakout opts)); reflexivity.
Qed.


End Exhaustion.



(** * The claims on a concrete handler *)

(** The examples of the specification: without prompt, [42] is cast to
    42 and [abc] gives the default; the replies [1], [2], [stop] to an
    infinite prompt give the array of 1 and 2; with the limit 3 the
    replies [1], [2], [3] give the array of 1, 2 and 3 and the fourth
    reply is not awaited. *)
Example integer_without_prompt :
  process Fixture.plain_arg Fixture.channel [] "42" Fixture.message Fixture.st0
  = (Ok (VNum 42), logged Fixture.st0 [Casted "42" (Ok (VNum 42))])
  /\ process Fixture.plain_arg Fixture.channel [] "abc" Fixture.message
             Fixture.st0
     = (Ok (VNum 0), logged Fixture.st0 [Casted "abc" (Ok VNull)]).
Proof. split; reflexivity. Qed.

Example infinite_prompt_stopped :
  fst Fixture.stopped_run = Ok (VRef 1%positive)
  /\ s_heap (st_store (snd Fixture.stopped_run)) !! 1%positive
     = Some [VNum 1; VNum 2].
Proof. split; reflexivity. Qed.

Example infinite_prompt_limit_reached :
  fst Fixture.limit_run = Ok (VRef 1%positive)
  /\ s_heap (st_store (snd Fixture.limit_run)) !! 1%positive
     = Some [VNum 1; VNum 2; VNum 3]
  /\ cast_attempts (st_log (snd Fixture.limit_run)) = 3.
Proof. repeat split; reflexivity. Qed.

(** C5 on a reply that is the cancel word and parses as a command. *)
Lemma breakout_precedes_cancel_stop_and_cast_witness :
  Str.ieq "!quit" "!quit" = true
  /\ collect (Fixture.number_arg Fixture.quit_prompt) Fixture.channel
             [Fixture.reply "r1" "!quit"] Fixture.message "" Fixture.st0
     = returns (Fixture.number_arg Fixture.quit_prompt) Fixture.channel
         Fixture.message
         (Ok (VFlag (Retry (mkMessage "r1" "c" "u" "!quit"))),
          logged (entered (Fixture.number_arg Fixture.quit_prompt)
                          Fixture.message "" Fixture.st0)
            [ Resolved Start 1 (TString "start?");
              Sent ViaChannel "start?"
                   (mkMessage "bot-start?" "c" "bot" "start?");
              Awaited (Some 30000%N) (Some (mkMessage "r1" "c" "u" "!quit"));
              Parsed (mkMessage "r1" "c" "u" "!quit") true ]).
Proof.
  split; [reflexivity |].
  apply (breakout_precedes_cancel_stop_and_cast
           (Fixture.number_arg Fixture.quit_prompt) Fixture.channel
           Fixture.message "" [Fixture.reply "r1" "!quit"] Fixture.st0
           (Fixture.reply "r1" "!quit") [] Fixture.message 1
           (entered (Fixture.number_arg Fixture.quit_prompt) Fixture.message ""
                    Fixture.st0)
           (logged (entered (Fixture.number_arg Fixture.quit_prompt)
                            Fixture.message "" Fixture.st0)
              [ Resolved Start 1 (TString "start?");
                Sent ViaChannel "start?"
                     (mkMessage "bot-start?" "c" "bot" "start?") ])
           (Some (mkMessage "bot-start?" "c" "bot" "start?"))
           (mkMessage "r1" "c" "u" "!quit")).
  - reflexivity.
  - reflexivity.
  - reflexivity.
  - reflexivity.
  - reflexivity.
Defined.



(** C7 on a phrase of blanks. *)
Lemma optional_empty_phrase_returns_default_witness :
  Str.trim "   " = ""
  /\ process (Fixture.number_arg Fixture.optional_prompt) Fixture.channel
             [Fixture.reply "r1" "7"] "   " Fixture.message Fixture.st0
     = (Ok (VNum 0), Fixture.st0).
Proof.
  split; [reflexivity |].
  apply (optional_empty_phrase_returns_default
           (Fixture.number_arg Fixture.optional_prompt) Fixture.channel
           [Fixture.reply "r1" "7"] "   " Fixture.message Fixture.st0).
  - reflexivity.
  - left. exists Fixture.optional_prompt. split; reflexivity.
Defined.

(** C8 on a session seeded by the phrase [abc]. *)
Lemma start_text_only_on_first_turn_without_seed_witness :
  exists evs,
    st_log (snd (collect (Fixture.number_arg (Fixture.with_retries 1))
                         Fixture.channel [Fixture.reply "r1" "7"]
                         Fixture.message "abc" Fixture.st0))
    = Registered "c" "u" :: Resolved RetryPrompt 2 (TString "retry?") :: evs
    /\ no_start evs.
Proof.
  exact (start_text_only_on_first_turn_without_seed
           (Fixture.number_arg (Fixture.with_retries 1)) Fixture.channel
           [Fixture.reply "r1" "7"] Fixture.message "abc" Fixture.st0
           (Ok (VNum 7))
           (snd (collect (Fixture.number_arg (Fixture.with_retries 1))
                         Fixture.channel [Fixture.reply "r1" "7"]
                         Fixture.message "abc" Fixture.st0))
           eq_refl).
Defined.

(** C10 on the replies [1], [2], [stop]. *)
Lemma infinite_values_stay_visible_in_args_witness :
  isInfinite (Fixture.number_arg (Fixture.infinite_up_to 3)) "" = true
  /\ exists evs,
       st_log (snd Fixture.stopped_run) = evs
       /\ s_args (st_store (snd Fixture.stopped_run)) !! "n"
          = Some (VRef 1%positive)
       /\ s_heap (st_store (snd Fixture.stopped_run)) !! 1%positive
          = Some (accepted evs).
Proof.
  split; [reflexivity |].
  destruct (infinite_values_stay_visible_in_args
              (Fixture.number_arg (Fixture.infinite_up_to 3)) Fixture.channel
              [Fixture.reply "r1" "1"; Fixture.reply "r2" "2";
               Fixture.reply "r3" "stop"]
              Fixture.message "" Fixture.st0 (Ok (VRef 1%positive))
              (snd Fixture.stopped_run) eq_refl eq_refl)
    as (_ & _ & _ & evs & Hlog & Hargs & Hheap & _).
  exists evs. split; [exact Hlog |]. split; [exact Hargs | exact Hheap].
Defined.


(** * More properties of [Argument.cast] and the combinators *)

Lemma some_alias_existsb ts s :
  some_alias ts (VStr s) = Ok (existsb (fun t => Str.ieq t s) ts).
Proof.
  induction ts as [| t ts IH]; [reflexivity |].
  simpl. unfold Str.ieq at 1.
  destruct (String.eqb (Str.toLowerCase t) (Str.toLowerCase s));
    [reflexivity |].
  exact IH.
Qed.

(** X1: an array type gives the first entry, in the order of the array,
    that matches the phrase up to case: the entry as the array spells it,
    or the first alias of a matching alias group; it gives null when no
    entry matches. *)
Theorem array_type_first_matching_entry
    (resolver : TypeResolver) (message : Message) (args : store)
    (entries : list entry) (s : string) :
  cast (TArray entries) resolver (VStr s) message args
  = Ok match List.find (entry_matches s) entries with
       | Some (EStr t) => VStr t
       | Some (EAliases (t :: _)) => VStr t
       | _ => VNull
       end.
Proof.
  simpl. induction entries as [| e entries IH]; [reflexivity |].
  destruct e as [t | ts]; simpl.
  - unfold Str.ieq.
    destruct (String.eqb (Str.toLowerCase t) (Str.toLowerCase s));
      [reflexivity | exact IH].
  - rewrite some_alias_existsb. simpl.
    destruct (existsb (fun t => Str.ieq t s) ts) eqn:Hex; [| exact IH].
    destruct ts as [| t ts]; [discriminate Hex | reflexivity].
Qed.

(** X2: an array type does not see the case of the phrase: two phrases
    with the same lower-case form cast to the same result. *)
Theorem array_type_ignores_case
    (resolver : TypeResolver) (message : Message) (args : store)
    (entries : list entry) (s s' : string) :
  Str.toLowerCase s = Str.toLowerCase s' ->
  cast (TArray entries) resolver (VStr s) message args
  = cast (TArray entries) resolver (VStr s') message args.
Proof.
  intros Hs. simpl. induction entries as [| e entries IH]; [reflexivity |].
  destruct e as [t | ts]; simpl.
  - rewrite Hs, IH. reflexivity.
  - assert (Hsome : some_alias ts (VStr s) = some_alias ts (VStr s')).
    { clear IH. induction ts as [| t ts IHts]; [reflexivity |].
      simpl. now rewrite Hs, IHts. }
    rewrite Hsome, IH. reflexivity.
Qed.

Lemma array_type_ignores_case_witness :
  Str.toLowerCase "YES" = Str.toLowerCase "yes"
  /\ cast (TArray [EAliases ["y"; "yes"]; EStr "no"]) Fixture.resolver
          (VStr "YES") Fixture.message (mkStore ∅ ∅)
     = cast (TArray [EAliases ["y"; "yes"]; EStr "no"]) Fixture.resolver
            (VStr "yes") Fixture.message (mkStore ∅ ∅).
Proof.
  split; [reflexivity |].
  apply (array_type_ignores_case Fixture.resolver Fixture.message
           (mkStore ∅ ∅) [EAliases ["y"; "yes"]; EStr "no"] "YES" "yes").
  reflexivity.
Defined.

(** ** [tuple] and [union] *)

Lemma tuple_loop_spec r phrase message args types :
  forall results vs,
    tuple_loop types results (ThisArgument r) phrase message args
    = Ok (VArr vs)
    <-> exists vs', vs = (results ++ vs')%list
                    /\ Forall2 (entry_hits r phrase message args) types vs'.
Proof.
  induction types as [| t types IH]; intros results vs; simpl.
  - split.
    + intros [= <-]. exists []. split; [now rewrite app_nil_r | constructor].
    + intros (vs' & -> & H). inversion H. now rewrite app_nil_r.
  - destruct (cast t r phrase message args) as [res | e] eqn:Hc; simpl.
    + destruct (is_nullish res) eqn:Hn.
      * split; [discriminate |].
        intros (vs' & _ & H). inversion H as [| ? ? ? ? [Ht Hv] ]; subst.
        unfold entry_hits in *. congruence.
      * rewrite IH. split.
        -- intros (vs' & -> & H). exists (res :: vs'). split.
           ++ now rewrite <- app_assoc.
           ++ constructor; [now split | exact H].
        -- intros (vs' & -> & H).
           inversion H as [| ? v' ? vs'' [Ht Hv] Hrest]; subst.
           assert (v' = res) as -> by congruence.
           exists vs''. split; [now rewrite <- app_assoc | exact Hrest].
    + split; [discriminate |].
      intros (vs' & _ & H). inversion H as [| ? ? ? ? [Ht Hv] ]; subst.
      congruence.
Qed.

(** X3: called on an argument, a tuple type gives an array exactly when
    every entry casts the phrase to a value that is not void: the array
    holds these values, one for each entry, in the order of the entries. *)
Theorem tuple_array_of_all_results
    (r : TypeResolver) (message : Message) (args : store)
    (types : list type) (phrase : value) (vs : list value) :
  fn_body (tuple types) (ThisArgument r) phrase message args = Ok (VArr vs)
  <-> Forall2 (entry_hits r phrase message args) types vs.
Proof.
  simpl. rewrite tuple_loop_spec. simpl. split.
  - intros (vs' & -> & H). exact H.
  - intros H. now exists vs.
Qed.

(** X4: a tuple type stops at the first entry that misses: it gives null
    and the entries after it are not cast at all, so what they would do
    (give a value, miss or throw) does not matter. *)
Theorem tuple_stops_at_first_miss
    (r : TypeResolver) (message : Message) (args : store)
    (before after : list type) (t : type) (phrase : value)
    (vs : list value) :
  Forall2 (entry_hits r phrase message args) before vs ->
  entry_misses r phrase message args t ->
  fn_body (tuple (before ++ t :: after)) (ThisArgument r) phrase message args
  = Ok VNull.
Proof.
  intros Hb Ht. simpl.
  generalize (@nil value) as results.
  induction Hb as [| t' v before vs [Hc Hv] _ IH]; intros results; simpl.
  - unfold entry_misses in Ht. rewrite Ht. reflexivity.
  - rewrite Hc. simpl. rewrite Hv. apply IH.
Qed.

Lemma tuple_stops_at_first_miss_witness :
  fn_body (tuple ([TName "integer"] ++ TArray [EStr "a"]
                    :: [TFunction (mkFun None (fun _ _ _ _ =>
                                     Throw (UserError "never called")))]))
          (ThisArgument Fixture.resolver) (VStr "7") Fixture.message
          (mkStore ∅ ∅)
  = Ok VNull.
Proof.
  apply (tuple_stops_at_first_miss Fixture.resolver Fixture.message
           (mkStore ∅ ∅) [TName "integer"] _ (TArray [EStr "a"]) (VStr "7")
           [VNum 7]).
  - repeat constructor.
  - reflexivity.
Defined.

(** X5: called on an argument, a union type gives the value of the first
    entry that does not miss, whatever the entries after it would do, and
    it gives null exactly when every entry misses. The entries are cast
    as they are given: a function entry is called with no receiver. *)
Theorem union_first_value_or_null
    (r : TypeResolver) (message : Message) (args : store)
    (types : list type) (phrase : value) :
  (forall before t after v,
     types = (before ++ t :: after)%list ->
     Forall (entry_misses r phrase message args) before ->
     entry_hits r phrase message args t v ->
     fn_body (union types) (ThisArgument r) phrase message args = Ok v)
  /\ (fn_body (union types) (ThisArgument r) phrase message args = Ok VNull
      <-> Forall (entry_misses r phrase message args) types).
Proof.
  split.
  - intros before t after v -> Hb [Ht Hv]. simpl.
    now apply union_first_hit.
  - simpl. split.
    + induction types as [| t types IH]; [constructor |].
      simpl. destruct (cast t r phrase message args) as [res | e] eqn:Hc;
        simpl; [| discriminate].
      destruct (is_nullish res) eqn:Hn; simpl.
      * intros H. constructor; [| now apply IH].
        unfold entry_misses. rewrite Hc. f_equal.
        now apply (nullish_cast_is_null r message args t phrase).
      * intros [= ->]. discriminate Hn.
    + apply union_all_miss.
Qed.

Lemma reads_this_throws f phrase message args :
  reads_this f ->
  call f phrase message args
  = Throw (TypeError "Cannot read property 'handler' of undefined").
Proof. intros []; reflexivity. Qed.

(** X6: [union] and [tuple] never bind their entries, so an entry made
    by a combinator that reads [this.handler] ([validate], [compose],
    [range], and [union] or [tuple] of at least one type) throws a
    TypeError as soon as the loop reaches it: in a union when every entry
    before it misses, in a tuple when every entry before it gives a
    value. *)
Theorem nested_combinator_entry_throws
    (r : TypeResolver) (message : Message) (args : store)
    (before after : list type) (f : jsfun) (phrase : value)
    (vs : list value) :
  reads_this f ->
  (Forall (entry_misses r phrase message args) before ->
   fn_body (union (before ++ TFunction f :: after)) (ThisArgument r) phrase
           message args
   = Throw (TypeError "Cannot read property 'handler' of undefined"))
  /\ (Forall2 (entry_hits r phrase message args) before vs ->
      fn_body (tuple (before ++ TFunction f :: after)) (ThisArgument r) phrase
              message args
      = Throw (TypeError "Cannot read property 'handler' of undefined")).
Proof.
  intros Hf. split.
  - intros Hb. simpl. induction Hb as [| t before Ht _ IH]; simpl.
    + now rewrite (reads_this_throws f phrase message args Hf).
    + unfold entry_misses in Ht. rewrite Ht. exact IH.
  - intros Hb. simpl. generalize (@nil value) as results.
    induction Hb as [| t v before vs' [Hc Hv] _ IH]; intros results; simpl.
    + now rewrite (reads_this_throws f phrase message args Hf).
    + rewrite Hc. simpl. rewrite Hv. apply IH.
Qed.

Lemma nested_combinator_entry_throws_witness :
  fn_body (union ([TArray [EStr "a"]]
                    ++ TFunction Fixture.positive_integer :: [TName "string"]))
          (ThisArgument Fixture.resolver) (VStr "5") Fixture.message
          (mkStore ∅ ∅)
  = Throw (TypeError "Cannot read property 'handler' of undefined").
Proof.
  apply (nested_combinator_entry_throws Fixture.resolver Fixture.message
           (mkStore ∅ ∅) [TArray [EStr "a"]] [TName "string"]
           Fixture.positive_integer (VStr "5") []).
  - apply reads_validate.
  - repeat constructor.
Defined.

(** ** [validate], [range] and [compose] *)

(** X7: what [validate] gives on an argument is null, or the very value
    that its type gives for the phrase, and then the predicate holds of
    that value. *)
Theorem validate_gives_a_valid_value_or_null
    (r : TypeResolver) (message : Message) (args : store) (t : type)
    (predicate : receiver -> value -> value -> Message -> store -> bool)
    (phrase v : value) :
  let this := ThisArgument r in
  fn_body (validate t predicate) this phrase message args = Ok v ->
  v = VNull
  \/ (cast (bind_type t this) r phrase message args = Ok v
      /\ is_nullish v = false
      /\ predicate this v phrase message args = true).
Proof.
  intros this. simpl.
  destruct (cast (bind_type t this) r phrase message args) as [res | e];
    simpl; [| discriminate].
  destruct (is_nullish res) eqn:Hn.
  - intros [= <-]. now left.
  - destruct (predicate this res phrase message args) eqn:Hp; simpl.
    + intros [= <-]. right. repeat split; auto.
    + intros [= <-]. now left.
Qed.

Lemma validate_gives_a_valid_value_or_null_witness :
  fn_body (validate (TName "integer")
             (fun _ res _ _ _ =>
                match res with VNum n => (0 <? n)%Z | _ => false end))
          (ThisArgument Fixture.resolver) (VStr "5") Fixture.message
          (mkStore ∅ ∅)
  = Ok (VNum 5)
  /\ (VNum 5 = VNull
      \/ (cast (bind_type (TName "integer") (ThisArgument Fixture.resolver))
                Fixture.resolver (VStr "5") Fixture.message (mkStore ∅ ∅)
          = Ok (VNum 5)
          /\ is_nullish (VNum 5) = false
          /\ (0 <? 5)%Z = true)).
Proof.
  split; [reflexivity |].
  apply (validate_gives_a_valid_value_or_null Fixture.resolver Fixture.message
           (mkStore ∅ ∅) (TName "integer")
           (fun _ res _ _ _ =>
              match res with VNum n => (0 <? n)%Z | _ => false end)
           (VStr "5") (VNum 5)).
  reflexivity.
Defined.

Lemma non_void_value v : is_nullish v = false -> non_void v = v.
Proof. unfold non_void. now intros ->. Qed.

(** X8: [validate] binds the type it is given, so validations nest:
    validating a validated type is validating the type with both
    predicates, the inner one first. *)
Theorem validate_of_validate
    (message : Message) (args : store) (t : type)
    (p q : receiver -> value -> value -> Message -> store -> bool)
    (this : receiver) (phrase : value) :
  fn_body (validate (TFunction (validate t p)) q) this phrase message args
  = fn_body (validate t (fun this' res phrase' message' args' =>
                           p this' res phrase' message' args'
                           && q this' res phrase' message' args'))
            this phrase message args.
Proof.
  destruct this as [| r]; [reflexivity |].
  simpl. unfold call. simpl.
  destruct (cast (bind_type t (ThisArgument r)) r phrase message args)
    as [res | e]; simpl; [| reflexivity].
  destruct (is_nullish res) eqn:Hn; simpl; [reflexivity |].
  destruct (p (ThisArgument r) res phrase message args); simpl; [| reflexivity].
  rewrite (non_void_value _ Hn), Hn. reflexivity.
Qed.

Lemma Qle_bool_inject_Z a b :
  QArith_base.Qle_bool (QArith_base.inject_Z a) (QArith_base.inject_Z b)
  = (a <=? b)%Z.
Proof.
  unfold QArith_base.Qle_bool, QArith_base.inject_Z. simpl.
  now rewrite !Z.mul_1_r.
Qed.

(** X9: on a type that casts the phrase to the number [n],
    [range(type, a, b)] gives [n] when [a <= n < b] and null otherwise;
    with [inclusive] set the upper bound is [n <= b]. *)
Theorem range_of_numbers
    (coerce : value -> jsnum) (r : TypeResolver) (message : Message)
    (args : store) (t : type) (a b n : Z) (inclusive : option bool)
    (phrase : value) :
  let this := ThisArgument r in
  cast (bind_type t this) r phrase message args = Ok (VNum n) ->
  fn_body (range coerce t (Num (QArith_base.inject_Z a))
                 (Num (QArith_base.inject_Z b)) inclusive)
          this phrase message args
  = Ok (if (a <=? n)%Z
           && (if default false inclusive then (n <=? b)%Z else (n <? b)%Z)
        then VNum n else VNull).
Proof.
  intros this Hc. unfold range. simpl. fold this. rewrite Hc. simpl.
  rewrite !Qle_bool_inject_Z.
  replace (negb (b <=? n)%Z) with (n <? b)%Z
    by (rewrite Z.ltb_antisym; reflexivity).
  destruct (a <=? n)%Z; simpl; [| reflexivity].
  destruct (default false inclusive);
    [destruct (n <=? b)%Z | destruct (n <? b)%Z]; reflexivity.
Qed.

Lemma range_of_numbers_witness :
  cast (TName "integer") Fixture.resolver (VStr "10") Fixture.message
       (mkStore ∅ ∅) = Ok (VNum 10)
  /\ fn_body (range (fun _ => NaN) (TName "integer")
                 (Num (QArith_base.inject_Z 1)) (Num (QArith_base.inject_Z 10))
                 None)
          (ThisArgument Fixture.resolver) (VStr "10") Fixture.message
          (mkStore ∅ ∅)
     = Ok VNull.
Proof.
  split; [reflexivity |].
  apply (range_of_numbers (fun _ => NaN) Fixture.resolver Fixture.message
           (mkStore ∅ ∅) (TName "integer") 1 10 10 None (VStr "10")).
  reflexivity.
Defined.

Lemma num_le_lt_trans lo x hi :
  num_le lo x = true -> num_lt x hi = true -> num_lt lo hi = true.
Proof.
  destruct lo as [| | a |], x as [| | q |], hi as [| | b |]; simpl;
    try discriminate; try reflexivity.
  intros Hle Hlt. apply QArith_base.Qle_bool_iff in Hle.
  apply negb_true_iff in Hlt. apply negb_true_iff.
  destruct (QArith_base.Qle_bool b a) eqn:Hba; [| reflexivity].
  apply QArith_base.Qle_bool_iff in Hba.
  assert (Hbq : QArith_base.Qle b q)
    by (eapply QArith_base.Qle_trans; eassumption).
  apply QArith_base.Qle_bool_iff in Hbq. congruence.
Qed.

Lemma num_le_trans lo x hi :
  num_le lo x = true -> num_le x hi = true -> num_le lo hi = true.
Proof.
  destruct lo as [| | a |], x as [| | q |], hi as [| | b |]; simpl;
    try discriminate; try reflexivity.
  intros H1 H2. apply QArith_base.Qle_bool_iff in H1, H2.
  apply QArith_base.Qle_bool_iff. eapply QArith_base.Qle_trans; eassumption.
Qed.

(** X10: a range whose bounds leave no number between them gives no
    value, whatever the type and the phrase: [min < max] must hold for
    the default exclusive range and [min <= max] for an inclusive one (a
    bound that is NaN never does). *)
Theorem empty_range_gives_no_value
    (coerce : value -> jsnum) (message : Message) (args : store) (t : type)
    (lo hi : jsnum) (inclusive : option bool) (this : receiver)
    (phrase : value) :
  (if default false inclusive then num_le lo hi else num_lt lo hi) = false ->
  match fn_body (range coerce t lo hi inclusive) this phrase message args with
  | Ok v => v = VNull
  | Throw _ => True
  end.
Proof.
  intros Hempty. unfold range. simpl.
  destruct (this_handler_resolver this) as [r | e]; simpl; [| exact I].
  destruct (cast (bind_type t this) r phrase message args) as [res | e];
    simpl; [| exact I].
  destruct (is_nullish res); [reflexivity |].
  destruct (num_le lo (ToNumber coerce res)) eqn:Hlo; simpl; [| reflexivity].
  destruct (default false inclusive).
  - destruct (num_le (ToNumber coerce res) hi) eqn:Hhi; simpl;
      [| reflexivity].
    rewrite (num_le_trans _ _ _ Hlo Hhi) in Hempty. discriminate.
  - destruct (num_lt (ToNumber coerce res) hi) eqn:Hhi; simpl;
      [| reflexivity].
    rewrite (num_le_lt_trans _ _ _ Hlo Hhi) in Hempty. discriminate.
Qed.

(** X10 on [range('integer', 5, 5)] and the phrase [5]. *)
Lemma empty_range_gives_no_value_witness :
  num_lt (Num (QArith_base.inject_Z 5)) (Num (QArith_base.inject_Z 5)) = false
  /\ match fn_body (range (fun _ => NaN) (TName "integer")
                          (Num (QArith_base.inject_Z 5))
                          (Num (QArith_base.inject_Z 5)) None)
                   (ThisArgument Fixture.resolver) (VStr "5") Fixture.message
                   (mkStore ∅ ∅) with
     | Ok v => v = VNull
     | Throw _ => True
     end.
Proof.
  split; [reflexivity |].
  apply (empty_range_gives_no_value (fun _ => NaN) Fixture.message
           (mkStore ∅ ∅) (TName "integer")
           (Num (QArith_base.inject_Z 5)) (Num (QArith_base.inject_Z 5)) None
           (ThisArgument Fixture.resolver) (VStr "5")).
  reflexivity.
Defined.

Lemma cast_non_void_id t r phrase message args :
  obind (cast t r phrase message args) (fun res => Ok (non_void res))
  = cast t r phrase message args.
Proof.
  destruct (cast t r phrase message args) as [v | e] eqn:Hc; [| reflexivity].
  simpl. f_equal. unfold non_void.
  destruct (is_nullish v) eqn:Hn; [| reflexivity].
  symmetry. now apply (nullish_cast_is_null r message args t phrase).
Qed.

(** X11: [compose] binds both of its types, so compositions nest, and
    nesting them on the left or on the right gives the same caster: with
    the same [ignoreVoid], composing [type1] and [type2] and then [type3]
    casts as composing [type1] with the composition of [type2] and
    [type3], for every receiver and every phrase. *)
Theorem compose_is_associative
    (message : Message) (args : store) (type1 type2 type3 : type)
    (ignoreVoid : bool) (this : receiver) (phrase : value) :
  fn_body (compose (TFunction (compose type1 type2 ignoreVoid)) type3
                   ignoreVoid)
          this phrase message args
  = fn_body (compose type1 (TFunction (compose type2 type3 ignoreVoid))
                     ignoreVoid)
            this phrase message args.
Proof.
  destruct this as [| r]; [reflexivity |].
  simpl. unfold call. simpl.
  destruct (cast (bind_type type1 (ThisArgument r)) r phrase message args)
    as [v1 | e1]; simpl; [| reflexivity].
  destruct (is_nullish v1 && negb ignoreVoid) eqn:Hskip; simpl.
  - destruct ignoreVoid; [now rewrite andb_false_r in Hskip | reflexivity].
  - destruct (cast (bind_type type2 (ThisArgument r)) r v1 message args)
      as [v2 | e2] eqn:Hc2; simpl; [| reflexivity].
    assert (Hv2 : non_void v2 = v2).
    { unfold non_void. destruct (is_nullish v2) eqn:Hn; [| reflexivity].
      symmetry.
      now apply (nullish_cast_is_null r message args
                   (bind_type type2 (ThisArgument r)) v1). }
    rewrite Hv2.
    destruct (is_nullish v2 && negb ignoreVoid) eqn:Hskip2; simpl.
    + reflexivity.
    + now rewrite cast_non_void_id.
Qed.

(** * Properties of [process] *)

Lemma trimStart_idempotent s :
  Str.trimStart (Str.trimStart s) = Str.trimStart s.
Proof.
  induction s as [| c r IH]; [reflexivity |].
  simpl. destruct (Str.is_white c) eqn:Hc; [exact IH |].
  simpl. now rewrite Hc.
Qed.

Lemma trimEnd_idempotent s : Str.trimEnd (Str.trimEnd s) = Str.trimEnd s.
Proof.
  induction s as [| c r IH]; [reflexivity |].
  simpl. destruct (Str.trimEnd r) as [| c' r'] eqn:Hr.
  - destruct (Str.is_white c) eqn:Hc; [reflexivity |].
    simpl. now rewrite Hc.
  - simpl. simpl in IH. now rewrite IH.
Qed.

Lemma trimStart_trimEnd s :
  Str.trimStart (Str.trimEnd (Str.trimStart s))
  = Str.trimEnd (Str.trimStart s).
Proof.
  induction s as [| c r IH]; [reflexivity |].
  simpl. destruct (Str.is_white c) eqn:Hc; [exact IH |].
  simpl. destruct (Str.trimEnd r); rewrite ?Hc; simpl; now rewrite Hc.
Qed.

Lemma trim_idempotent s : Str.trim (Str.trim s) = Str.trim s.
Proof.
  unfold Str.trim. now rewrite trimStart_trimEnd, trimEnd_idempotent.
Qed.

(** X12: [process] only sees the phrase without the white space around
    it: a phrase and its trimmed form are processed alike, with the same
    result, the same prompts and the same final state. *)
Theorem process_ignores_surrounding_space
    (this : Argument) (env : Transport) (inbox : list arrival)
    (phrase : string) (message : Message) (st : state) :
  process this env inbox phrase message st
  = process this env inbox (Str.trim phrase) message st.
Proof. unfold process. now rewrite trim_idempotent. Qed.

(** X13: an argument with no [prompt] option of its own never prompts,
    also when its command or its handler has a default prompt: [process]
    casts the phrase at most once and does nothing else (nothing is
    registered, sent or awaited, the arguments are left alone), and a
    phrase that misses gives the default value. *)
Theorem process_without_own_prompt_never_prompts
    (this : Argument) (env : Transport) (inbox : list arrival)
    (phrase : string) (message : Message) (st : state) :
  arg_prompt this = None ->
  let res := cast (arg_type this) (h_resolver (handler this))
                  (VStr (Str.trim phrase)) message (st_store st) in
  let ran := process this env inbox phrase message st in
  (snd ran = st \/ snd ran = logged st [Casted (Str.trim phrase) res])
  /\ (forall v, res = Ok v -> is_nullish v = true ->
        fst ran = match arg_default this with
                  | DValue d => Ok d
                  | DSupplier f => f message (st_store st)
                  end).
Proof.
  intros Hprompt res ran. unfold ran, process.
  destruct (negb (Str.nonempty (Str.trim phrase)) && isOptional this).
  - split; [left | intros];
      unfold resolve_default; destruct (arg_default this); reflexivity.
  - unfold bindM, Argument_cast. fold res.
    destruct res as [v | e]; [| split; [now right | discriminate]].
    destruct (is_nullish v) eqn:Hn.
    + rewrite Hprompt. unfold resolve_default.
      split; [right; destruct (arg_default this); reflexivity |].
      intros v' [= <-] _. destruct (arg_default this); reflexivity.
    + split; [now right |]. intros v' [= <-]. congruence.
Qed.

Lemma process_without_own_prompt_never_prompts_witness :
  arg_prompt Fixture.plain_arg = None
  /\ h_defaultPrompt (handler Fixture.plain_arg) = Some Fixture.defaults
  /\ snd (process Fixture.plain_arg Fixture.channel [] "abc" Fixture.message
                  Fixture.st0)
     = logged Fixture.st0 [Casted "abc" (Ok VNull)].
Proof.
  split; [reflexivity |]. split; [reflexivity |].
  destruct (process_without_own_prompt_never_prompts Fixture.plain_arg
              Fixture.channel [] "abc" Fixture.message Fixture.st0
              eq_refl) as [[H | H] _].
  - discriminate H.
  - exact H.
Defined.

(** * Properties of [collect] as a whole *)

(** X14: the prompt options that [collect] works with are merged field
    by field, and for every field the argument's own prompt goes before
    the command's default prompt, which goes before the handler's; a
    field that no layer sets stays undefined. *)
Theorem prompt_options_precedence (this : Argument) :
  let opts := promptOptions this in
  retries opts = layered retries this
  /\ time opts = layered time this
  /\ cancelWord opts = layered cancelWord this
  /\ stopWord opts = layered stopWord this
  /\ optional opts = layered optional this
  /\ infinite opts = layered infinite this
  /\ limit opts = layered limit this
  /\ breakout opts = layered breakout this
  /\ start opts = layered start this
  /\ retry opts = layered retry this
  /\ timeout opts = layered timeout this
  /\ ended opts = layered ended this
  /\ cancel opts = layered cancel this
  /\ modifyStart opts = layered modifyStart this
  /\ modifyRetry opts = layered modifyRetry this
  /\ modifyTimeout opts = layered modifyTimeout this
  /\ modifyEnded opts = layered modifyEnded this
  /\ modifyCancel opts = layered modifyCancel this.
Proof.
  unfold promptOptions, layered.
  destruct (arg_prompt this) as [own |],
           (command_defaultPrompt this) as [cmd |],
           (h_defaultPrompt (handler this)) as [hdl |];
    simpl; repeat split; unfold assign_field;
    repeat match goal with
           | |- context [match ?x with Some _ => _ | None => _ end] =>
               destruct x
           end; reflexivity.
Qed.

(** X15: a prompt that is not infinite leaves the [args] object and the
    arrays it points to exactly as they were, however the session ends;
    in particular a [separate] match with a command phrase is never
    infinite. *)
Theorem collect_leaves_args_alone_unless_infinite
    (this : Argument) (env : Transport) (inbox : list arrival)
    (message : Message) (commandInput : string) (st : state) :
  isInfinite this commandInput = false ->
  st_store (snd (collect this env inbox message commandInput st)) = st_store st.
Proof.
  intros Hinf. rewrite collect_run.
  destruct (promptOne _ _ _ _ _ _ _ _ _) as [o st1] eqn:Hrun.
  destruct (promptOne_session _ _ _ _ _ _ _ _ _ _ _ Hrun)
    as (evs & _ & _ & Hargs & _ & Hheap & _).
  specialize (Hheap Hinf).
  assert (Hstore : st_store st1 = st_store st).
  { unfold entered in Hargs, Hheap. rewrite Hinf in Hargs, Hheap.
    simpl in Hargs, Hheap.
    destruct (st_store st1), (st_store st). simpl in *. congruence. }
  destruct o as [r | e]; [| exact Hstore].
  destruct (h_commandUtil (handler this) && negb (message_util env));
    exact Hstore.
Qed.

Lemma collect_leaves_args_alone_unless_infinite_witness :
  isInfinite (Argument_new Fixture.h None "n" SEPARATE (TName "integer")
                (Some (Fixture.infinite_up_to 3)) (DValue VNull)) "abc"
  = false
  /\ st_store
       (snd (collect (Argument_new Fixture.h None "n" SEPARATE
                        (TName "integer") (Some (Fixture.infinite_up_to 3))
                        (DValue VNull))
                     Fixture.channel [Fixture.reply "r1" "7"] Fixture.message
                     "abc" Fixture.st0))
     = st_store Fixture.st0.
Proof.
  split; [reflexivity |].
  apply (collect_leaves_args_alone_unless_infinite
           (Argument_new Fixture.h None "n" SEPARATE (TName "integer")
              (Some (Fixture.infinite_up_to 3)) (DValue VNull))
           Fixture.channel [Fixture.reply "r1" "7"] Fixture.message "abc"
           Fixture.st0).
  reflexivity.
Defined.

(** X16: [collect] touches no registration but its own: whether another
    (channel, author) pair is registered is the same after [collect] as
    before, however the session ends. *)
Theorem collect_keeps_other_registrations
    (this : Argument) (env : Transport) (inbox : list arrival)
    (message : Message) (commandInput : string) (st : state)
    (pair : string * string) :
  pair <> (msg_channel message, msg_author message) ->
  pair ∈ st_prompts (snd (collect this env inbox message commandInput st))
  <-> pair ∈ st_prompts st.
Proof.
  intros Hpair. rewrite collect_run.
  destruct (promptOne _ _ _ _ _ _ _ _ _) as [o st1] eqn:Hrun.
  destruct (promptOne_session _ _ _ _ _ _ _ _ _ _ _ Hrun)
    as (evs & _ & Hprompts & _).
  assert (Hentered : pair ∈ st_prompts st1 <-> pair ∈ st_prompts st).
  { rewrite Hprompts. unfold entered. simpl.
    rewrite elem_of_union, elem_of_singleton. tauto. }
  destruct o as [r | e]; [| exact Hentered].
  destruct (h_commandUtil (handler this) && negb (message_util env));
    [exact Hentered |].
  unfold released. simpl.
  rewrite elem_of_difference, elem_of_singleton. tauto.
Qed.

Lemma collect_keeps_other_registrations_witness :
  ("c", "v")
  ∈ st_prompts
      (snd (collect (Fixture.number_arg (Fixture.with_retries 1))
                    Fixture.channel [Fixture.reply "r1" "7"] Fixture.message
                    "" (mkState {[ ("c", "v") ]} (mkStore ∅ ∅) []))).
Proof.
  apply (collect_keeps_other_registrations
           (Fixture.number_arg (Fixture.with_retries 1)) Fixture.channel
           [Fixture.reply "r1" "7"] Fixture.message ""
           (mkState {[ ("c", "v") ]} (mkStore ∅ ∅) []) ("c", "v")).
  - discriminate.
  - simpl. now apply elem_of_singleton.
Defined.

(** X17: the reply that an await gives is the first message of the
    window that the author of the command wrote and that is not the
    prompt just sent; messages of other users and the prompt itself are
    passed over. *)
Theorem await_takes_first_message_of_the_author
    (message : Message) (sentStart : option Message) (ms : list Message)
    (input : Message) :
  awaitMessages (collector_filter message sentStart) (Window ms) = Some input
  <-> exists before after,
        ms = (before ++ input :: after)%list
        /\ passes_filter message sentStart input
        /\ Forall (fun m => ~ passes_filter message sentStart m) before.
Proof.
  assert (Hfilter : forall m,
            collector_filter message sentStart m = true
            <-> passes_filter message sentStart m).
  { intros m. unfold collector_filter, passes_filter.
    destruct sentStart as [s |].
    - destruct (String.eqb_spec (msg_id m) (msg_id s)) as [Hid | Hid].
      + split; [discriminate |]. intros [_ H]. now destruct (H s eq_refl).
      + destruct (String.eqb_spec (msg_author m) (msg_author message)); simpl.
        * split; [| reflexivity]. intros _. split; [assumption |].
          intros s' [= <-]. exact Hid.
        * split; [discriminate |]. now intros [H _].
    - destruct (String.eqb_spec (msg_author m) (msg_author message)); simpl.
      + split; [| reflexivity]. intros _. split; [assumption | discriminate].
      + split; [discriminate |]. now intros [H _]. }
  simpl. induction ms as [| m ms IH]; simpl.
  - split; [discriminate |]. intros (before & after & H & _).
    now destruct before.
  - destruct (collector_filter message sentStart m) eqn:Hm.
    + split.
      * intros [= <-]. exists [], ms. split; [reflexivity |].
        split; [now apply Hfilter | constructor].
      * intros (before & after & Heq & Hin & Hb).
        destruct before as [| m' before].
        -- now injection Heq as ->.
        -- injection Heq as <- _. inversion Hb as [| ? ? Hno _]; subst.
           apply Hfilter in Hm. contradiction.
    + rewrite IH. split.
      * intros (before & after & -> & Hin & Hb).
        exists (m :: before), after. split; [reflexivity |].
        split; [exact Hin |]. constructor; [| exact Hb].
        intros Hp. apply Hfilter in Hp. congruence.
      * intros (before & after & Heq & Hin & Hb).
        destruct before as [| m' before].
        -- injection Heq as ->. apply Hfilter in Hin. congruence.
        -- injection Heq as <- ->. inversion Hb; subst.
           exists before, after.
           split; [reflexivity | split; assumption].
Qed.

(** X18: with [handler.commandUtil] set and no [message.util] on the
    message, [collect] never returns: whatever the loop ends with, the
    call [message.util.setEditable(false)] after it throws a TypeError (or
    the loop itself threw), and the prompt stays registered. *)
Theorem collect_needs_the_util_it_expects
    (this : Argument) (env : Transport) (inbox : list arrival)
    (message : Message) (commandInput : string) (st : state) :
  h_commandUtil (handler this) = true ->
  message_util env = false ->
  is_throw (fst (collect this env inbox message commandInput st)) = true
  /\ (msg_channel message, msg_author message)
     ∈ st_prompts (snd (collect this env inbox message commandInput st)).
Proof.
  intros Hutil Hmsg. rewrite collect_run, Hutil, Hmsg. simpl.
  destruct (promptOne _ _ _ _ _ _ _ _ _) as [o st1] eqn:Hrun.
  destruct (promptOne_session _ _ _ _ _ _ _ _ _ _ _ Hrun)
    as (evs & _ & Hprompts & _).
  assert (Hin : (msg_channel message, msg_author message) ∈ st_prompts st1)
    by (rewrite Hprompts; apply entered_prompts).
  destruct o as [r | e]; simpl; now split.
Qed.

Lemma collect_needs_the_util_it_expects_witness :
  is_throw
    (fst (collect (Argument_new
                     (mkHandler Fixture.resolver (Some Fixture.defaults) true
                                (fun _ => false))
                     None "n" PHRASE (TName "integer")
                     (Some (Fixture.with_retries 1)) (DValue VNull))
                  Fixture.channel [Fixture.reply "r1" "7"] Fixture.message ""
                  Fixture.st0))
  = true.
Proof.
  apply (collect_needs_the_util_it_expects
           (Argument_new (mkHandler Fixture.resolver (Some Fixture.defaults)
                            true (fun _ => false))
              None "n" PHRASE (TName "integer")
              (Some (Fixture.with_retries 1)) (DValue VNull))
           Fixture.channel [Fixture.reply "r1" "7"] Fixture.message ""
           Fixture.st0); reflexivity.
Defined.

(** * Words and bounds of the prompt options *)

Section Words.

Variable this : Argument.
Variable env : Transport.
Variable message : Message.
Variable commandInput : string.
Variable inbox0 : list arrival.
Variable st0 : state.

Local Abbreviation opts := (promptOptions this).
Local Abbreviation values := (session_values this commandInput st0).
Local Abbreviation loop := (promptOne this env message commandInput values).
Local Abbreviation session_comes_to :=
  (comes_to this env message commandInput inbox0 st0).

(** A reply that is not taken for a command goes to the cancel check. *)
Lemma reply_reaches_cancel_check a rest prev rc st st1 sent input :
  sendStart this env message commandInput values prev rc st = (Ok sent, st1) ->
  awaitMessages (collector_filter message sent) a = Some input ->
  looks_like_command this input = false ->
  loop (a :: rest) prev rc st
  = cancelCheck this env message commandInput values (loop rest) input rc
      (logged st1 (Awaited (time opts) (Some input)
                     :: util_events env [UtilAddMessage input]
                     ++ breakout_events this input)).
Proof.
  intros Hsend Hawait Hcmd.
  rewrite promptOne_sent, Hsend, Hawait, afterReply_run, Hcmd.
  now rewrite logged_logged.
Qed.

(** A reply that is neither taken for a command nor the cancel word, and
    in infinite mode not the stop word either, is cast. *)
Lemma reply_reaches_cast a rest prev rc st st1 sent input cw :
  sendStart this env message commandInput values prev rc st = (Ok sent, st1) ->
  awaitMessages (collector_filter message sent) a = Some input ->
  looks_like_command this input = false ->
  cancelWord opts = Some cw ->
  Str.ieq (msg_content input) cw = false ->
  (isInfinite this commandInput = false
   \/ exists sw, stopWord opts = Some sw
                 /\ Str.ieq (msg_content input) sw = false) ->
  loop (a :: rest) prev rc st
  = castReply this env message commandInput values (loop rest) input rc
      (logged st1 (Awaited (time opts) (Some input)
                     :: util_events env [UtilAddMessage input]
                     ++ breakout_events this input)).
Proof.
  intros Hsend Hawait Hcmd Hcw Hne Hstop.
  rewrite (reply_reaches_cancel_check _ _ _ _ _ _ _ _ Hsend Hawait Hcmd).
  rewrite cancelCheck_run, Hcw, Hne, stopCheck_run.
  destruct Hstop as [-> | (sw & -> & ->)]; [reflexivity |].
  now destruct (isInfinite this commandInput).
Qed.

(** X19: a reply that is the cancel word, whatever its case, ends the
    loop with [Cancel] once the cancel text is resolved and, if there is
    one, sent through the channel: the reply is not cast, and in infinite
    mode the values accumulated so far are not returned. The only other
    end is the exception of a transport that fails to send that text. *)
Theorem cancel_word_ends_in_cancel
    (a : arrival) (rest : list arrival) (prev : Message) (rc : nat)
    (st st1 : state) (sent : option Message) (input : Message) (cw : string) :
  session_comes_to (a :: rest) prev rc st ->
  sendStart this env message commandInput values prev rc st = (Ok sent, st1) ->
  awaitMessages (collector_filter message sent) a = Some input ->
  looks_like_command this input = false ->
  cancelWord opts = Some cw ->
  Str.toLowerCase (msg_content input) = Str.toLowerCase cw ->
  let txt :=
    text_of this message commandInput CancelPrompt (cancel opts) rc input ""
            (st_store st1) in
  let st2 := logged st1 (Awaited (time opts) (Some input)
                           :: util_events env [UtilAddMessage input]
                           ++ breakout_events this input
                           ++ [Resolved CancelPrompt rc txt]) in
  let ending :=
    match sendable txt with
    | None => (Ok (VFlag Cancel), st2)
    | Some what =>
        match deliver env (st_log st2) ViaChannel what with
        | Some sentCancel =>
            (Ok (VFlag Cancel),
             logged st2 (Sent ViaChannel what sentCancel
                           :: util_events env [UtilAddMessage sentCancel]))
        | None =>
            (Throw TransportError, logged st2 [SendFailed ViaChannel what])
        end
    end in
  loop (a :: rest) prev rc st = ending
  /\ collect this env inbox0 message commandInput st0
     = returns this env message ending.
Proof.
  intros Hcomes Hsend Hawait Hcmd Hcw Heq txt st2 ending.
  assert (Hloop : loop (a :: rest) prev rc st = ending).
  { rewrite (reply_reaches_cancel_check _ _ _ _ _ _ _ _ Hsend Hawait Hcmd).
    rewrite cancelCheck_run, Hcw.
    unfold Str.ieq. rewrite Heq, String.eqb_refl.
    pose proof (sendClosing_run this env message commandInput CancelPrompt
                  (cancel opts) rc input ""
                  (logged st1 (Awaited (time opts) (Some input)
                                 :: util_events env [UtilAddMessage input]
                                 ++ breakout_events this input))) as E.
    cbv zeta in E. rewrite E. clear E.
    change (st_store (logged st1 ?evs)) with (st_store st1).
    fold txt.
    assert (Hst2 : logged (logged st1 (Awaited (time opts) (Some input)
                                         :: util_events env
                                              [UtilAddMessage input]
                                         ++ breakout_events this input))
                          [Resolved CancelPrompt rc txt] = st2).
    { unfold st2. rewrite logged_logged. simpl.
      now rewrite <- app_assoc. }
    rewrite Hst2. unfold ending.
    destruct (sendable txt) as [what |]; [| reflexivity].
    destruct (deliver env (st_log st2) ViaChannel what); reflexivity. }
  split; [exact Hloop |].
  now apply (collect_returns _ _ _ _ _ _ _ _ _ _ _ Hcomes).
Qed.

(** X20: when no layer of the prompt options gives a cancel word, every
    reply that is not taken for a command makes [collect] throw a
    TypeError, the prompt staying registered; so does, in infinite mode,
    a reply that is not the cancel word when no layer gives a stop
    word. *)
Theorem missing_word_throws
    (a : arrival) (rest : list arrival) (prev : Message) (rc : nat)
    (st st1 : state) (sent : option Message) (input : Message) :
  session_comes_to (a :: rest) prev rc st ->
  sendStart this env message commandInput values prev rc st = (Ok sent, st1) ->
  awaitMessages (collector_filter message sent) a = Some input ->
  looks_like_command this input = false ->
  (cancelWord opts = None
   \/ (isInfinite this commandInput = true /\ stopWord opts = None
       /\ exists cw, cancelWord opts = Some cw
                     /\ Str.ieq (msg_content input) cw = false)) ->
  let st2 := logged st1 (Awaited (time opts) (Some input)
                           :: util_events env [UtilAddMessage input]
                           ++ breakout_events this input) in
  collect this env inbox0 message commandInput st0
  = (Throw (TypeError "Cannot read property 'toLowerCase' of undefined"), st2)
  /\ (msg_channel message, msg_author message) ∈ st_prompts st2.
Proof.
  intros Hcomes Hsend Hawait Hcmd Hword st2.
  assert (Hloop : loop (a :: rest) prev rc st
                  = (Throw (TypeError
                              "Cannot read property 'toLowerCase' of undefined"),
                     st2)).
  { rewrite (reply_reaches_cancel_check _ _ _ _ _ _ _ _ Hsend Hawait Hcmd).
    rewrite cancelCheck_run.
    destruct Hword as [-> | (Hinf & Hsw & cw & -> & ->)]; [reflexivity |].
    now rewrite stopCheck_run, Hinf, Hsw. }
  split.
  - now rewrite (collect_returns _ _ _ _ _ _ _ _ _ _ _ Hcomes Hloop).
  - unfold comes_to in Hcomes. rewrite Hloop in Hcomes.
    destruct (promptOne_session _ _ _ _ _ _ _ _ _ _ _ Hcomes)
      as (evs & _ & Hprompts & _).
    rewrite Hprompts. apply entered_prompts.
Qed.

(** X21: when no layer of the prompt options gives [retries], the bound
    [retryCount <= retries] never holds: the first reply that misses the
    cast ends the loop, with the ended text and [Cancel], at whatever
    [retryCount] the turn is. *)
Theorem unset_retries_end_at_first_miss
    (a : arrival) (rest : list arrival) (prev : Message) (rc : nat)
    (st st1 : state) (sent : option Message) (input : Message) (cw : string)
    (v : value) :
  session_comes_to (a :: rest) prev rc st ->
  sendStart this env message commandInput values prev rc st = (Ok sent, st1) ->
  awaitMessages (collector_filter message sent) a = Some input ->
  looks_like_command this input = false ->
  cancelWord opts = Some cw ->
  Str.ieq (msg_content input) cw = false ->
  (isInfinite this commandInput = false
   \/ exists sw, stopWord opts = Some sw
                 /\ Str.ieq (msg_content input) sw = false) ->
  cast (arg_type this) (h_resolver (handler this)) (VStr (msg_content input))
       input (st_store st1) = Ok v ->
  is_nullish v = true ->
  retries opts = None ->
  let txt :=
    text_of this message commandInput Ended (ended opts) rc input
            (msg_content input) (st_store st1) in
  let st2 := logged st1 (Awaited (time opts) (Some input)
                           :: util_events env [UtilAddMessage input]
                           ++ breakout_events this input
                           ++ [Casted (msg_content input) (Ok v);
                               Resolved Ended rc txt]) in
  let ending :=
    match sendable txt with
    | None => (Ok (VFlag Cancel), st2)
    | Some what =>
        match deliver env (st_log st2) ViaChannel what with
        | Some sentEnded =>
            (Ok (VFlag Cancel),
             logged st2 (Sent ViaChannel what sentEnded
                           :: util_events env [UtilAddMessage sentEnded]))
        | None =>
            (Throw TransportError, logged st2 [SendFailed ViaChannel what])
        end
    end in
  loop (a :: rest) prev rc st = ending
  /\ collect this env inbox0 message commandInput st0
     = returns this env message ending.
Proof.
  intros Hcomes Hsend Hawait Hcmd Hcw Hne Hstop Hcast Hv Hretries txt st2
    ending.
  assert (Hloop : loop (a :: rest) prev rc st = ending).
  { rewrite (reply_reaches_cast _ _ _ _ _ _ _ _ _ Hsend Hawait Hcmd Hcw Hne
               Hstop).
    pose proof (castReply_run this env message commandInput values
                  (loop rest) input rc
                  (logged st1 (Awaited (time opts) (Some input)
                                 :: util_events env [UtilAddMessage input]
                                 ++ breakout_events this input))) as E.
    cbv zeta in E. rewrite E. clear E.
    change (st_store (logged st1 ?evs)) with (st_store st1).
    rewrite Hcast, Hv, Hretries. simpl le_number. cbv iota.
    pose proof (sendClosing_run this env message commandInput Ended
                  (ended opts) rc input (msg_content input)
                  (logged
                     (logged st1 (Awaited (time opts) (Some input)
                                    :: util_events env [UtilAddMessage input]
                                    ++ breakout_events this input))
                     [Casted (msg_content input) (Ok v)])) as E.
    cbv zeta in E. rewrite E. clear E.
    change (st_store (logged (logged st1 ?evs) ?evs')) with (st_store st1).
    fold txt.
    assert (Hst2 : logged
                     (logged
                        (logged st1 (Awaited (time opts) (Some input)
                                       :: util_events env
                                            [UtilAddMessage input]
                                       ++ breakout_events this input))
                        [Casted (msg_content input) (Ok v)])
                     [Resolved Ended rc txt] = st2).
    { unfold st2. rewrite !logged_logged. simpl.
      now rewrite <- !app_assoc. }
    rewrite Hst2. unfold ending.
    destruct (sendable txt) as [what |]; [| reflexivity].
    destruct (deliver env (st_log st2) ViaChannel what); reflexivity. }
  split; [exact Hloop |].
  now apply (collect_returns _ _ _ _ _ _ _ _ _ _ _ Hcomes).
Qed.

(** X22: when no layer of the prompt options gives [limit], the bound
    [values.length < limit] never holds: an infinite prompt pushes the
    value it accepts and returns the array at once: no second value is
    awaited. *)
Theorem unset_limit_returns_after_one_value
    (a : arrival) (rest : list arrival) (prev : Message) (rc : nat)
    (st st1 : state) (sent : option Message) (input : Message) (cw sw : string)
    (l : loc) (v : value) :
  session_comes_to (a :: rest) prev rc st ->
  isInfinite this commandInput = true ->
  values = Some l ->
  sendStart this env message commandInput values prev rc st = (Ok sent, st1) ->
  awaitMessages (collector_filter message sent) a = Some input ->
  looks_like_command this input = false ->
  cancelWord opts = Some cw ->
  Str.ieq (msg_content input) cw = false ->
  stopWord opts = Some sw ->
  Str.ieq (msg_content input) sw = false ->
  cast (arg_type this) (h_resolver (handler this)) (VStr (msg_content input))
       input (st_store st1) = Ok v ->
  is_nullish v = false ->
  limit opts = None ->
  let st2 := logged st1 (Awaited (time opts) (Some input)
                           :: util_events env [UtilAddMessage input]
                           ++ breakout_events this input
                           ++ [Casted (msg_content input) (Ok v)]) in
  loop (a :: rest) prev rc st = (Ok (VRef l), pushed l v st2)
  /\ collect this env inbox0 message commandInput st0
     = returns this env message (Ok (VRef l), pushed l v st2)
  /\ s_heap (st_store (pushed l v st2)) !! l
     = Some (default [] (s_heap (st_store st1) !! l) ++ [v])%list.
Proof.
  intros Hcomes Hinf Hl Hsend Hawait Hcmd Hcw Hne Hsw Hnstop Hcast Hv Hlimit
    st2.
  assert (Hloop : loop (a :: rest) prev rc st = (Ok (VRef l), pushed l v st2)).
  { rewrite (reply_reaches_cast _ _ _ _ _ _ _ _ _ Hsend Hawait Hcmd Hcw Hne)
      by (right; eauto).
    pose proof (castReply_run this env message commandInput values
                  (loop rest) input rc
                  (logged st1 (Awaited (time opts) (Some input)
                                 :: util_events env [UtilAddMessage input]
                                 ++ breakout_events this input))) as E.
    cbv zeta in E. rewrite E. clear E.
    change (st_store (logged st1 ?evs)) with (st_store st1).
    rewrite Hcast, Hv, Hinf, Hl, Hlimit. simpl lt_number. cbv iota.
    unfold st2. rewrite logged_logged. simpl. now rewrite <- app_assoc. }
  split; [exact Hloop |]. split.
  - now apply (collect_returns _ _ _ _ _ _ _ _ _ _ _ Hcomes).
  - unfold pushed. simpl. now rewrite lookup_insert_eq.
Qed.

End Words.

(** X19 on the reply [CANCEL] to a prompt whose cancel word is
    [cancel]. *)
Lemma cancel_word_ends_in_cancel_witness :
  Str.toLowerCase "CANCEL" = Str.toLowerCase "cancel"
  /\ collect (Fixture.number_arg (Fixture.with_retries 1)) Fixture.channel
             [Fixture.reply "r1" "CANCEL"] Fixture.message "" Fixture.st0
     = returns (Fixture.number_arg (Fixture.with_retries 1)) Fixture.channel
         Fixture.message
         (Ok (VFlag Cancel),
          logged (entered (Fixture.number_arg (Fixture.with_retries 1))
                          Fixture.message "" Fixture.st0)
            [ Resolved Start 1 (TString "start?");
              Sent ViaChannel "start?"
                   (mkMessage "bot-start?" "c" "bot" "start?");
              Awaited (Some 30000%N) (Some (mkMessage "r1" "c" "u" "CANCEL"));
              Parsed (mkMessage "r1" "c" "u" "CANCEL") false;
              Resolved CancelPrompt 1 (TString "cancelled!");
              Sent ViaChannel "cancelled!"
                   (mkMessage "bot-cancelled!" "c" "bot" "cancelled!") ]).
Proof.
  split; [reflexivity |].
  apply (cancel_word_ends_in_cancel
           (Fixture.number_arg (Fixture.with_retries 1)) Fixture.channel
           Fixture.message "" [Fixture.reply "r1" "CANCEL"] Fixture.st0
           (Fixture.reply "r1" "CANCEL") [] Fixture.message 1
           (entered (Fixture.number_arg (Fixture.with_retries 1))
                    Fixture.message "" Fixture.st0)
           (logged (entered (Fixture.number_arg (Fixture.with_retries 1))
                            Fixture.message "" Fixture.st0)
              [ Resolved Start 1 (TString "start?");
                Sent ViaChannel "start?"
                     (mkMessage "bot-start?" "c" "bot" "start?") ])
           (Some (mkMessage "bot-start?" "c" "bot" "start?"))
           (mkMessage "r1" "c" "u" "CANCEL") "cancel").
  - reflexivity.
  - reflexivity.
  - reflexivity.
  - reflexivity.
  - reflexivity.
  - reflexivity.
Defined.

(** X20 on a prompt that only sets [retries], under a handler with no
    default prompt. *)
Lemma missing_word_throws_witness :
  cancelWord (promptOptions (Fixture.bare_arg (Fixture.with_retries 1))) = None
  /\ collect (Fixture.bare_arg (Fixture.with_retries 1)) Fixture.channel
             [Fixture.reply "r1" "7"] Fixture.message "" Fixture.st0
     = (Throw (TypeError "Cannot read property 'toLowerCase' of undefined"),
        logged (entered (Fixture.bare_arg (Fixture.with_retries 1))
                        Fixture.message "" Fixture.st0)
          [ Resolved Start 1 TUndefined;
            Awaited None (Some (mkMessage "r1" "c" "u" "7")) ]).
Proof.
  split; [reflexivity |].
  apply (missing_word_throws
           (Fixture.bare_arg (Fixture.with_retries 1)) Fixture.channel
           Fixture.message "" [Fixture.reply "r1" "7"] Fixture.st0
           (Fixture.reply "r1" "7") [] Fixture.message 1
           (entered (Fixture.bare_arg (Fixture.with_retries 1))
                    Fixture.message "" Fixture.st0)
           (logged (entered (Fixture.bare_arg (Fixture.with_retries 1))
                            Fixture.message "" Fixture.st0)
              [ Resolved Start 1 TUndefined ])
           None (mkMessage "r1" "c" "u" "7")).
  - reflexivity.
  - reflexivity.
  - reflexivity.
  - reflexivity.
  - left. reflexivity.
Defined.

(** X21 on a prompt that only sets its cancel word, under a handler with
    no default prompt. *)
Lemma unset_retries_end_at_first_miss_witness :
  retries (promptOptions (Fixture.bare_arg Fixture.quit_prompt)) = None
  /\ collect (Fixture.bare_arg Fixture.quit_prompt) Fixture.channel
             [Fixture.reply "r1" "x"; Fixture.reply "r2" "7"] Fixture.message
             "" Fixture.st0
     = returns (Fixture.bare_arg Fixture.quit_prompt) Fixture.channel
         Fixture.message
         (Ok (VFlag Cancel),
          logged (entered (Fixture.bare_arg Fixture.quit_prompt)
                          Fixture.message "" Fixture.st0)
            [ Resolved Start 1 TUndefined;
              Awaited None (Some (mkMessage "r1" "c" "u" "x"));
              Casted "x" (Ok VNull);
              Resolved Ended 1 TUndefined ]).
Proof.
  split; [reflexivity |].
  apply (unset_retries_end_at_first_miss
           (Fixture.bare_arg Fixture.quit_prompt) Fixture.channel
           Fixture.message ""
           [Fixture.reply "r1" "x"; Fixture.reply "r2" "7"] Fixture.st0
           (Fixture.reply "r1" "x") [Fixture.reply "r2" "7"] Fixture.message 1
           (entered (Fixture.bare_arg Fixture.quit_prompt) Fixture.message ""
                    Fixture.st0)
           (logged (entered (Fixture.bare_arg Fixture.quit_prompt)
                            Fixture.message "" Fixture.st0)
              [ Resolved Start 1 TUndefined ])
           None (mkMessage "r1" "c" "u" "x") "!quit" VNull).
  - reflexivity.
  - reflexivity.
  - reflexivity.
  - reflexivity.
  - reflexivity.
  - reflexivity.
  - left. reflexivity.
  - reflexivity.
  - reflexivity.
  - reflexivity.
Defined.

(** X22 on an infinite prompt with its two words and no limit: the
    second reply is not awaited. *)
Lemma unset_limit_returns_after_one_value_witness :
  limit (promptOptions (Fixture.bare_arg Fixture.unlimited)) = None
  /\ collect (Fixture.bare_arg Fixture.unlimited) Fixture.channel
             [Fixture.reply "r1" "7"; Fixture.reply "r2" "8"] Fixture.message
             "" Fixture.st0
     = returns (Fixture.bare_arg Fixture.unlimited) Fixture.channel
         Fixture.message
         (Ok (VRef 1%positive),
          pushed 1%positive (VNum 7)
            (logged (entered (Fixture.bare_arg Fixture.unlimited)
                             Fixture.message "" Fixture.st0)
               [ Resolved Start 1 TUndefined;
                 Awaited None (Some (mkMessage "r1" "c" "u" "7"));
                 Casted "7" (Ok (VNum 7)) ])).
Proof.
  split; [reflexivity |].
  apply (unset_limit_returns_after_one_value
           (Fixture.bare_arg Fixture.unlimited) Fixture.channel
           Fixture.message ""
           [Fixture.reply "r1" "7"; Fixture.reply "r2" "8"] Fixture.st0
           (Fixture.reply "r1" "7") [Fixture.reply "r2" "8"] Fixture.message 1
           (entered (Fixture.bare_arg Fixture.unlimited) Fixture.message ""
                    Fixture.st0)
           (logged (entered (Fixture.bare_arg Fixture.unlimited)
                            Fixture.message "" Fixture.st0)
              [ Resolved Start 1 TUndefined ])
           None (mkMessage "r1" "c" "u" "7") "cancel" "stop" 1%positive
           (VNum 7)).
  - reflexivity.
  - reflexivity.
  - reflexivity.
  - reflexivity.
  - reflexivity.
  - reflexivity.
  - reflexivity.
  - reflexivity.
  - reflexivity.
  - reflexivity.
  - reflexivity.
  - reflexivity.
  - reflexivity.
Defined.

(** * The first reply that casts *)

Section FirstValue.

Variable this : Argument.
Variable env : Transport.
Variable message : Message.
Variable commandInput : string.
Variable values : option loc.
Variable r : nat.
Variable cw : string.

Local Abbreviation opts := (promptOptions this).
Local Abbreviation loop := (promptOne this env message commandInput values).

Hypothesis not_infinite : isInfinite this commandInput = false.
Hypothesis retries_r : retries opts = Some (Finite r).
Hypothesis cancel_word : cancelWord opts = Some cw.
Hypothesis delivers : forall log via what, deliver env log via what <> None.

(** One turn whose reply casts: the loop ends with the value. *)
Lemma hit_turn a rest prev rc st m v :
  replies_with env message a m ->
  hits_cast this cw (st_store st) m v ->
  exists evs,
    cast_attempts evs = 1
    /\ loop (a :: rest) prev rc st = (Ok v, logged st evs).
Proof.
  intros [Hnone Hsome] (Hcmd & Hcancel & Hhit & Hv).
  destruct (sendStart_delivers this env message commandInput values
              not_infinite delivers prev rc st)
    as (sent & evs0 & Hsend & Hc0 & _ & Hsent).
  assert (Hawait : awaitMessages (collector_filter message sent) a = Some m).
  { destruct Hsent as [-> | (log & via & what & Hd)]; [exact Hnone |].
    destruct sent as [s |]; [now apply (Hsome log via what) | exact Hnone]. }
  rewrite promptOne_sent, Hsend, Hawait, afterReply_run, Hcmd.
  rewrite cancelCheck_run, cancel_word, Hcancel.
  rewrite stopCheck_run, not_infinite.
  pose proof (castReply_run this env message commandInput values (loop rest)
                m rc) as E.
  cbv zeta in E. rewrite E. clear E.
  rewrite !logged_logged.
  change (st_store (logged st _)) with (st_store st).
  rewrite Hhit, Hv, not_infinite.
  eexists. split; [| reflexivity].
  rewrite !cast_attempts_app.
  rewrite (cast_attempts_no_cast _ Hc0).
  rewrite (cast_attempts_no_cast (breakout_events this m))
    by apply no_cast_breakout.
  rewrite (cast_attempts_no_cast (Awaited _ _ :: _))
    by (apply no_cast_await, no_cast_util; repeat constructor).
  reflexivity.
Qed.

(** Replies that miss while retries are left, then a reply that casts. *)
Lemma loop_until_hit more a m v :
  forall missed arrivals prev rc st,
    Forall2 (replies_with env message) arrivals missed ->
    Forall (misses_cast this cw (st_store st)) missed ->
    rc + length missed <= S r ->
    replies_with env message a m ->
    hits_cast this cw (st_store st) m v ->
    exists evs,
      loop (arrivals ++ a :: more) prev rc st = (Ok v, logged st evs)
      /\ cast_attempts evs = S (length missed).
Proof.
  induction missed as [| m0 missed IH];
    intros arrivals prev rc st Harr Hmiss Hlen Ha Hm.
  - inversion Harr; subst. simpl app.
    destruct (hit_turn a more prev rc st m v Ha Hm) as (evs & Hcount & Hrun).
    exists evs. now split.
  - inversion Harr as [| a0 ? arrivals' ? Ha0 Harr']; subst. clear Harr.
    inversion Hmiss as [| ? ? Hm0 Hmiss']; subst. clear Hmiss.
    destruct (missed_turn this env message commandInput values cw
                not_infinite cancel_word delivers
                a0 (arrivals' ++ a :: more) prev rc st m0 Ha0 Hm0)
      as (evs1 & Hcount & _ & Hturn).
    simpl app. rewrite Hturn, retries_r. simpl le_number.
    simpl in Hlen.
    assert (Hle : (rc <=? r)%nat = true) by (apply Nat.leb_le; lia).
    rewrite Hle.
    destruct (IH arrivals' m0 (rc + 1) (logged st evs1) Harr' Hmiss')
      as (evs2 & Hrun & Hcasts); [lia | exact Ha | exact Hm |].
    rewrite Hrun, logged_logged.
    exists (evs1 ++ evs2)%list. split; [reflexivity |].
    rewrite cast_attempts_app, Hcount, Hcasts. reflexivity.
Qed.

End FirstValue.

(** X23: a prompt that is not infinite returns the value of the first
    reply that casts, when fewer replies miss before it than the prompt
    has turns ([retries + 1], one less for a session that a command
    phrase seeded): [collect] gives that value and not a flag, every
    reply up to it is cast once and none after it, the arguments are
    left alone and the prompt is no longer registered. *)
Theorem first_reply_that_casts_is_returned
    (this : Argument) (env : Transport) (message : Message)
    (commandInput : string) (st : state) (r : nat) (cw : string)
    (missed : list Message) (arrivals more : list arrival) (a : arrival)
    (m : Message) (v : value) :
  isInfinite this commandInput = false ->
  retries (promptOptions this) = Some (Finite r) ->
  cancelWord (promptOptions this) = Some cw ->
  (forall log via what, deliver env log via what <> None) ->
  (h_commandUtil (handler this) = true -> message_util env = true) ->
  Forall2 (replies_with env message) arrivals missed ->
  Forall (misses_cast this cw (st_store st)) missed ->
  additionalRetry commandInput + length missed <= r ->
  replies_with env message a m ->
  hits_cast this cw (st_store st) m v ->
  exists st' evs,
    collect this env (arrivals ++ a :: more) message commandInput st
    = (Ok v, st')
    /\ st_log st' = (st_log st ++ evs)%list
    /\ cast_attempts evs = S (length missed)
    /\ st_store st' = st_store st
    /\ (msg_channel message, msg_author message) ∉ st_prompts st'.
Proof.
  intros Hinf Hretries Hcancel Hdelivers Hutil Harr Hmiss Hlen Ha Hm.
  assert (Hstore : st_store (entered this message commandInput st)
                   = st_store st)
    by (unfold entered; now rewrite Hinf).
  destruct (loop_until_hit this env message commandInput
              (session_values this commandInput st) r cw Hinf Hretries Hcancel
              Hdelivers more a m v missed arrivals message
              (1 + additionalRetry commandInput)
              (entered this message commandInput st) Harr)
    as (evs & Hrun & Hcasts).
  { now rewrite Hstore. }
  { lia. }
  { exact Ha. }
  { now rewrite Hstore. }
  rewrite collect_run, Hrun.
  assert (Hfinish : h_commandUtil (handler this) && negb (message_util env)
                    = false).
  { destruct (h_commandUtil (handler this)); [| reflexivity].
    now rewrite Hutil. }
  rewrite Hfinish.
  eexists _, _. split; [reflexivity |]. split.
  { unfold released, entered, logged. cbn [st_log].
    rewrite <- !app_assoc. reflexivity. }
  split.
  { change (cast_attempts (?e :: evs ++ ?tl))
      with (cast_attempts ([e] ++ evs ++ tl)).
    rewrite !cast_attempts_app, Hcasts.
    destruct (h_commandUtil (handler this)); unfold cast_attempts; simpl;
      lia. }
  split; [exact Hstore |].
  unfold released. cbn [st_prompts]. rewrite elem_of_difference.
  intros [_ Hn]. apply Hn. now apply elem_of_singleton.
Qed.

(** X23 on the phrase [abc], which seeds the session, and the replies
    [x] and [7] to a prompt with two retries. *)
Lemma first_reply_that_casts_is_returned_witness :
  exists st' evs,
    collect (Fixture.number_arg (Fixture.with_retries 2)) Fixture.channel
            ([Fixture.reply "r1" "x"] ++ Fixture.reply "r2" "7"
               :: [Fixture.reply "r3" "8"])
            Fixture.message "abc" Fixture.st0
    = (Ok (VNum 7), st')
    /\ st_log st' = (st_log Fixture.st0 ++ evs)%list
    /\ cast_attempts evs = 2
    /\ st_store st' = st_store Fixture.st0
    /\ ("c", "u") ∉ st_prompts st'.
Proof.
  apply (first_reply_that_casts_is_returned
           (Fixture.number_arg (Fixture.with_retries 2)) Fixture.channel
           Fixture.message "abc" Fixture.st0 2 "cancel"
           [mkMessage "r1" "c" "u" "x"] [Fixture.reply "r1" "x"]
           [Fixture.reply "r3" "8"] (Fixture.reply "r2" "7")
           (mkMessage "r2" "c" "u" "7") (VNum 7)).
  - reflexivity.
  - reflexivity.
  - reflexivity.
  - discriminate.
  - discriminate.
  - repeat constructor. intros log via what sent [= <-]. reflexivity.
  - repeat constructor.
  - simpl. lia.
  - repeat constructor. intros log via what sent [= <-]. reflexivity.
  - repeat constructor.
Defined.

(** * Properties of [ClientUtil] *)

(** ** [resolvePermissionNumber] *)

Lemma fold_push_filter (p : string -> bool) (keys init : list string) :
  fold_left (fun (resolved : list string) key =>
               if p key then (resolved ++ [key])%list else resolved)
            keys init
  = (init ++ List.filter p keys)%list.
Proof.
  revert init. induction keys as [| k keys IH]; intros init; simpl.
  - now rewrite app_nil_r.
  - rewrite IH. destruct (p k); [| reflexivity].
    now rewrite <- app_assoc.
Qed.

Lemma filter_map_fst {A} (p : string -> bool) (q : string * A -> bool)
    (table : list (string * A)) :
  Forall (fun kv => p (fst kv) = q kv) table ->
  List.filter p (map fst table) = map fst (List.filter q table).
Proof.
  induction 1 as [| kv table Hkv _ IH]; [reflexivity |].
  simpl. rewrite Hkv, IH. now destruct (q kv).
Qed.

Lemma testbit_ToInt32 n k :
  (0 <= k < 32)%Z ->
  Z.testbit (ClientUtil.ToInt32 n) k = Z.testbit n k.
Proof.
  intros Hk. unfold ClientUtil.ToInt32. cbv zeta.
  assert (Hlow : Z.testbit (n mod 2 ^ 32) k = Z.testbit n k)
    by (apply Z.mod_pow2_bits_low; lia).
  destruct (n mod 2 ^ 32 <? 2 ^ 31)%Z; [exact Hlow |].
  rewrite <- Hlow.
  rewrite <- (Z.mod_pow2_bits_low (n mod 2 ^ 32 - 2 ^ 32) 32 k) by lia.
  rewrite <- (Z.mod_pow2_bits_low (n mod 2 ^ 32) 32 k) by lia.
  f_equal.
  replace (n mod 2 ^ 32 - 2 ^ 32)%Z with (n mod 2 ^ 32 + (-1) * 2 ^ 32)%Z
    by lia.
  now rewrite Z.mod_add by lia.
Qed.

Lemma land_pow2_is_zero x k :
  (0 <= k)%Z ->
  (Z.land x (2 ^ k) =? 0)%Z = negb (Z.testbit x k).
Proof.
  intros Hk. destruct (Z.testbit x k) eqn:Hbit; simpl.
  - apply Z.eqb_neq. intros Hzero.
    apply (f_equal (fun z => Z.testbit z k)) in Hzero.
    rewrite Z.land_spec, Hbit, Z.pow2_bits_true, Z.bits_0 in Hzero by lia.
    discriminate.
  - apply Z.eqb_eq. apply Z.bits_inj'. intros m Hm.
    rewrite Z.land_spec, Z.bits_0.
    destruct (Z.eq_dec k m) as [<- | Hne].
    + now rewrite Hbit.
    + rewrite (Z.pow2_bits_false k m) by lia. apply andb_false_r.
Qed.

Lemma table_ok : Forall (fun kv => entry_ok kv = true) ClientUtil.PERMISSIONS.
Proof.
  apply List.Forall_forall. apply forallb_forall. vm_compute. reflexivity.
Qed.

Lemma entry_ok_bit number kv :
  entry_ok kv = true ->
  negb (ClientUtil.band number
          (default 0%Z (ClientUtil.PERMISSIONS_at (fst kv))) =? 0)%Z
  = Z.testbit number (Z.log2 (snd kv)).
Proof.
  unfold entry_ok. cbv zeta. intros H.
  repeat (apply andb_prop in H; destruct H as [H ?]).
  destruct (ClientUtil.PERMISSIONS_at (fst kv)) as [bit |]; [| discriminate].
  apply Z.eqb_eq in H. subst bit. simpl default.
  repeat match goal with
         | H : (_ =? _)%Z = true |- _ => apply Z.eqb_eq in H
         | H : (_ <=? _)%Z = true |- _ => apply Z.leb_le in H
         | H : (_ <? _)%Z = true |- _ => apply Z.ltb_lt in H
         end.
  unfold ClientUtil.band.
  match goal with H : ClientUtil.ToInt32 _ = _ |- _ => rewrite H end.
  match goal with H : snd kv = _ |- _ => rewrite H at 1 end.
  rewrite land_pow2_is_zero by assumption.
  rewrite negb_involutive. apply testbit_ToInt32. lia.
Qed.

Lemma resolvePermissionNumber_bits number :
  ClientUtil.resolvePermissionNumber number
  = map fst (List.filter (fun kv => Z.testbit number (Z.log2 (snd kv)))
                         ClientUtil.PERMISSIONS).
Proof.
  unfold ClientUtil.resolvePermissionNumber, ClientUtil.PERMISSIONS_keys.
  rewrite (fold_push_filter
             (fun key =>
                negb (ClientUtil.band number
                        (default 0%Z (ClientUtil.PERMISSIONS_at key)) =? 0)%Z)).
  rewrite app_nil_l. apply filter_map_fst.
  eapply Forall_impl; [exact table_ok |].
  intros kv Hkv. now apply entry_ok_bit.
Qed.

(** X24: [resolvePermissionNumber] gives the names of the permissions
    whose bit is set in the number, in the order of the table, each name
    once; the number is any integer, and its bits are those of its two's
    complement form. *)
Theorem resolved_permissions_are_the_set_bits (number : Z) :
  ClientUtil.resolvePermissionNumber number
  = map fst (List.filter (fun kv => Z.testbit number (Z.log2 (snd kv)))
                         ClientUtil.PERMISSIONS)
  /\ List.NoDup (ClientUtil.resolvePermissionNumber number).
Proof.
  split; [apply resolvePermissionNumber_bits |].
  unfold ClientUtil.resolvePermissionNumber.
  rewrite (fold_push_filter
             (fun key =>
                negb (ClientUtil.band number
                        (default 0%Z (ClientUtil.PERMISSIONS_at key)) =? 0)%Z)).
  rewrite app_nil_l. apply List.NoDup_filter. apply NoDup_ListNoDup.
  apply (bool_decide_unpack _). vm_compute. reflexivity.
Qed.

Lemma testbit_fold_lor (f : string -> Z) names init k :
  Z.testbit (fold_left (fun n name => Z.lor n (f name)) names init) k
  = Z.testbit init k || existsb (fun name => Z.testbit (f name) k) names.
Proof.
  revert init. induction names as [| name names IH]; intros init; simpl.
  - now rewrite orb_false_r.
  - rewrite IH, Z.lor_spec. now rewrite orb_assoc.
Qed.

Lemma PERMISSIONS_at_in name bit :
  ClientUtil.PERMISSIONS_at name = Some bit ->
  In (name, bit) ClientUtil.PERMISSIONS.
Proof.
  unfold ClientUtil.PERMISSIONS_at.
  destruct (List.find _ ClientUtil.PERMISSIONS) as [[key b] |] eqn:Hfind;
    [| discriminate].
  intros [= <-]. apply find_some in Hfind as [Hin Heq].
  simpl in Heq. apply String.eqb_eq in Heq. now subst.
Qed.

Lemma PERMISSIONS_at_none name kv :
  ClientUtil.PERMISSIONS_at name = None ->
  In kv ClientUtil.PERMISSIONS -> String.eqb (fst kv) name = false.
Proof.
  unfold ClientUtil.PERMISSIONS_at.
  destruct (List.find _ ClientUtil.PERMISSIONS) as [[key b] |] eqn:Hfind;
    [discriminate |].
  intros _ Hin. exact (find_none _ _ Hfind kv Hin).
Qed.

Lemma own_bit kv name :
  In kv ClientUtil.PERMISSIONS ->
  Z.testbit (default 0%Z (ClientUtil.PERMISSIONS_at name)) (Z.log2 (snd kv))
  = String.eqb (fst kv) name.
Proof.
  intros Hin.
  pose proof (proj1 (List.Forall_forall _ _) table_ok kv Hin) as Hok.
  unfold entry_ok in Hok. cbv zeta in Hok.
  apply andb_prop in Hok as [_ Hall].
  destruct (ClientUtil.PERMISSIONS_at name) as [bit |] eqn:Hat; simpl.
  - apply PERMISSIONS_at_in in Hat.
    pose proof (proj1 (forallb_forall _ _) Hall _ Hat) as Heq.
    simpl in Heq. now apply Bool.eqb_prop in Heq.
  - rewrite Z.bits_0. symmetry. now apply (PERMISSIONS_at_none name kv).
Qed.

(** X25: the names of permissions can be read back from a number: for
    every list of names, [resolvePermissionNumber] of the number that has
    their bits gives the permissions of the table that the list names,
    in the order of the table; a name that is no permission adds
    nothing. *)
Theorem permission_names_round_trip (names : list string) :
  ClientUtil.resolvePermissionNumber (ClientUtil.permissionNumber names)
  = List.filter (fun key => existsb (String.eqb key) names)
                ClientUtil.PERMISSIONS_keys.
Proof.
  rewrite resolvePermissionNumber_bits. unfold ClientUtil.PERMISSIONS_keys.
  symmetry. apply filter_map_fst.
  apply List.Forall_forall. intros kv Hin.
  unfold ClientUtil.permissionNumber.
  rewrite testbit_fold_lor, Z.bits_0. simpl.
  induction names as [| name names IH]; [reflexivity |].
  simpl. rewrite IH. now rewrite (own_bit kv name Hin).
Qed.

(** X26: only the 31 low bits of the number count: two integers that
    agree modulo 2^31 resolve to the same names, so a number above
    2^32 wraps around and a negative number is read in two's
    complement. *)
Theorem permissions_of_the_low_bits (a b : Z) :
  (a mod 2 ^ 31 = b mod 2 ^ 31)%Z ->
  ClientUtil.resolvePermissionNumber a = ClientUtil.resolvePermissionNumber b.
Proof.
  intros Hmod. rewrite !resolvePermissionNumber_bits. f_equal.
  apply filter_ext_in. intros kv Hin.
  pose proof (proj1 (List.Forall_forall _ _) table_ok kv Hin) as Hok.
  unfold entry_ok in Hok. cbv zeta in Hok.
  repeat (apply andb_prop in Hok; destruct Hok as [Hok ?]).
  repeat match goal with
         | H : (_ <=? _)%Z = true |- _ => apply Z.leb_le in H
         | H : (_ <? _)%Z = true |- _ => apply Z.ltb_lt in H
         end.
  rewrite <- (Z.mod_pow2_bits_low a 31) by lia.
  rewrite <- (Z.mod_pow2_bits_low b 31) by lia.
  now rewrite Hmod.
Qed.

Lemma permissions_of_the_low_bits_witness :
  ((-1) mod 2 ^ 31 = (2 ^ 32 + 2 ^ 31 - 1) mod 2 ^ 31)%Z
  /\ ClientUtil.resolvePermissionNumber (-1)
     = ClientUtil.resolvePermissionNumber (2 ^ 32 + 2 ^ 31 - 1).
Proof.
  split; [reflexivity |].
  apply (permissions_of_the_low_bits (-1) (2 ^ 32 + 2 ^ 31 - 1)).
  reflexivity.
Defined.

(** ** [displayColor] *)

Lemma Math_max_from h xs :
  exists m,
    fold_left (fun highest x =>
                 match highest with
                 | Some h => Some (Z.max h x)
                 | None => Some x
                 end) xs (Some h) = Some m
    /\ (m = h \/ In m xs) /\ (h <= m)%Z /\ Forall (fun x => (x <= m)%Z) xs.
Proof.
  revert h. induction xs as [| x xs IH]; intros h; simpl.
  - exists h. repeat split; [now left | lia | constructor].
  - destruct (IH (Z.max h x)) as (m & -> & Hm & Hle & Hall).
    exists m. split; [reflexivity |]. split; [| split; [lia |]].
    + destruct Hm as [-> | Hin]; [| now right; right].
      destruct (Z.max_spec h x) as [[_ ->] | [_ ->]];
        [right; now left | now left].
    + constructor; [lia | exact Hall].
Qed.

Lemma Math_max_spec x xs :
  exists m, ClientUtil.Math_max (x :: xs) = Some m
            /\ In m (x :: xs) /\ Forall (fun y => (y <= m)%Z) (x :: xs).
Proof.
  unfold ClientUtil.Math_max. simpl.
  destruct (Math_max_from x xs) as (m & -> & Hm & Hle & Hall).
  exists m. split; [reflexivity |]. split.
  - destruct Hm as [-> | Hin]; [now left | now right].
  - now constructor.
Qed.

Lemma Collection_find_pure {A} (p : A -> bool) (c : ClientUtil.Collection A) :
  ClientUtil.Collection_find (fun x => ClientUtil.Return (p x)) c
  = ClientUtil.Return (snd <$> List.find (fun kv => p (snd kv)) c).
Proof.
  induction c as [| [k x] c IH]; [reflexivity |].
  simpl. destruct (p x); [reflexivity | exact IH].
Qed.

(** X27: [displayColor] never throws. It gives 0 exactly when no role of
    the member has a colour, and otherwise the colour, which is not 0, of
    a coloured role of the member whose position no other coloured role
    of the member exceeds. *)
Theorem displayColor_of_highest_coloured_role
    (member_roles : ClientUtil.Collection ClientUtil.Role) :
  exists color,
    ClientUtil.displayColor member_roles = ClientUtil.Return color
    /\ ((color = 0%Z
         /\ Forall (fun kv => ClientUtil.role_color (snd kv) = 0%Z)
                   member_roles)
        \/ (color <> 0%Z
            /\ exists r,
                 In r (map snd member_roles)
                 /\ ClientUtil.role_color r = color
                 /\ forall r',
                      In r' (map snd member_roles) ->
                      ClientUtil.role_color r' <> 0%Z ->
                      (ClientUtil.role_position r'
                       <= ClientUtil.role_position r)%Z)).
Proof.
  unfold ClientUtil.displayColor. cbv zeta.
  remember (ClientUtil.Collection_filter
              (fun r => negb (ClientUtil.role_color r =? 0)%Z) member_roles)
    as coloured eqn:Hc.
  assert (Hcoloured : forall kv,
            In kv coloured
            <-> In kv member_roles /\ ClientUtil.role_color (snd kv) <> 0%Z).
  { intros kv. subst coloured. unfold ClientUtil.Collection_filter.
    rewrite filter_In, negb_true_iff, Z.eqb_neq. reflexivity. }
  clear Hc. destruct coloured as [| [k0 r0] rest].
  - exists 0%Z. split; [reflexivity |]. left. split; [reflexivity |].
    apply List.Forall_forall. intros kv Hin.
    destruct (Z.eq_dec (ClientUtil.role_color (snd kv)) 0%Z) as [H0 | Hne];
      [exact H0 |].
    destruct (proj2 (Hcoloured kv) (conj Hin Hne)).
  - remember ((k0, r0) :: rest) as coloured eqn:Hc.
    assert (Hsize : (ClientUtil.Collection_size coloured =? 0)%nat = false)
      by (subst coloured; reflexivity).
    rewrite Hsize, Collection_find_pure.
    assert (Hmax : exists m,
              ClientUtil.Math_max
                (ClientUtil.Collection_map ClientUtil.role_position coloured)
              = Some m
              /\ (exists kv, In kv coloured
                             /\ ClientUtil.role_position (snd kv) = m)
              /\ forall kv, In kv coloured ->
                            (ClientUtil.role_position (snd kv) <= m)%Z).
    { subst coloured. unfold ClientUtil.Collection_map. simpl map.
      destruct (Math_max_spec (ClientUtil.role_position r0)
                  (map (fun kv : string * ClientUtil.Role =>
                          ClientUtil.role_position (snd kv)) rest))
        as (m & Hm & Hin & Hall).
      exists m. split; [exact Hm |]. split.
      - change (In m (map (fun kv : string * ClientUtil.Role =>
                             ClientUtil.role_position (snd kv))
                          ((k0, r0) :: rest))) in Hin.
        apply in_map_iff in Hin as (kv & Hpos & Hkv). now exists kv.
      - intros kv Hkv.
        apply (proj1 (List.Forall_forall _ _) Hall).
        change (In (ClientUtil.role_position (snd kv))
                   (map (fun kv : string * ClientUtil.Role =>
                           ClientUtil.role_position (snd kv))
                        ((k0, r0) :: rest))).
        apply in_map_iff. now exists kv. }
    destruct Hmax as (m & -> & (kv0 & Hkv0 & Hpos0) & Hall).
    destruct (List.find
                (fun kv => (ClientUtil.role_position (snd kv) =? m)%Z)
                coloured) as [[k r] |] eqn:Hfind; simpl.
    + apply find_some in Hfind as [Hr Hpos]. simpl in Hpos.
      apply Z.eqb_eq in Hpos.
      pose proof (proj1 (Hcoloured _) Hr) as [Hr' Hcol]. simpl in Hcol.
      exists (ClientUtil.role_color r). split; [reflexivity |]. right.
      split; [exact Hcol |]. exists r.
      split; [apply in_map_iff; now exists (k, r) |].
      split; [reflexivity |].
      intros r' Hin' Hcol'.
      apply in_map_iff in Hin' as ([k' r''] & Heq & Hin').
      simpl in Heq. subst r''. rewrite Hpos.
      apply (Hall (k', r')). apply Hcoloured. now split.
    + exfalso.
      pose proof (find_none _ _ Hfind kv0 Hkv0) as Hno. simpl in Hno.
      apply Z.eqb_neq in Hno. congruence.
Qed.

(** ** The resolvers *)

Lemma check_throws {A} (caseSensitive : bool)
    (test : A -> string -> bool) (c : ClientUtil.Collection A) :
  ClientUtil.Collection_find
    (fun x => ClientUtil.rbind (ClientUtil.declare_text caseSensitive)
                (fun text => ClientUtil.Return (test x text))) c
  = match c with
    | [] => ClientUtil.Return None
    | _ :: _ => ClientUtil.Raise (ClientUtil.ReferenceError "text")
    end.
Proof.
  destruct c as [| [k x] rest]; [reflexivity |].
  simpl. unfold ClientUtil.declare_text. now destruct caseSensitive.
Qed.

(** X28: [resolveUser] resolves ids only. A text that holds a mention
    gives the user of the mentioned id, or undefined; another text gives
    the user that has the text as id; and for any other text, a name for
    one, the check of the search throws a ReferenceError as soon as
    there is a user to check, since it reads its own variable [text]
    before it is initialised. [caseSensitive] plays no part. *)
Theorem resolveUser_resolves_ids_only
    (users : ClientUtil.Collection ClientUtil.User) (text : string)
    (caseSensitive : option bool) :
  ClientUtil.resolveUser users text caseSensitive
  = resolved_by_id ClientUtil.user_mention users text.
Proof.
  unfold ClientUtil.resolveUser, resolved_by_id. cbv zeta.
  destruct (ClientUtil.exec ClientUtil.user_mention text); [reflexivity |].
  destruct (ClientUtil.Collection_get users text); [reflexivity |].
  apply (check_throws (default false caseSensitive)
           (fun u text =>
              String.eqb (if default false caseSensitive
                          then ClientUtil.username u
                          else Str.toLowerCase (ClientUtil.username u)) text
              || (String.eqb (if default false caseSensitive
                              then ClientUtil.username u
                              else Str.toLowerCase (ClientUtil.username u))
                             (fst (ClientUtil.split_hash text))
                  && match snd (ClientUtil.split_hash text) with
                     | second :: _ =>
                         String.eqb (ClientUtil.discriminator u) second
                     | [] => false
                     end))).
Qed.

(** X29: the resolvers of a guild resolve ids only, as [resolveUser]
    does: with a guild, a member, a channel, a role or an emoji is found
    by a mention or by its id, and any other text throws the
    ReferenceError of the check unless the collection is empty; without
    a guild, [resolveMember] resolves a user and the other three throw
    the error of the missing guild. *)
Theorem guild_resolvers_resolve_ids_only
    (users : ClientUtil.Collection ClientUtil.User) (text : string)
    (caseSensitive : option bool) :
  (forall guild,
     ClientUtil.resolveMember users text (Some guild) caseSensitive
     = ClientUtil.rmap (fmap inr)
         (resolved_by_id ClientUtil.user_mention
                         (ClientUtil.guild_members guild) text)
     /\ ClientUtil.resolveChannel text (Some guild) caseSensitive
        = resolved_by_id ClientUtil.channel_mention
                         (ClientUtil.guild_channels guild) text
     /\ ClientUtil.resolveRole text (Some guild) caseSensitive
        = resolved_by_id ClientUtil.role_mention
                         (ClientUtil.guild_roles guild) text
     /\ ClientUtil.resolveEmoji text (Some guild) caseSensitive
        = resolved_by_id ClientUtil.emoji_mention
                         (ClientUtil.guild_emojis guild) text)
  /\ ClientUtil.resolveMember users text None caseSensitive
     = ClientUtil.rmap (fmap inl) (ClientUtil.resolveUser users text None)
  /\ ClientUtil.resolveChannel text None caseSensitive
     = ClientUtil.Raise (ClientUtil.Error "Guild must be specified.")
  /\ ClientUtil.resolveRole text None caseSensitive
     = ClientUtil.Raise (ClientUtil.Error "Guild must be specified.")
  /\ ClientUtil.resolveEmoji text None caseSensitive
     = ClientUtil.Raise (ClientUtil.Error "Guild must be specified.").
Proof.
  split; [| repeat split].
  intros guild. unfold resolved_by_id. repeat split.
  - unfold ClientUtil.resolveMember. cbv zeta.
    destruct (ClientUtil.exec ClientUtil.user_mention text); [reflexivity |].
    destruct (ClientUtil.Collection_get (ClientUtil.guild_members guild) text);
      [reflexivity |].
    destruct (ClientUtil.guild_members guild) as [| [k m] rest];
      [reflexivity |].
    simpl. unfold ClientUtil.declare_text.
    now destruct (default false caseSensitive).
  - unfold ClientUtil.resolveChannel. cbv zeta.
    destruct (ClientUtil.exec ClientUtil.channel_mention text);
      [reflexivity |].
    destruct (ClientUtil.Collection_get (ClientUtil.guild_channels guild) text);
      [reflexivity |].
    destruct (ClientUtil.guild_channels guild) as [| [k c] rest];
      [reflexivity |].
    simpl. unfold ClientUtil.declare_text.
    now destruct (default false caseSensitive).
  - unfold ClientUtil.resolveRole. cbv zeta.
    destruct (ClientUtil.exec ClientUtil.role_mention text); [reflexivity |].
    destruct (ClientUtil.Collection_get (ClientUtil.guild_roles guild) text);
      [reflexivity |].
    destruct (ClientUtil.guild_roles guild) as [| [k r] rest];
      [reflexivity |].
    simpl. unfold ClientUtil.declare_text.
    now destruct (default false caseSensitive).
  - unfold ClientUtil.resolveEmoji. cbv zeta.
    destruct (ClientUtil.exec ClientUtil.emoji_mention text); [reflexivity |].
    destruct (ClientUtil.Collection_get (ClientUtil.guild_emojis guild) text);
      [reflexivity |].
    destruct (ClientUtil.guild_emojis guild) as [| [k e] rest];
      [reflexivity |].
    simpl. unfold ClientUtil.declare_text.
    now destruct (default false caseSensitive).
Qed.

(** ** Mentions *)

Lemma append_cons c (a s : string) : String c a ++ s = String c (a ++ s).
Proof. reflexivity. Qed.

Lemma append_nil_l (s : string) : "" ++ s = s.
Proof. reflexivity. Qed.

Lemma string_app_assoc (a b c : string) : (a ++ b) ++ c = a ++ (b ++ c).
Proof.
  induction a as [| x a IH]; [reflexivity |].
  rewrite !append_cons. now rewrite IH.
Qed.

(** The group [(\d+)] takes a whole run of digits when the rest of the
    expression matches after it. *)
Lemma digits_then_run next ds :
  forall rest got found,
    ds <> "" ->
    ClientUtil.all_digits ds = true ->
    match rest with
    | String c _ => ClientUtil.is_digit c = false
    | EmptyString => True
    end ->
    next rest (got ++ ds) = Some found ->
    ClientUtil.digits_then next (ds ++ rest) got = Some found.
Proof.
  induction ds as [| c ds IH]; intros rest got found Hne Hall Hrest Hnext;
    [congruence |].
  cbn [ClientUtil.all_digits] in Hall.
  apply andb_prop in Hall as [Hc Hall].
  rewrite append_cons. cbn [ClientUtil.digits_then]. rewrite Hc.
  destruct ds as [| c' ds'].
  - rewrite append_nil_l.
    assert (Hstop : ClientUtil.digits_then next rest
                      (got ++ String c EmptyString) = None).
    { destruct rest as [| c0 rest']; [reflexivity |].
      cbn [ClientUtil.digits_then]. now rewrite Hrest. }
    now rewrite Hstop.
  - rewrite (IH rest (got ++ String c EmptyString) found);
      [reflexivity | discriminate | exact Hall | exact Hrest |].
    now rewrite string_app_assoc.
Qed.

Lemma exec_skips re' pre s :
  ClientUtil.free_of "<" pre = true ->
  ClientUtil.exec (ClientUtil.Chr "<" :: re') (pre ++ s)
  = ClientUtil.exec (ClientUtil.Chr "<" :: re') s.
Proof.
  induction pre as [| c pre IH]; intros Hfree; [reflexivity |].
  cbn [ClientUtil.free_of] in Hfree.
  apply andb_prop in Hfree as [Hc Hfree].
  apply negb_true_iff in Hc.
  rewrite append_cons.
  cbn [ClientUtil.exec ClientUtil.match_here]. rewrite Hc. now apply IH.
Qed.

Lemma exec_here re s found :
  ClientUtil.match_here re s "" = Some found ->
  ClientUtil.exec re s = Some found.
Proof. intros H. destruct s; cbn [ClientUtil.exec]; now rewrite H. Qed.

Lemma match_chr c re' s group :
  ClientUtil.match_here (ClientUtil.Chr c :: re') (String c s) group
  = ClientUtil.match_here re' s group.
Proof. cbn [ClientUtil.match_here]. now rewrite Ascii.eqb_refl. Qed.

Lemma match_opt_skip c re' c' s group :
  Ascii.eqb c c' = false ->
  ClientUtil.match_here (ClientUtil.Opt c :: re') (String c' s) group
  = ClientUtil.match_here re' (String c' s) group.
Proof. intros H. cbn [ClientUtil.match_here]. now rewrite H. Qed.

Lemma match_opt_take c re' s group found :
  ClientUtil.match_here re' s group = Some found ->
  ClientUtil.match_here (ClientUtil.Opt c :: re') (String c s) group
  = Some found.
Proof.
  intros H. cbn [ClientUtil.match_here]. now rewrite Ascii.eqb_refl, H.
Qed.

Lemma match_group ds post group :
  ds <> "" ->
  ClientUtil.all_digits ds = true ->
  ClientUtil.match_here [ClientUtil.Digits; ClientUtil.Chr ">"]
                        (ds ++ String ">" post) group
  = Some ds.
Proof.
  intros Hne Hall.
  change (ClientUtil.digits_then
            (fun s' got => ClientUtil.match_here [ClientUtil.Chr ">"] s' got)
            (ds ++ String ">" post) "" = Some ds).
  apply digits_then_run; [exact Hne | exact Hall | reflexivity |].
  rewrite append_nil_l. apply match_chr.
Qed.

Lemma digit_is_not c c' :
  ClientUtil.is_digit c = true -> ClientUtil.is_digit c' = false ->
  Ascii.eqb c' c = false.
Proof.
  intros Hc Hc'. destruct (Ascii.eqb_spec c' c) as [-> |]; congruence.
Qed.

(** X30: a mention is found wherever it stands in the text: when the
    text before it holds no [<], the resolvers give what the collection
    holds at the mentioned id, a user for [<@id>] and [<@!id>], a channel
    for [<#id>] and a role for [<@&id>], and undefined when it holds
    nothing there; the rest of the text is not looked at. *)
Theorem mention_is_resolved_anywhere
    (users : ClientUtil.Collection ClientUtil.User) (guild : ClientUtil.Guild)
    (pre ds post : string) (caseSensitive : option bool) :
  ds <> "" ->
  ClientUtil.all_digits ds = true ->
  ClientUtil.free_of "<" pre = true ->
  ClientUtil.resolveUser users (pre ++ "<@" ++ ds ++ ">" ++ post)
                         caseSensitive
  = ClientUtil.Return (ClientUtil.Collection_get users ds)
  /\ ClientUtil.resolveUser users (pre ++ "<@!" ++ ds ++ ">" ++ post)
                            caseSensitive
     = ClientUtil.Return (ClientUtil.Collection_get users ds)
  /\ ClientUtil.resolveChannel (pre ++ "<#" ++ ds ++ ">" ++ post)
                               (Some guild) caseSensitive
     = ClientUtil.Return
         (ClientUtil.Collection_get (ClientUtil.guild_channels guild) ds)
  /\ ClientUtil.resolveRole (pre ++ "<@&" ++ ds ++ ">" ++ post)
                            (Some guild) caseSensitive
     = ClientUtil.Return
         (ClientUtil.Collection_get (ClientUtil.guild_roles guild) ds).
Proof.
  intros Hne Hall Hfree.
  assert (Huser : ClientUtil.exec ClientUtil.user_mention
                    (pre ++ "<@" ++ ds ++ ">" ++ post) = Some ds).
  { unfold ClientUtil.user_mention. rewrite exec_skips by exact Hfree.
    apply exec_here.
    change ("<@" ++ ds ++ ">" ++ post)
      with (String "<" (String "@" (ds ++ String ">" post))).
    rewrite !match_chr.
    destruct ds as [| c ds'] eqn:Hds; [congruence |].
    cbn [ClientUtil.all_digits] in Hall.
    pose proof (proj1 (andb_prop _ _ Hall)) as Hc.
    rewrite append_cons.
    rewrite match_opt_skip by (now apply (digit_is_not c "!")).
    rewrite <- append_cons. now apply match_group. }
  assert (Hbang : ClientUtil.exec ClientUtil.user_mention
                    (pre ++ "<@!" ++ ds ++ ">" ++ post) = Some ds).
  { unfold ClientUtil.user_mention. rewrite exec_skips by exact Hfree.
    apply exec_here.
    change ("<@!" ++ ds ++ ">" ++ post)
      with (String "<" (String "@" (String "!" (ds ++ String ">" post)))).
    rewrite !match_chr. apply match_opt_take. now apply match_group. }
  assert (Hchannel : ClientUtil.exec ClientUtil.channel_mention
                       (pre ++ "<#" ++ ds ++ ">" ++ post) = Some ds).
  { unfold ClientUtil.channel_mention. rewrite exec_skips by exact Hfree.
    apply exec_here.
    change ("<#" ++ ds ++ ">" ++ post)
      with (String "<" (String "#" (ds ++ String ">" post))).
    rewrite !match_chr. now apply match_group. }
  assert (Hrole : ClientUtil.exec ClientUtil.role_mention
                    (pre ++ "<@&" ++ ds ++ ">" ++ post) = Some ds).
  { unfold ClientUtil.role_mention. rewrite exec_skips by exact Hfree.
    apply exec_here.
    change ("<@&" ++ ds ++ ">" ++ post)
      with (String "<" (String "@" (String "&" (ds ++ String ">" post)))).
    rewrite !match_chr. now apply match_group. }
  unfold ClientUtil.resolveUser, ClientUtil.resolveChannel,
    ClientUtil.resolveRole. cbv zeta.
  rewrite Huser, Hbang, Hchannel, Hrole. repeat split.
Qed.

Lemma mention_is_resolved_anywhere_witness :
  ClientUtil.resolveUser
    [("1", ClientUtil.mkUser "1" "Ann" "0001");
     ("22", ClientUtil.mkUser "22" "Bob" "0002")]
    ("say hi to " ++ "<@!" ++ "22" ++ ">" ++ " and <@1>") None
  = ClientUtil.Return (Some (ClientUtil.mkUser "22" "Bob" "0002")).
Proof.
  apply (mention_is_resolved_anywhere
           [("1", ClientUtil.mkUser "1" "Ann" "0001");
            ("22", ClientUtil.mkUser "22" "Bob" "0002")]
           (ClientUtil.mkGuild [] [] [] [])
           "say hi to " "22" " and <@1>" None);
    [discriminate | reflexivity | reflexivity].
Defined.
